(** * opt: typed options resolved from flag, environment and default

    A shallow embedding of the builder-chain generation of package [opt]
    (the second listing of [src/unnamed/part_000]) together with the
    properties of its value resolution, its builder chain and its
    two-phase [Parse] driver.

    Conventions of the embedding.
    - A Go function that may panic, exit the process or touch package
      level state is a computation in the monad [M]: a function from the
      process state to an outcome and the state it leaves behind.
    - A [*bFlag[T]] is an address into [heap]; the struct's [up] field is
      never assigned after construction and is carried by the chain value
      itself, the assignable fields live in the heap cell.
    - Go's [int] is a 64-bit two's complement integer, here a [Z] inside
      the bounds [strconv.Atoi] enforces. *)

From Stdlib Require Import ZArith String Ascii List Bool Lia.
From stdpp Require Import base option list gmap strings.

Local Open Scope string_scope.
Local Open Scope list_scope.

(** ** Outcomes and the process monad *)

(** What a [panic] carries.  The constructors stand for the panic values
    the sources (and the flag library) raise. *)
Inductive PanicValue : Type :=
| MissingOpt                                  (* "opt: missing expected opt" *)
| ParseFailed (target : string) (input : string)
                                              (* "opt: failed to parse %q into <target>" *)
| NilDereference                              (* invalid memory address *)
| FlagRedefined (name : string)               (* pflag: "flag redefined: <name>" *)
| ShorthandTooLong (shorthand : string)       (* pflag: shorthand is more than one character *)
| ShorthandRedefined (shorthand : string).    (* pflag: unable to redefine shorthand *)

Inductive res (A : Type) : Type :=
| Ok (a : A)
| Panic (v : PanicValue)
| Exit (code : Z).

Arguments Ok {A} a.
Arguments Panic {A} v.
Arguments Exit {A} code.

Definition isOk {A} (r : res A) : bool :=
  match r with Ok _ => true | _ => false end.

Definition isPanic {A} (r : res A) : bool :=
  match r with Panic _ => true | _ => false end.

(** ** strconv *)

Module strconv.

Definition isDigit (c : ascii) : bool :=
  let n := nat_of_ascii c in (48 <=? n)%nat && (n <=? 57)%nat.

Definition digitVal (c : ascii) : Z := (Z.of_nat (nat_of_ascii c) - 48)%Z.

(** Left-to-right accumulation [n = n*10 + int(ch)]; [None] on the first
    byte that is not a decimal digit. *)
Fixpoint digits (s : string) (n : Z) : option Z :=
  match s with
  | EmptyString => Some n
  | String c s' => if isDigit c then digits s' (n * 10 + digitVal c)%Z else None
  end.

Definition maxInt : Z := (2 ^ 63 - 1)%Z.
Definition minInt : Z := (- 2 ^ 63)%Z.

(** Modelled from the spec: [strconv.Atoi] of the Go standard library,
    which is not under src/ (the spec's "integer parse").  An optional
    sign, then at least one decimal digit, and a value that fits the
    64-bit [int]; anything else is an error ([None]). *)
Definition Atoi (s : string) : option Z :=
  match s with
  | EmptyString => None
  | String c rest =>
      let neg := Ascii.eqb c "-" in
      let body := if neg || Ascii.eqb c "+" then rest else s in
      match body with
      | EmptyString => None
      | _ =>
          match digits body 0 with
          | None => None
          | Some n =>
              let v := (if neg then - n else n)%Z in
              if (minInt <=? v)%Z && (v <=? maxInt)%Z then Some v else None
          end
      end
  end.

(** Modelled from the spec: [strconv.ParseBool] of the Go standard
    library, which is not under src/ (the spec's "boolean parse"): the
    twelve accepted spellings, an error ([None]) otherwise. *)
Definition ParseBool (str : string) : option bool :=
  if existsb (String.eqb str) ["1"; "t"; "T"; "true"; "TRUE"; "True"] then Some true
  else if existsb (String.eqb str) ["0"; "f"; "F"; "false"; "FALSE"; "False"] then Some false
  else None.

End strconv.

(** ** The type constraint *)

(** [type OptType interface{ string | bool | int }]: the types an option
    can have.  The only thing the package uses of [T] is its zero value
    ([var zero T]). *)
Class OptType (T : Type) : Type := { zero : T }.

#[global] Instance OptType_string : OptType string := {| zero := "" |}.
#[global] Instance OptType_bool : OptType bool := {| zero := false |}.
#[global] Instance OptType_int : OptType Z := {| zero := 0%Z |}.

(** ** The builder chain *)

(** Address of a [bFlag] struct. *)
Abbreviation loc := nat (only parsing).

(** The assignable fields of [bFlag[T]].  The fields [v] and [ok] of the
    struct are never read or written and are left out. *)
Record bFlagCell : Type := mkFlagCell {
  flagName : string;
  flagShorthand : string;
  isDir : bool;
  isFile : bool;
  isRequired : bool
}.

(** A converter [func(string) T]: it returns a value or panics. *)
Definition ConvFunc (T : Type) : Type := string -> res T.

(** The five implementations of interface [Builder[T]].  Every link but
    the root embeds a [bCommon] whose [up] is the chain built so far; the
    root's embedded [bCommon] has [up == nil]. *)
Inductive Builder (T : Type) : Type :=
| bRoot (key : string) (convFunc : ConvFunc T)
| bFlag (p : loc) (up : Builder T)
| bEnv (up : Builder T) (envName : string)
| bDefault (up : Builder T) (def : string)
| bUsage (up : Builder T) (usage : string).

Arguments bRoot {T} key convFunc.
Arguments bFlag {T} p up.
Arguments bEnv {T} up envName.
Arguments bDefault {T} up def.
Arguments bUsage {T} up usage.

(** [type opt[T] struct { builder Builder[T] }] *)
Record opt (T : Type) : Type := mkOpt { builder : Builder T }.
Arguments mkOpt {T} builder.
Arguments builder {T} o.

(** An element of [pkgSet]: an option of some type, seen through the
    interface [{ beforeParse(); afterParse() }]. *)
Record Registered : Type := mkRegistered {
  regType : Type;
  regOpt : opt regType
}.

(** ** The external flag library *)

Module pflag.

(** The annotations cobra's [MarkFlagDirname], [MarkFlagFilename] and
    [MarkFlagRequired] set on a flag. *)
Inductive Annotation : Type := SubdirsInDir | FilenameExt | OneRequiredFlag.

Definition Annotation_eqb (a b : Annotation) : bool :=
  match a, b with
  | SubdirsInDir, SubdirsInDir | FilenameExt, FilenameExt
  | OneRequiredFlag, OneRequiredFlag => true
  | _, _ => false
  end.

(** A registered flag.  All flags this package registers are string
    flags, so [Value] is the flag's current string ([Value.String()]). *)
Record Flag : Type := mkFlag {
  Name : string;
  Shorthand : string;
  Usage : string;
  Value : string;
  DefValue : string;
  Changed : bool;
  Annotations : list Annotation
}.

(** The flags of a flag set in registration order. *)
Definition FlagSet : Type := list Flag.

(** One command-line argument of the form [--name=value]. *)
Record Arg : Type := mkArg { argName : string; argValue : string }.

(** Modelled from the spec: [pflag.Lookup] of the external flag library,
    which is not under src/ ("look up whether a flag was explicitly set,
    and its string value"): the flag registered under [name], or
    nothing ([nil]). *)
Definition Lookup (name : string) (fs : FlagSet) : option Flag :=
  find (fun f => String.eqb (Name f) name) fs.

Definition shorthandUsed (sh : string) (fs : FlagSet) : bool :=
  existsb (fun f => String.eqb (Shorthand f) sh) fs.

(** Modelled from the spec: [pflag.StringP] of the external flag
    library, which is not under src/ ("register a string-typed flag with
    name, shorthand, default, usage").  Registering a name twice, a
    shorthand longer than one character or a shorthand twice panics; in
    the two shorthand cases the flag has been added by then. *)
Definition StringP (name shorthand value usage : string) (fs : FlagSet)
  : res unit * FlagSet :=
  match Lookup name fs with
  | Some _ => (Panic (FlagRedefined name), fs)
  | None =>
      let f := mkFlag name shorthand usage value value false [] in
      let fs' := fs ++ [f] in
      if String.eqb shorthand "" then (Ok tt, fs')
      else if (1 <? String.length shorthand)%nat
           then (Panic (ShorthandTooLong shorthand), fs')
      else if shorthandUsed shorthand fs
           then (Panic (ShorthandRedefined shorthand), fs')
      else (Ok tt, fs')
  end.

Definition annotate (a : Annotation) (f : Flag) : Flag :=
  if existsb (Annotation_eqb a) (Annotations f) then f
  else mkFlag (Name f) (Shorthand f) (Usage f) (Value f) (DefValue f)
              (Changed f) (Annotations f ++ [a]).

(** Modelled from the spec: [SetAnnotation] of the external flag
    library, which is not under src/ (the spec's [MarkDirectory],
    [MarkFile], [MarkRequired]): marks the flag [name] if it exists. *)
Definition SetAnnotation (name : string) (a : Annotation) (fs : FlagSet) : FlagSet :=
  map (fun f => if String.eqb (Name f) name then annotate a f else f) fs.

(** [flag.Value.Set(value)] and [flag.Changed = true] on the flag [name]. *)
Definition Set_ (name value : string) (fs : FlagSet) : FlagSet :=
  map (fun f => if String.eqb (Name f) name
                then mkFlag (Name f) (Shorthand f) (Usage f) value (DefValue f)
                            true (Annotations f)
                else f) fs.

(** Modelled from the spec: [pflag.Parse] of the external flag library,
    which is not under src/ ("consumes process arguments, populates
    changed/value state for all registered flags").  The arguments are
    taken in order; an argument naming no registered flag ends the
    process, with status 0 for [help] and 2 otherwise (the command-line
    flag set exits on error). *)
Fixpoint Parse (args : list Arg) (fs : FlagSet) : res unit * FlagSet :=
  match args with
  | [] => (Ok tt, fs)
  | a :: rest =>
      match Lookup (argName a) fs with
      | Some _ => Parse rest (Set_ (argName a) (argValue a) fs)
      | None => (Exit (if String.eqb (argName a) "help" then 0 else 2), fs)
      end
  end.

End pflag.

(** ** Process state *)

(** The calls [Parse] makes, in the order it makes them. *)
Inductive Event : Type :=
| EvBeforeParse (o : Registered)   (* o.beforeParse(), o an element of pkgSet *)
| EvFlagParse                      (* pflag.Parse() *)
| EvAfterParse (o : Registered).   (* o.afterParse(), o an element of pkgSet *)

(** Everything the package reads or writes outside its arguments.
    [trace] is a log kept for stating the order of calls: [Parse]
    appends to it and nothing reads it. *)
Record State : Type := mkState {
  heap : list bFlagCell;            (* the bFlag structs, by address *)
  pkgSet : list Registered;         (* var pkgSet *)
  CommandLine : pflag.FlagSet;      (* pflag.CommandLine *)
  environ : gmap string string;     (* the process environment *)
  Args : list pflag.Arg;            (* os.Args[1:] *)
  trace : list Event
}.

Definition set_heap (h : list bFlagCell) (s : State) : State :=
  mkState h (pkgSet s) (CommandLine s) (environ s) (Args s) (trace s).
Definition set_pkgSet (l : list Registered) (s : State) : State :=
  mkState (heap s) l (CommandLine s) (environ s) (Args s) (trace s).
Definition set_CommandLine (fs : pflag.FlagSet) (s : State) : State :=
  mkState (heap s) (pkgSet s) fs (environ s) (Args s) (trace s).
Definition set_trace (t : list Event) (s : State) : State :=
  mkState (heap s) (pkgSet s) (CommandLine s) (environ s) (Args s) t.

Definition M (A : Type) : Type := State -> res A * State.

Definition ret {A} (a : A) : M A := fun s => (Ok a, s).

Definition bind {A B} (m : M A) (k : A -> M B) : M B :=
  fun s =>
    match m s with
    | (Ok a, s') => k a s'
    | (Panic v, s') => (Panic v, s')
    | (Exit c, s') => (Exit c, s')
    end.

Declare Scope go_scope.
Delimit Scope go_scope with go.
Bind Scope go_scope with M.

Notation "'let*' x ':=' m 'in' k" := (bind m (fun x => k))
  (at level 10, x pattern, m at level 100, k at level 200, only parsing) : go_scope.
Notation "m ;;; k" := (bind m (fun _ => k))
  (at level 100, k at level 200, right associativity, only parsing) : go_scope.

Local Open Scope go_scope.

Definition panic {A} (v : PanicValue) : M A := fun s => (Panic v, s).
Definition gets {A} (f : State -> A) : M A := fun s => (Ok (f s), s).
Definition modify (f : State -> State) : M unit := fun s => (Ok tt, f s).

(** A pure converter result inside [M]. *)
Definition liftRes {A} (r : res A) : M A := fun s => (r, s).

(** An operation of the flag library on [pflag.CommandLine]. *)
Definition onCommandLine {A} (f : pflag.FlagSet -> res A * pflag.FlagSet) : M A :=
  fun s => let '(r, fs) := f (CommandLine s) in (r, set_CommandLine fs s).

Definition emit (e : Event) : M unit :=
  modify (fun s => set_trace (trace s ++ [e]) s).

(** ** os *)

Module os.
(** Modelled from the spec: [os.LookupEnv] of the Go standard library,
    which is not under src/ ("LookupEnv(name) (string, bool)"): the
    value of the variable if it is present; the empty name is never
    present. *)
Definition LookupEnv (key : string) : M (option string) :=
  gets (fun s => if String.eqb key "" then None else environ s !! key).
End os.

(** ** cobra *)

Module cobra.
(** Modelled from the spec: cobra's [MarkFlagDirname], [MarkFlagFilename]
    and [MarkFlagRequired], which are not under src/, applied to
    [pflag.CommandLine]; their error result is dropped by the caller. *)
Definition MarkFlagDirname (name : string) : M unit :=
  onCommandLine (fun fs => (Ok tt, pflag.SetAnnotation name pflag.SubdirsInDir fs)).
Definition MarkFlagFilename (name : string) : M unit :=
  onCommandLine (fun fs => (Ok tt, pflag.SetAnnotation name pflag.FilenameExt fs)).
Definition MarkFlagRequired (name : string) : M unit :=
  onCommandLine (fun fs => (Ok tt, pflag.SetAnnotation name pflag.OneRequiredFlag fs)).
End cobra.

(** ** Memory of [bFlag] structs *)

(** [*b]: reading through a pointer that addresses no struct panics. *)
Definition deref (p : loc) : M bFlagCell :=
  fun s => match heap s !! p with
           | Some c => (Ok c, s)
           | None => (Panic NilDereference, s)
           end.

(** [*b = c] *)
Definition store (p : loc) (c : bFlagCell) : M unit :=
  fun s => match heap s !! p with
           | Some _ => (Ok tt, set_heap (<[p := c]> (heap s)) s)
           | None => (Panic NilDereference, s)
           end.

(** [&bFlag[T]{...}]: a fresh struct, at the next free address. *)
Definition alloc (c : bFlagCell) : M loc :=
  fun s => (Ok (length (heap s)), set_heap (heap s ++ [c]) s).

(** ** Facet queries *)

Section Chain.
Context {T : Type}.

(** [getKey]: [bRoot] answers, every other link inherits
    [bCommon.getKey], which asks [up]. *)
Fixpoint getKey (b : Builder T) : string :=
  match b with
  | bRoot key _ => key
  | bFlag _ up | bEnv up _ | bDefault up _ | bUsage up _ => getKey up
  end.

(** [getFlag]: [*bFlag] answers from its struct; the root (whose [up]
    is nil) answers with zero values; every other link asks [up]. *)
Fixpoint getFlag (b : Builder T) : M (string * string * bool) :=
  match b with
  | bFlag p _ => let* c := deref p in ret (flagName c, flagShorthand c, true)
  | bRoot _ _ => ret ("", "", false)
  | bEnv up _ | bDefault up _ | bUsage up _ => getFlag up
  end.

Fixpoint getEnv (b : Builder T) : string * bool :=
  match b with
  | bEnv _ envName => (envName, true)
  | bRoot _ _ => ("", false)
  | bFlag _ up | bDefault up _ | bUsage up _ => getEnv up
  end.

Fixpoint getDefault (b : Builder T) : string * bool :=
  match b with
  | bDefault _ def => (def, true)
  | bRoot _ _ => ("", false)
  | bFlag _ up | bEnv up _ | bUsage up _ => getDefault up
  end.

Fixpoint getUsage (b : Builder T) : string * bool :=
  match b with
  | bUsage _ usage => (usage, true)
  | bRoot _ _ => ("", false)
  | bFlag _ up | bEnv up _ | bDefault up _ => getUsage up
  end.

Fixpoint getConvFunc (b : Builder T) : ConvFunc T :=
  match b with
  | bRoot _ convFunc => convFunc
  | bFlag _ up | bEnv up _ | bDefault up _ | bUsage up _ => getConvFunc up
  end.

(** ** Configuration calls *)

(** The values of [FlagOptFunc[T]] the package hands out. *)
Inductive FlagOptFunc : Type := FlagIsDirName | FlagIsFileName | FlagIsRequired.

(** Calling a [FlagOptFunc] on [b]: it sets one field of [*b] and
    returns [b]. *)
Definition callFlagOptFunc (f : FlagOptFunc) (b : loc) : M loc :=
  let* c := deref b in
  store b (match f with
           | FlagIsDirName =>
               mkFlagCell (flagName c) (flagShorthand c) true (isFile c) (isRequired c)
           | FlagIsFileName =>
               mkFlagCell (flagName c) (flagShorthand c) (isDir c) true (isRequired c)
           | FlagIsRequired =>
               mkFlagCell (flagName c) (flagShorthand c) (isDir c) (isFile c) true
           end) ;;;
  ret b.

Fixpoint applyOpts (b : loc) (optFuncs : list FlagOptFunc) : M loc :=
  match optFuncs with
  | [] => ret b
  | optFunc :: rest => let* b' := callFlagOptFunc optFunc b in applyOpts b' rest
  end.

Definition newFlagBuilder (b : Builder T) (flagName flagShorthand : string)
    (optFuncs : list FlagOptFunc) : M (Builder T) :=
  let* p := alloc (mkFlagCell flagName flagShorthand false false false) in
  let* p' := applyOpts p optFuncs in
  ret (bFlag p' b).

(** The five link types have the same five configuration methods and
    the same [Build], word for word; one definition stands for all. *)
Definition Flag (flagName : string) (optFuncs : list FlagOptFunc) (b : Builder T)
  : M (Builder T) :=
  newFlagBuilder b flagName "" optFuncs.

Definition FlagP (flagName flagShorthand : string) (optFuncs : list FlagOptFunc)
    (b : Builder T) : M (Builder T) :=
  newFlagBuilder b flagName flagShorthand optFuncs.

Definition Env (envName : string) (b : Builder T) : M (Builder T) :=
  ret (bEnv b envName).

Definition Default (v : string) (b : Builder T) : M (Builder T) :=
  ret (bDefault b v).

Definition Usage (usage : string) (b : Builder T) : M (Builder T) :=
  ret (bUsage b usage).

Definition Build (b : Builder T) : M (opt T) :=
  let ret_ := mkOpt b in
  modify (fun s => set_pkgSet (pkgSet s ++ [mkRegistered T ret_]) s) ;;;
  ret ret_.

(** ** The parse hooks *)

(** The body of [beforeParse] on [*bFlag] after its first statement (the
    call of [b.bCommon.beforeParse(bd)]): an empty flag name is
    replaced by the key, a name still empty ends the method, any other
    name is registered as a string flag and marked. *)
Definition registerFlag (p : loc) (bd : Builder T) : M unit :=
  let* c := deref p in
  (if String.eqb (flagName c) ""
   then store p (mkFlagCell (getKey bd) (flagShorthand c)
                            (isDir c) (isFile c) (isRequired c))
   else ret tt) ;;;
  let* c := deref p in
  if String.eqb (flagName c) "" then ret tt
  else
    let '(def, _) := getDefault bd in
    let '(usage, _) := getUsage bd in
    onCommandLine (pflag.StringP (flagName c) (flagShorthand c) def usage) ;;;
    (if isDir c then cobra.MarkFlagDirname (flagName c) else ret tt) ;;;
    (if isFile c then cobra.MarkFlagFilename (flagName c) else ret tt) ;;;
    (if isRequired c then cobra.MarkFlagRequired (flagName c) else ret tt).

(** [beforeParse(bd)]: every link first runs [bCommon.beforeParse],
    which returns at the root and asks [up] elsewhere; only [*bFlag]
    does more. *)
Fixpoint beforeParse (b : Builder T) (bd : Builder T) : M unit :=
  match b with
  | bRoot _ _ => ret tt
  | bEnv up _ | bDefault up _ | bUsage up _ => beforeParse up bd
  | bFlag p up => beforeParse up bd ;;; registerFlag p bd
  end.

(** [afterParse(bd)]: no link overrides [bCommon.afterParse]. *)
Fixpoint afterParse (b : Builder T) (bd : Builder T) : M unit :=
  match b with
  | bRoot _ _ => ret tt
  | bFlag _ up | bEnv up _ | bDefault up _ | bUsage up _ => afterParse up bd
  end.

Definition opt_beforeParse (o : opt T) : M unit :=
  beforeParse (builder o) (builder o).

Definition opt_afterParse (o : opt T) : M unit :=
  afterParse (builder o) (builder o).

(** ** Value lookup *)

(** The function literal of [Lookup]: the winning text and whether
    there is one. *)
Definition lookupText (o : opt T) : M (string * bool) :=
  let* (flagName, _, ok) := getFlag (builder o) in
  let* fromFlag := (if ok
               then let* v := gets (fun s => pflag.Lookup flagName (CommandLine s)) in
                    match v with
                    | Some f => if pflag.Changed f then ret (Some (pflag.Value f))
                                else ret None
                    | None => ret None
                    end
               else ret None) in
  match fromFlag with
  | Some str => ret (str, true)
  | None =>
      let '(envName, ok) := getEnv (builder o) in
      let* fromEnv := (if ok then os.LookupEnv envName else ret None) in
      match fromEnv with
      | Some envVal => ret (envVal, true)
      | None =>
          let '(defVal, ok) := getDefault (builder o) in
          if ok then ret (defVal, true) else ret ("", false)
      end
  end.

Context `{OptType T}.

Definition Lookup (o : opt T) : M (T * bool) :=
  let* (str, ok) := lookupText o in
  if negb ok then ret (zero, false)
  else let* v := liftRes (getConvFunc (builder o) str) in ret (v, true).

Definition MustLookup (o : opt T) : M T :=
  let* (v, ok) := Lookup o in
  if negb ok then panic MissingOpt else ret v.

End Chain.

(** ** The driver *)

(** [for i, o := range l { f(i, o) }], counting from [i]. *)
Fixpoint forRange {A} (f : nat -> A -> M unit) (i : nat) (l : list A) : M unit :=
  match l with
  | [] => ret tt
  | o :: rest => f i o ;;; forRange f (S i) rest
  end.

Definition Parse : M unit :=
  let* set := gets pkgSet in
  forRange (fun _ o => emit (EvBeforeParse o) ;;; opt_beforeParse (regOpt o)) 0 set ;;;
  emit EvFlagParse ;;;
  let* args := gets Args in
  onCommandLine (pflag.Parse args) ;;;
  let* set := gets pkgSet in
  forRange (fun _ o => emit (EvAfterParse o) ;;; opt_afterParse (regOpt o)) 0 set.

(** ** Chain roots *)

(** The converter of [BuildString]: [func(in string) string { return in }]. *)
Definition stringConv : ConvFunc string := fun in_ => Ok in_.

(** The converter of [BuildBool]: [strconv.ParseBool], a panic on error. *)
Definition boolConv : ConvFunc bool :=
  fun in_ => match strconv.ParseBool in_ with
             | Some b => Ok b
             | None => Panic (ParseFailed "bool" in_)
             end.

(** The converter of [BuildInt]: [strconv.Atoi], a panic on error. *)
Definition intConv : ConvFunc Z :=
  fun in_ => match strconv.Atoi in_ with
             | Some i => Ok i
             | None => Panic (ParseFailed "int" in_)
             end.

Definition BuildString (key : string) : M (Builder string) :=
  ret (bRoot key stringConv).

Definition BuildBool (key : string) : M (Builder bool) :=
  ret (bRoot key boolConv).

Definition BuildInt (key : string) : M (Builder Z) :=
  ret (bRoot key intConv).

(** ** Vocabulary of the statements *)

(** A computation keeps the component [f] of the state when no run of it
    changes [f], whatever the outcome. *)
Definition keeps {X A} (f : State -> X) (m : M A) : Prop :=
  forall s, f (snd (m s)) = f s.

(** Every [*bFlag] of the chain addresses a struct of the heap.  Chains
    obtained from a root by configuration calls are of this kind, and
    stay so across [Parse] (see [configure_spec] and [Parse_allocated]). *)
Fixpoint allocated {T} (h : list bFlagCell) (b : Builder T) : Prop :=
  match b with
  | bRoot _ _ => True
  | bFlag p up => (p < length h)%nat /\ allocated h up
  | bEnv up _ | bDefault up _ | bUsage up _ => allocated h up
  end.

(** ** Sources of a value *)

(** A converter result reported as found. *)
Definition found {T} (r : res T) : res (T * bool) :=
  match r with
  | Ok v => Ok (v, true)
  | Panic v => Panic v
  | Exit c => Exit c
  end.

Section Sources.
Context {T : Type}.
Variable o : opt T.
Variable s : State.

(** The chain defines a flag facet and the flag library reports that
    flag as explicitly changed, with current string [str]. *)
Definition flagSupplies (str : string) : Prop :=
  exists n sh f,
    fst (getFlag (builder o) s) = Ok (n, sh, true) /\
    pflag.Lookup n (CommandLine s) = Some f /\
    pflag.Changed f = true /\ pflag.Value f = str.

(** The chain defines an environment facet and the variable is present
    in the process environment, with value [str]. *)
Definition envSupplies (str : string) : Prop :=
  exists e, getEnv (builder o) = (e, true) /\
            fst (os.LookupEnv e s) = Ok (Some str).

(** The chain defines a default facet, with text [str]. *)
Definition defaultSupplies (str : string) : Prop :=
  getDefault (builder o) = (str, true).

Definition flagSupplied : Prop := exists str, flagSupplies str.
Definition envSupplied : Prop := exists str, envSupplies str.
Definition defaultSupplied : Prop := exists str, defaultSupplies str.

(** What [Lookup] returns for the winning text [str]: the converter of
    the chain applied to it, reported as found; a converter that panics
    on [str] makes [Lookup] panic. *)
Definition converted (str : string) : res (T * bool) :=
  found (getConvFunc (builder o) str).

(** The text the flag source contributes, as the code computes it from
    the answer of [getFlag]. *)
Definition flagText (n : string) (ok : bool) : option string :=
  if ok then
    match pflag.Lookup n (CommandLine s) with
    | Some f => if pflag.Changed f then Some (pflag.Value f) else None
    | None => None
    end
  else None.

Definition envText : option string :=
  let '(e, ok) := getEnv (builder o) in
  if ok then (if String.eqb e "" then None else environ s !! e) else None.

Definition defaultText : option string :=
  let '(d, ok) := getDefault (builder o) in if ok then Some d else None.

(** The text [Lookup] settles on: the first source, in the order flag,
    environment, default, that has one. *)
Definition winner (n : string) (ok : bool) : option string :=
  match flagText n ok with
  | Some str => Some str
  | None => match envText with
            | Some str => Some str
            | None => defaultText
            end
  end.

End Sources.

(** ** Sample processes *)

(** A process that has declared nothing yet: no struct, no option, no
    flag, an empty environment and no argument. *)
Definition initState : State := mkState [] [] [] ∅ [] [].

Definition set_environ (e : gmap string string) (s : State) : State :=
  mkState (heap s) (pkgSet s) (CommandLine s) e (Args s) (trace s).
Definition set_Args (a : list pflag.Arg) (s : State) : State :=
  mkState (heap s) (pkgSet s) (CommandLine s) (environ s) a (trace s).

(** [BuildInt("port").Flag("port").Env("PORT").Default("80").Build()],
    the struct of its flag link at address 0. *)
Definition portOpt : opt Z :=
  mkOpt (bDefault (bEnv (bFlag 0 (bRoot "port" intConv)) "PORT") "80").

(** The same chain cut before [Default]. *)
Definition portOptNoDefault : opt Z :=
  mkOpt (bEnv (bFlag 0 (bRoot "port" intConv)) "PORT").

(** After [Parse]: the flag [port] is registered, and was given as
    [--port=8080] or not at all. *)
Definition portState (changed : bool) (env : gmap string string) : State :=
  mkState [mkFlagCell "port" "" false false false]
          [mkRegistered Z portOpt]
          [pflag.mkFlag "port" "" "" (if changed then "8080" else "80") "80" changed []]
          env [] [].

(** ** The order of calls in [Parse] *)

(** The calls of a complete run of [Parse] over the registry [set]: the
    before-parse hook of each of its options in the order of the
    registry, the external parse step, and the after-parse hook of each
    of its options in the order of the registry. *)
Definition parseTrace (set : list Registered) : list Event :=
  map EvBeforeParse set ++ [EvFlagParse] ++ map EvAfterParse set.

(** Three string options declared in the order A, B, C, each with a
    flag, in a process started with the single argument [--cc=hello]. *)
Definition declareABC : M (opt string * opt string * opt string) :=
  let* a := (let* b := BuildString "a" in let* b := Flag "" [] b in Build b) in
  let* b := (let* b := BuildString "b" in
             let* b := FlagP "bb" "b" [FlagIsDirName] b in
             let* b := Default "dflt" b in Build b) in
  let* c := (let* b := BuildString "c" in let* b := Flag "cc" [] b in
             let* b := Env "C" b in Build b) in
  ret (a, b, c).

Definition abcState : State :=
  snd (declareABC (set_Args [pflag.mkArg "cc" "hello"] initState)).

Definition optA : opt string :=
  mkOpt (bFlag 0 (bRoot "a" stringConv)).

Definition optB : opt string :=
  mkOpt (bDefault (bFlag 1 (bRoot "b" stringConv)) "dflt").

Definition optC : opt string :=
  mkOpt (bEnv (bFlag 2 (bRoot "c" stringConv)) "C").

(** ** Configuration calls as data *)

(** The struct a [FlagOptFunc] leaves behind. *)
Definition flagOptCell (f : FlagOptFunc) (c : bFlagCell) : bFlagCell :=
  match f with
  | FlagIsDirName => mkFlagCell (flagName c) (flagShorthand c) true (isFile c) (isRequired c)
  | FlagIsFileName => mkFlagCell (flagName c) (flagShorthand c) (isDir c) true (isRequired c)
  | FlagIsRequired => mkFlagCell (flagName c) (flagShorthand c) (isDir c) (isFile c) true
  end.

(** The struct [applyOpts] leaves behind: the option functions applied
    from left to right. *)
Definition applyOptsCell (optFuncs : list FlagOptFunc) (c : bFlagCell) : bFlagCell :=
  fold_left (fun c f => flagOptCell f c) optFuncs c.

(** One of the five configuration calls with its arguments. *)
Inductive ConfigCall : Type :=
| CallFlag (flagName : string) (optFuncs : list FlagOptFunc)
| CallFlagP (flagName flagShorthand : string) (optFuncs : list FlagOptFunc)
| CallEnv (envName : string)
| CallDefault (v : string)
| CallUsage (usage : string).

Definition configure {T} (c : ConfigCall) (b : Builder T) : M (Builder T) :=
  match c with
  | CallFlag n fs => Flag n fs b
  | CallFlagP n sh fs => FlagP n sh fs b
  | CallEnv n => Env n b
  | CallDefault v => Default v b
  | CallUsage u => Usage u b
  end.

(** The [up] of a link; the root has none. *)
Definition upOf {T} (b : Builder T) : option (Builder T) :=
  match b with
  | bRoot _ _ => None
  | bFlag _ up | bEnv up _ | bDefault up _ | bUsage up _ => Some up
  end.

(** The root a chain ends in. *)
Fixpoint rootOf {T} (b : Builder T) : Builder T :=
  match b with
  | bRoot _ _ => b
  | bFlag _ up | bEnv up _ | bDefault up _ | bUsage up _ => rootOf up
  end.

(** Everything a chain answers to a query, in a given state: key, flag,
    environment, default, usage and converter. *)
Definition facets {T} (b : Builder T) (s : State)
  : string * res (string * string * bool) * (string * bool) * (string * bool)
    * (string * bool) * ConvFunc T :=
  (getKey b, fst (getFlag b s), getEnv b, getDefault b, getUsage b, getConvFunc b).

(** The facets of the link a configuration call adds, from those of the
    chain it is called on: the call sets its own facet and no other. *)
Definition facetsAfter {T} (c : ConfigCall)
    (f : string * res (string * string * bool) * (string * bool) * (string * bool)
         * (string * bool) * ConvFunc T) :=
  let '(key, flag, env, def, usage, conv) := f in
  match c with
  | CallFlag n _ => (key, Ok (n, "", true), env, def, usage, conv)
  | CallFlagP n sh _ => (key, Ok (n, sh, true), env, def, usage, conv)
  | CallEnv n => (key, flag, (n, true), def, usage, conv)
  | CallDefault v => (key, flag, env, (v, true), usage, conv)
  | CallUsage u => (key, flag, env, def, (u, true), conv)
  end.


(** ** The effective flag name *)

(** The name under which [beforeParse] registers the flag link that
    answers [getFlag]: the link's flag name, or the option's key when
    that name is empty.  A chain without flag facet has none. *)
Definition effectiveFlagName {T} (o : opt T) (s : State) : option string :=
  match fst (getFlag (builder o) s) with
  | Ok (n, _, true) => Some (if String.eqb n "" then getKey (builder o) else n)
  | _ => None
  end.

(** The chain without the flag link that answers [getFlag]. *)
Fixpoint dropFlag {T} (b : Builder T) : Builder T :=
  match b with
  | bRoot _ _ => b
  | bFlag _ up => up
  | bEnv up e => bEnv (dropFlag up) e
  | bDefault up d => bDefault (dropFlag up) d
  | bUsage up u => bUsage (dropFlag up) u
  end.

(** [BuildString("").Flag("a").Flag("").Build()]: the second flag link
    shadows the first, and its name and the key are empty. *)
Definition declareShadow : M (opt string) :=
  let* b := BuildString "" in
  let* b := Flag "a" [] b in
  let* b := Flag "" [] b in
  Build b.

Definition shadowOpt : opt string := mkOpt (bFlag 1 (bFlag 0 (bRoot "" stringConv))).
Definition shadowState : State := snd (declareShadow initState).

(** [BuildString("").Flag("").Env("HOME_DIR").Build()]: one flag link,
    with empty name and empty key. *)
Definition unnamedOpt : opt string := mkOpt (bEnv (bFlag 0 (bRoot "" stringConv)) "HOME_DIR").
Definition unnamedState : State :=
  mkState [mkFlagCell "" "" false false false] [mkRegistered string unnamedOpt]
          [] ∅ [] [].

(** A computation preserves [P] when [P] holds of the state it leaves
    behind whenever it held before, whatever the outcome. *)
Definition preserves {A} (P : State -> Prop) (m : M A) : Prop :=
  forall s, P s -> P (snd (m s)).

(** No flag is registered under the empty name. *)
Definition noUnnamedFlag (s : State) : Prop :=
  pflag.Lookup "" (CommandLine s) = None.

(** [portState true env] with the flag given as [--port=v]. *)
Definition portFlagState (v : string) (env : gmap string string) : State :=
  mkState [mkFlagCell "port" "" false false false]
          [mkRegistered Z portOpt]
          [pflag.mkFlag "port" "" "" v "80" true []]
          env [] [].

(** [BuildInt("retries").Env("RETRIES").Default("3").Build()] *)
Definition declareRetries : M (opt Z) :=
  let* b := BuildInt "retries" in
  let* b := Env "RETRIES" b in
  let* b := Default "3" b in
  Build b.

Definition retriesOpt : opt Z :=
  mkOpt (bDefault (bEnv (bRoot "retries" intConv) "RETRIES") "3").

(** Two options declared with the same flag name. *)
Definition declareTwice : M unit :=
  (let* b := BuildString "x" in let* b := Flag "same" [] b in Build b) ;;;
  (let* b := BuildBool "y" in let* b := Flag "same" [] b in Build b) ;;;
  ret tt.

(** ** Sequences of configuration calls *)

(** [b.c1(...).c2(...)...]: the calls of [cs] chained from left to right. *)
Fixpoint configureAll {T} (cs : list ConfigCall) (b : Builder T) : M (Builder T) :=
  match cs with
  | [] => ret b
  | c :: cs' => let* b' := configure c b in configureAll cs' b'
  end.

(** The argument of the last call of [cs] that [f] recognises. *)
Fixpoint lastCall {A} (f : ConfigCall -> option A) (cs : list ConfigCall) : option A :=
  match cs with
  | [] => None
  | c :: cs' => match lastCall f cs' with
                | Some a => Some a
                | None => f c
                end
  end.

Definition flagOf (c : ConfigCall) : option (string * string) :=
  match c with
  | CallFlag n _ => Some (n, "")
  | CallFlagP n sh _ => Some (n, sh)
  | _ => None
  end.
Definition envOf (c : ConfigCall) : option string :=
  match c with CallEnv n => Some n | _ => None end.
Definition defaultOf (c : ConfigCall) : option string :=
  match c with CallDefault v => Some v | _ => None end.
Definition usageOf (c : ConfigCall) : option string :=
  match c with CallUsage u => Some u | _ => None end.

Definition FlagOptFunc_eqb (f g : FlagOptFunc) : bool :=
  match f, g with
  | FlagIsDirName, FlagIsDirName | FlagIsFileName, FlagIsFileName
  | FlagIsRequired, FlagIsRequired => true
  | _, _ => false
  end.

(** Whether [f] is among the option functions [fs]. *)
Definition hasOpt (f : FlagOptFunc) (fs : list FlagOptFunc) : bool :=
  existsb (FlagOptFunc_eqb f) fs.

(** ** Registration of one flag link *)

(** The name a flag link registers under: its own, or the key of the
    option being parsed when its own is empty. *)
Definition linkName {T} (c : bFlagCell) (bd : Builder T) : string :=
  if String.eqb (flagName c) "" then getKey bd else flagName c.

(** The struct of a flag link once its hook has run. *)
Definition namedCell {T} (c : bFlagCell) (bd : Builder T) : bFlagCell :=
  mkFlagCell (linkName c bd) (flagShorthand c) (isDir c) (isFile c) (isRequired c).

(** The annotations a struct's marks translate to, in the order the hook
    sets them. *)
Definition cellAnnotations (c : bFlagCell) : list pflag.Annotation :=
  (if isDir c then [pflag.SubdirsInDir] else []) ++
  (if isFile c then [pflag.FilenameExt] else []) ++
  (if isRequired c then [pflag.OneRequiredFlag] else []).

(** The flag a link registers for the option [bd]: default and usage are
    those of the whole chain of [bd]. *)
Definition linkFlag {T} (c : bFlagCell) (bd : Builder T) : pflag.Flag :=
  pflag.mkFlag (linkName c bd) (flagShorthand c) (fst (getUsage bd))
               (fst (getDefault bd)) (fst (getDefault bd)) false (cellAnnotations c).

(** The flag library accepts the shorthand: none, or one character not
    yet taken. *)
Definition shorthandFree (sh : string) (fs : pflag.FlagSet) : bool :=
  String.eqb sh "" ||
  ((String.length sh =? 1)%nat && negb (pflag.shorthandUsed sh fs)).

(** The address of the flag link that answers [getFlag]. *)
Fixpoint flagLoc {T} (b : Builder T) : option loc :=
  match b with
  | bRoot _ _ => None
  | bFlag p _ => Some p
  | bEnv up _ | bDefault up _ | bUsage up _ => flagLoc up
  end.

(** The addresses of all flag links of a chain, in the order their hooks
    run: from the root upwards. *)
Fixpoint flagLocs {T} (b : Builder T) : list loc :=
  match b with
  | bRoot _ _ => []
  | bFlag p up => flagLocs up ++ [p]
  | bEnv up _ | bDefault up _ | bUsage up _ => flagLocs up
  end.

(** The hooks of the flag links [ps], one after the other. *)
Fixpoint registerAll {T} (ps : list loc) (bd : Builder T) : M unit :=
  match ps with
  | [] => ret tt
  | p :: ps' => registerFlag p bd ;;; registerAll ps' bd
  end.

(** The struct at [p] has a name and a flag is registered under it. *)
Definition namedRegistered (s : State) (p : loc) : Prop :=
  exists c, heap s !! p = Some c /\ flagName c <> "" /\
            pflag.Lookup (flagName c) (CommandLine s) <> None.

(** A flag is registered under [n]. *)
Definition registeredName (n : string) (s : State) : Prop :=
  pflag.Lookup n (CommandLine s) <> None.

(** The hook of the link at [p] has nothing left to do for the option
    [bd]: its flag is registered, or name and key are both empty. *)
Definition settled {T} (bd : Builder T) (s : State) (p : loc) : Prop :=
  namedRegistered s p \/
  (exists c, heap s !! p = Some c /\ flagName c = "" /\ getKey bd = "").

(** A computation that never ends the process. *)
Definition neverExits {A} (m : M A) : Prop :=
  forall s c, fst (m s) <> Exit c.

(** The last part of [registerFlag]: the registration with the flag
    library and the marks. *)
Definition registerBlock (n sh def usage : string) (d f r : bool) : M unit :=
  onCommandLine (pflag.StringP n sh def usage) ;;;
  (if d then cobra.MarkFlagDirname n else ret tt) ;;;
  (if f then cobra.MarkFlagFilename n else ret tt) ;;;
  (if r then cobra.MarkFlagRequired n else ret tt).

(** Two options built on one prefix that holds a flag link:
    [p := BuildString("k").Flag("f")], then [p.Env("A").Build()] and
    [p.Default("d").Build()]. *)
Definition declareSiblings : M (opt string * opt string) :=
  let* b := BuildString "k" in
  let* p := Flag "f" [] b in
  let* b1 := Env "A" p in
  let* o1 := Build b1 in
  let* b2 := Default "d" p in
  let* o2 := Build b2 in
  ret (o1, o2).

Definition siblingA : opt string := mkOpt (bEnv (bFlag 0 (bRoot "k" stringConv)) "A").
Definition siblingB : opt string := mkOpt (bDefault (bFlag 0 (bRoot "k" stringConv)) "d").
Definition siblingState : State := snd (declareSiblings initState).

(** The text [str] wins the resolution of [o] in [s]: it comes from the
    first source, in the order flag, environment, default, that
    supplies one. *)
Definition wins {T} (o : opt T) (s : State) (str : string) : Prop :=
  flagSupplies o s str \/
  (~ flagSupplied o s /\ envSupplies o s str) \/
  (~ flagSupplied o s /\ ~ envSupplied o s /\ defaultSupplies o str).

(** The body of the first loop of [Parse]. *)
Definition beforeBody (i : nat) (o : Registered) : M unit :=
  emit (EvBeforeParse o) ;;; opt_beforeParse (regOpt o).

(** Every flag link of every option of [l] is settled. *)
Definition allSettled (l : list Registered) (s : State) : Prop :=
  Forall (fun r => Forall (settled (builder (regOpt r)) s)
                          (flagLocs (builder (regOpt r)))) l.

(** The struct at [p] gives a non-empty effective name for [bd]. *)
Definition linkNamed {T} (bd : Builder T) (p : loc) (s : State) : Prop :=
  exists c, heap s !! p = Some c /\ linkName c bd <> "".

(** ** Registration order *)

(** The names the hooks of the flag links [ps] register for the option
    [bd], in the order the hooks run, when the structs are those of the
    heap [h]: the effective name of each link, unless it is empty. *)
Definition hookNames {T} (h : list bFlagCell) (bd : Builder T) (ps : list loc)
  : list string :=
  flat_map (fun p => match h !! p with
                     | Some c => if String.eqb (linkName c bd) "" then []
                                 else [linkName c bd]
                     | None => []
                     end) ps.

(** The names the before-parse hook of a registered option registers. *)
Definition optFlagNames (h : list bFlagCell) (r : Registered) : list string :=
  hookNames h (builder (regOpt r)) (flagLocs (builder (regOpt r))).

(** Every struct of the state is as it is in [h], or has a name under
    which a flag is registered. *)
Definition untouched (h : list bFlagCell) (s : State) : Prop :=
  forall p, heap s !! p = h !! p \/ namedRegistered s p.

(** ** Declarations *)

(** [root.c1(...). ... .cn(...).Build()]: a root, the configuration
    calls [cs] chained on it, and [Build]. *)
Definition declareOpt {T} (root : M (Builder T)) (cs : list ConfigCall) : M (opt T) :=
  let* b := root in
  let* b := configureAll cs b in
  Build b.

(** * The callback generation

    The first listing of [src/unnamed/part_000] and [src/opt.go] hold an
    older form of the package: an option is declared against a cobra
    command by [String] or [Bool] with option functions, and is resolved
    once, by [init], when cobra runs its initializers.  The two files
    agree on everything but [FlagName], [FlagShorthand] and [EnvName],
    which panic on an empty argument in the listing and take it as
    "disabled" in [src/opt.go].

    Conventions.  The world is one command without parent: its two flag
    sets, the environment and the initializers handed to cobra.  A
    pointer to a flag is the flag set the flag lives in and its name
    (flags are never removed, and a name is registered once per set).
    The pointer [v] is [None] when nil and otherwise holds the content
    of the variable it points to.  The field [flagV] is the variable a
    flag stores its value in: the model keeps which flag that is, and
    reads the content of [flagV] off that flag. *)

Module legacy.

(** What a panic of this generation carries. *)
Inductive Failure : Type :=
| Message (msg : string)             (* panic("opt: ...") *)
| EnvError (fn : string) (input : string)
                                     (* panic(err), err of the env parse function *)
| Library (v : PanicValue)           (* a panic of the flag library *)
| NilPointer.                        (* nil pointer dereference *)

Inductive result (A : Type) : Type :=
| Done (a : A)
| Panicked (f : Failure)
| Exited (code : Z).
Arguments Done {A} a.
Arguments Panicked {A} f.
Arguments Exited {A} code.

(** [type OptType interface { string | bool }]: the zero value of [T],
    how a flag holding a [T] renders it ([Value.String()]), and the [T]
    behind a rendering. *)
Class OptType (T : Type) : Type := {
  zero : T;
  format : T -> string;
  read : string -> T;
  read_format : forall x, read (format x) = x
}.

(** [strconv.FormatBool] *)
Definition FormatBool (b : bool) : string := if b then "true" else "false".

#[global] Instance OptType_string : OptType string :=
  {| zero := ""; format := fun s => s; read := fun s => s;
     read_format := fun _ => eq_refl |}.
#[global] Instance OptType_bool : OptType bool :=
  {| zero := false; format := FormatBool; read := fun s => String.eqb s "true";
     read_format := fun x => match x with true => eq_refl | false => eq_refl end |}.

(** A [*pflag.Flag] or the [*T] a flag writes to: the flag [refName] of
    the persistent or the normal flag set of the command. *)
Record FlagRef : Type := mkFlagRef {
  refPersistent : bool;
  refName : string
}.

(** [type opt[T] struct]; [cmd] is the command of the world. *)
Record opt (T : Type) : Type := mkOpt {
  once : bool;                         (* sync.Once: Do has been called *)
  name : string;
  usage : string;
  envName : string;
  flag : option FlagRef;               (* *pflag.Flag *)
  flagV : option FlagRef;              (* the flag created over &o.flagV *)
  flagName : string;
  flagShorthand : string;
  flagIsPersistent : bool;
  flagIsDir : bool;
  flagIsFile : bool;
  envParseFunc : string -> (string * string) + T;   (* func(string) (T, error) *)
  defaultValue : T;
  v : option T                         (* *T *)
}.
Arguments mkOpt {T}.
Arguments once {T}.
Arguments name {T}.
Arguments usage {T}.
Arguments envName {T}.
Arguments flag {T}.
Arguments flagV {T}.
Arguments flagName {T}.
Arguments flagShorthand {T}.
Arguments flagIsPersistent {T}.
Arguments flagIsDir {T}.
Arguments flagIsFile {T}.
Arguments envParseFunc {T}.
Arguments defaultValue {T}.
Arguments v {T}.

(** An initializer handed to [cobra.OnInitialize]: the method value
    [ret.init] of an option. *)
Record Initializer : Type := mkInitializer {
  initType : Type;
  initOptType : OptType initType;
  initOpt : opt initType
}.

Record World : Type := mkWorld {
  Flags : pflag.FlagSet;               (* cmd.Flags() *)
  PersistentFlags : pflag.FlagSet;     (* cmd.PersistentFlags() *)
  environ : gmap string string;        (* the process environment *)
  initializers : list Initializer      (* cobra's initializers *)
}.

Definition W (A : Type) : Type := World -> result A * World.

Definition retW {A} (a : A) : W A := fun w => (Done a, w).

Definition panicW {A} (f : Failure) : W A := fun w => (Panicked f, w).

Definition bindW {A B} (m : W A) (k : A -> W B) : W B :=
  fun w => match m w with
           | (Done a, w') => k a w'
           | (Panicked f, w') => (Panicked f, w')
           | (Exited z, w') => (Exited z, w')
           end.

(** [cmd.PersistentFlags()] or [cmd.Flags()] *)
Definition flagSetOf (persistent : bool) (w : World) : pflag.FlagSet :=
  if persistent then PersistentFlags w else Flags w.

Definition set_flagSet (persistent : bool) (fs : pflag.FlagSet) (w : World) : World :=
  if persistent
  then mkWorld (Flags w) fs (environ w) (initializers w)
  else mkWorld fs (PersistentFlags w) (environ w) (initializers w).

(** A call of the flag library on one of the two flag sets. *)
Definition onFlagSet {A} (persistent : bool)
    (f : pflag.FlagSet -> res A * pflag.FlagSet) : W A :=
  fun w => match f (flagSetOf persistent w) with
           | (Ok a, fs) => (Done a, set_flagSet persistent fs w)
           | (Panic pv, fs) => (Panicked (Library pv), set_flagSet persistent fs w)
           | (Exit z, fs) => (Exited z, set_flagSet persistent fs w)
           end.

(** The flag a pointer points to, as it is in [w]. *)
Definition resolve (r : FlagRef) (w : World) : option pflag.Flag :=
  pflag.Lookup (refName r) (flagSetOf (refPersistent r) w).

(** Modelled from the spec: the method [Flag] of a cobra command, which
    is not under src/: the flag under [n], looked up among the command's
    flags and then among its persistent flags; [nil] if there is none. *)
Definition cmd_Flag (n : string) : W (option FlagRef) :=
  fun w => match pflag.Lookup n (Flags w) with
           | Some _ => (Done (Some (mkFlagRef false n)), w)
           | None =>
               match pflag.Lookup n (PersistentFlags w) with
               | Some _ => (Done (Some (mkFlagRef true n)), w)
               | None => (Done None, w)
               end
           end.

(** Modelled from the spec: cobra's [MarkFlagDirname] and
    [MarkFlagFilename] on a given flag set, as in the builder
    generation; their error result is dropped by the caller. *)
Definition MarkFlagDirname (flagSet : bool) (n : string) : W unit :=
  onFlagSet flagSet (fun fs => (Ok tt, pflag.SetAnnotation n pflag.SubdirsInDir fs)).

Definition MarkFlagFilename (flagSet : bool) (n : string) : W unit :=
  onFlagSet flagSet (fun fs => (Ok tt, pflag.SetAnnotation n pflag.FilenameExt fs)).

(** [os.LookupEnv], as in the builder generation: a variable with an
    empty name is never present. *)
Definition LookupEnv (key : string) (w : World) : option string :=
  if String.eqb key "" then None else environ w !! key.

(** ** Option functions *)

Definition OptFunc (T : Type) : Type := opt T -> opt T.

Section OptFuncs.
Context {T : Type}.

(** [src/opt.go]: any argument is accepted, and the empty flag name
    disables the flag. *)
Definition FlagName (flagName' : string) : OptFunc T :=
  fun o => mkOpt (once o) (name o) (usage o) (envName o) (flag o) (flagV o) flagName'
                 (flagShorthand o) (flagIsPersistent o) (flagIsDir o) (flagIsFile o)
                 (envParseFunc o) (defaultValue o) (v o).

Definition FlagShorthand (flagShorthand' : string) : OptFunc T :=
  fun o => mkOpt (once o) (name o) (usage o) (envName o) (flag o) (flagV o) (flagName o)
                 flagShorthand' (flagIsPersistent o) (flagIsDir o) (flagIsFile o)
                 (envParseFunc o) (defaultValue o) (v o).

Definition FlagIsPersistent : OptFunc T :=
  fun o => mkOpt (once o) (name o) (usage o) (envName o) (flag o) (flagV o) (flagName o)
                 (flagShorthand o) true (flagIsDir o) (flagIsFile o)
                 (envParseFunc o) (defaultValue o) (v o).

Definition EnvName (envName' : string) : OptFunc T :=
  fun o => mkOpt (once o) (name o) (usage o) envName' (flag o) (flagV o) (flagName o)
                 (flagShorthand o) (flagIsPersistent o) (flagIsDir o) (flagIsFile o)
                 (envParseFunc o) (defaultValue o) (v o).

Definition Default (v' : T) : OptFunc T :=
  fun o => mkOpt (once o) (name o) (usage o) (envName o) (flag o) (flagV o) (flagName o)
                 (flagShorthand o) (flagIsPersistent o) (flagIsDir o) (flagIsFile o)
                 (envParseFunc o) v' (v o).

(** The listing of [part_000]: the same three functions behind a check
    of their argument. *)
Definition strictFlagName (flagName' : string) : result (OptFunc T) :=
  if String.eqb flagName' "" then Panicked (Message "opt: flagName cannot be empty")
  else Done (FlagName flagName').

Definition strictFlagShorthand (flagShorthand' : string) : result (OptFunc T) :=
  if String.eqb flagShorthand' ""
  then Panicked (Message "opt: flagShorthand cannot be empty")
  else Done (FlagShorthand flagShorthand').

Definition strictEnvName (envName' : string) : result (OptFunc T) :=
  if String.eqb envName' "" then Panicked (Message "opt: envName cannot be empty")
  else Done (EnvName envName').

End OptFuncs.

(** [IsDirname] and [IsFilename] are option functions of string options
    only. *)
Definition IsDirname : OptFunc string :=
  fun o => mkOpt (once o) (name o) (usage o) (envName o) (flag o) (flagV o) (flagName o)
                 (flagShorthand o) (flagIsPersistent o) true (flagIsFile o)
                 (envParseFunc o) (defaultValue o) (v o).

Definition IsFilename : OptFunc string :=
  fun o => mkOpt (once o) (name o) (usage o) (envName o) (flag o) (flagV o) (flagName o)
                 (flagShorthand o) (flagIsPersistent o) (flagIsDir o) true
                 (envParseFunc o) (defaultValue o) (v o).

(** ** init *)

Section Init.
Context {T : Type} `{OptType T}.

Definition set_once (b : bool) (o : opt T) : opt T :=
  mkOpt b (name o) (usage o) (envName o) (flag o) (flagV o) (flagName o)
        (flagShorthand o) (flagIsPersistent o) (flagIsDir o) (flagIsFile o)
        (envParseFunc o) (defaultValue o) (v o).

Definition set_flag (f : option FlagRef) (o : opt T) : opt T :=
  mkOpt (once o) (name o) (usage o) (envName o) f (flagV o) (flagName o)
        (flagShorthand o) (flagIsPersistent o) (flagIsDir o) (flagIsFile o)
        (envParseFunc o) (defaultValue o) (v o).

Definition set_flagV (f : option FlagRef) (o : opt T) : opt T :=
  mkOpt (once o) (name o) (usage o) (envName o) (flag o) f (flagName o)
        (flagShorthand o) (flagIsPersistent o) (flagIsDir o) (flagIsFile o)
        (envParseFunc o) (defaultValue o) (v o).

Definition set_v (x : T) (o : opt T) : opt T :=
  mkOpt (once o) (name o) (usage o) (envName o) (flag o) (flagV o) (flagName o)
        (flagShorthand o) (flagIsPersistent o) (flagIsDir o) (flagIsFile o)
        (envParseFunc o) (defaultValue o) (Some x).

(** [*o.v = x] *)
Definition assign (x : T) (o : opt T) : result unit * opt T :=
  match v o with
  | None => (Panicked NilPointer, o)
  | Some _ => (Done tt, set_v x o)
  end.

(** [*o.flag]: a pointer that is nil, or points to no flag of the
    world, cannot be read. *)
Definition derefFlag (o : opt T) (w : World) : option pflag.Flag :=
  match flag o with
  | Some r => resolve r w
  | None => None
  end.

(** [o.flagV]: the value of the flag created over it, and the zero
    value of the struct literal if there is none. *)
Definition readFlagV (o : opt T) (w : World) : T :=
  match flagV o with
  | Some r =>
      match resolve r w with
      | Some f => read (pflag.Value f)
      | None => zero
      end
  | None => zero
  end.

(** What is left of the function literal of [init] once the flag has
    not decided. *)
Definition initFromEnv (o : opt T) (w : World) : result unit * opt T :=
  if negb (String.eqb (envName o) "") then
    match LookupEnv (envName o) w with
    | Some strV =>
        match envParseFunc o strV with
        | inr envV => assign envV o
        | inl (fn, input) => (Panicked (EnvError fn input), o)
        end
    | None => assign (defaultValue o) o
    end
  else assign (defaultValue o) o.

(** The function literal passed to [o.once.Do]. *)
Definition initBody (o : opt T) (w : World) : result unit * opt T :=
  if negb (String.eqb (flagName o) "") then
    match derefFlag o w with
    | None => (Panicked NilPointer, o)            (* o.flag.Changed *)
    | Some f =>
        if pflag.Changed f then assign (readFlagV o w) o
        else initFromEnv o w
    end
  else initFromEnv o w.

(** [init]: [sync.Once.Do] runs the literal on the first call only, and
    counts the call as made even if the literal panics. *)
Definition init (o : opt T) (w : World) : result unit * opt T :=
  if once o then (Done tt, o) else initBody (set_once true o) w.

(** ** doVar *)

Definition applyOptFuncs (optFuncs : list (OptFunc T)) (o : opt T) : opt T :=
  fold_left (fun o f => f o) optFuncs o.

(** Modelled from the spec: [cobra.OnInitialize], which is not under
    src/: adds an initializer to those cobra runs when a command is
    executed. *)
Definition OnInitialize (o : opt T) : W unit :=
  fun w => (Done tt, mkWorld (Flags w) (PersistentFlags w) (environ w)
                       (initializers w ++ [mkInitializer T _ o])).

Variable ToUpper : string -> string.     (* strings.ToUpper *)

(** The struct literal of [doVar]. *)
Definition newOpt (v' : option T) (name' : string)
    (envParseFunc' : string -> (string * string) + T) : opt T :=
  mkOpt false name' "" (ToUpper name') None None name' "" false false false
        envParseFunc' zero v'.

(** [flagCreateFunc] gets the flag set, here as [flagIsPersistent], and
    the struct, which it gives back. *)
Definition doVar (v' : option T) (name' : string) (optFuncs : list (OptFunc T))
    (envParseFunc' : string -> (string * string) + T)
    (flagCreateFunc : bool -> opt T -> W (opt T)) : W unit :=
  match v' with
  | None => panicW (Message "opt: v cannot be nil")
  | Some _ =>
      let ret := applyOptFuncs optFuncs (newOpt v' name' envParseFunc') in
      bindW
        (if negb (String.eqb (flagName ret) "") then
           let flagSet := flagIsPersistent ret in
           bindW (flagCreateFunc flagSet ret) (fun ret =>
           bindW (cmd_Flag (flagName ret)) (fun f =>
           let ret := set_flag f ret in
           bindW (if flagIsDir ret then MarkFlagDirname flagSet (flagName ret)
                  else retW tt) (fun _ =>
           bindW (if flagIsFile ret then MarkFlagFilename flagSet (flagName ret)
                  else retW tt) (fun _ =>
           retW ret))))
         else retW ret)
        OnInitialize
  end.

(** The function literals [String] and [Bool] pass as [flagCreateFunc]:
    [StringVarP] and [BoolVarP] register a flag under the option's flag
    name and shorthand that starts with the default value and stores
    its value in [o.flagV]; the usage is the option's.  The two differ
    in how the flag reads its argument. *)
Definition createFlag (flagSet : bool) (o : opt T) : W (opt T) :=
  bindW (onFlagSet flagSet
           (pflag.StringP (flagName o) (flagShorthand o) (format (defaultValue o))
                          (usage o)))
        (fun _ => retW (set_flagV (Some (mkFlagRef flagSet (flagName o))) o)).

End Init.

Definition String (ToUpper : string -> string) (v' : option string) (name' : string)
    (optFuncs : list (OptFunc string)) : W unit :=
  doVar ToUpper v' name' optFuncs (fun in_ => inr in_) createFlag.

Definition Bool (ToUpper : string -> string) (v' : option bool) (name' : string)
    (optFuncs : list (OptFunc bool)) : W unit :=
  doVar ToUpper v' name' optFuncs
        (fun in_ => match strconv.ParseBool in_ with
                    | Some b => inr b
                    | None => inl ("ParseBool", in_)
                    end)
        createFlag.

(** ** Vocabulary of the statements *)

(** The option functions of the package, as values. *)
Inductive OptCall : Type -> Type :=
| CFlagName {T} (s : string) : OptCall T
| CFlagShorthand {T} (s : string) : OptCall T
| CFlagIsPersistent {T} : OptCall T
| CEnvName {T} (s : string) : OptCall T
| CDefault {T} (x : T) : OptCall T
| CIsDirname : OptCall string
| CIsFilename : OptCall string.

Definition optFunc {T} (c : OptCall T) : OptFunc T :=
  match c in OptCall T return OptFunc T with
  | CFlagName s => FlagName s
  | CFlagShorthand s => FlagShorthand s
  | CFlagIsPersistent => FlagIsPersistent
  | CEnvName s => EnvName s
  | CDefault x => Default x
  | CIsDirname => IsDirname
  | CIsFilename => IsFilename
  end.

(** The calls the listing of [part_000] lets return: no empty flag
    name, shorthand or environment name. *)
Definition strictCall {T} (c : OptCall T) : bool :=
  match c with
  | CFlagName s | CFlagShorthand s | CEnvName s => negb (String.eqb s "")
  | _ => true
  end.

(** The last argument of a kind among the calls, or [d] if there is no
    call of that kind. *)
Definition lastOf {T A} (pick : OptCall T -> option A) (d : A) (cs : list (OptCall T)) : A :=
  fold_left (fun acc c => match pick c with Some a => a | None => acc end) cs d.

Definition pickFlagName {T} (c : OptCall T) : option string :=
  match c with CFlagName s => Some s | _ => None end.
Definition pickFlagShorthand {T} (c : OptCall T) : option string :=
  match c with CFlagShorthand s => Some s | _ => None end.
Definition pickEnvName {T} (c : OptCall T) : option string :=
  match c with CEnvName s => Some s | _ => None end.
Definition pickDefault {T} (c : OptCall T) : option T :=
  match c in OptCall T return option T with CDefault x => Some x | _ => None end.
Definition pickPersistent {T} (c : OptCall T) : option bool :=
  match c with CFlagIsPersistent => Some true | _ => None end.
Definition pickDir {T} (c : OptCall T) : option bool :=
  match c with CIsDirname => Some true | _ => None end.
Definition pickFile {T} (c : OptCall T) : option bool :=
  match c with CIsFilename => Some true | _ => None end.

(** The flag [doVar] creates for an option. *)
Definition declaredFlag {T} `{OptType T} (o : opt T) : pflag.Flag :=
  pflag.mkFlag (flagName o) (flagShorthand o) (usage o)
               (format (defaultValue o)) (format (defaultValue o)) false
               ((if flagIsDir o then [pflag.SubdirsInDir] else []) ++
                (if flagIsFile o then [pflag.FilenameExt] else [])).

(** The world once the command line has given the flag [r] points to
    the value [x]: the flag renders [x] and counts as changed. *)
Definition setFlag {T} `{OptType T} (r : FlagRef) (x : T) (w : World) : World :=
  set_flagSet (refPersistent r)
              (pflag.Set_ (refName r) (format x) (flagSetOf (refPersistent r) w)) w.

(** A call through the constructors of the listing of [part_000]. *)
Definition strictOptFunc {T} (c : OptCall T) : result (OptFunc T) :=
  match c in OptCall T return result (OptFunc T) with
  | CFlagName s => strictFlagName s
  | CFlagShorthand s => strictFlagShorthand s
  | CEnvName s => strictEnvName s
  | c => Done (optFunc c)
  end.

(** The flag decides: the option has a flag name and its flag has been
    changed. *)
Definition flagGiven {T} (o : opt T) (w : World) : bool :=
  negb (String.eqb (flagName o) "") &&
  match derefFlag o w with
  | Some f => pflag.Changed f
  | None => false
  end.

(** The environment variable the option reads, if it reads one that is
    set. *)
Definition envGiven {T} (o : opt T) (w : World) : option string :=
  if String.eqb (envName o) "" then None else LookupEnv (envName o) w.

(** [o.flag] can be read wherever [init] reads it. *)
Definition flagReadable {T} (o : opt T) (w : World) : Prop :=
  flagName o <> "" -> derefFlag o w <> None.

(** The option [doVar] assembles from the struct literal and the
    option functions, before it touches the command. *)
Definition assembled {T} `{OptType T} (ToUpper : string -> string) (v' : option T)
    (name' : string) (cs : list (OptCall T))
    (envParseFunc' : string -> (string * string) + T) : opt T :=
  applyOptFuncs (map optFunc cs) (newOpt ToUpper v' name' envParseFunc').

(** [String] and [Bool] with the option functions as values. *)
Definition declare {T} `{OptType T} (ToUpper : string -> string) (v' : option T)
    (name' : string) (cs : list (OptCall T))
    (envParseFunc' : string -> (string * string) + T) : W unit :=
  doVar ToUpper v' name' (map optFunc cs) envParseFunc' createFlag.

Definition stringEnvParse (in_ : string) : (string * string) + string := inr in_.

Definition boolEnvParse (in_ : string) : (string * string) + bool :=
  match strconv.ParseBool in_ with
  | Some b => inr b
  | None => inl ("ParseBool", in_)
  end.

Definition hasFlag (n : string) (fs : pflag.FlagSet) : bool :=
  match pflag.Lookup n fs with
  | Some _ => true
  | None => false
  end.

(** The option a completed [doVar] hands to cobra: the assembled option
    with [flagV] tied to the flag created for it and [flag] pointing to
    what the command answers for the flag name, its own flags first. *)
Definition declared {T} (o : opt T) (w : World) : opt T :=
  set_flag (Some (mkFlagRef (flagIsPersistent o && negb (hasFlag (flagName o) (Flags w)))
                            (flagName o)))
    (set_flagV (Some (mkFlagRef (flagIsPersistent o) (flagName o))) o).

(** A sample [strings.ToUpper], on ASCII letters. *)
Definition upperAscii (c : ascii) : ascii :=
  let n := nat_of_ascii c in
  if ((97 <=? n) && (n <=? 122))%nat then ascii_of_nat (n - 32) else c.

Fixpoint sampleToUpper (s : string) : string :=
  match s with
  | EmptyString => EmptyString
  | String.String c r => String.String (upperAscii c) (sampleToUpper r)
  end.

(** Sample worlds and options. *)
Definition emptyWorld : World := mkWorld [] [] ∅ [].

Definition envWorld : World := mkWorld [] [] {["APP_PORT" := "9090"]} [].

(** A command that has a normal flag [port] already. *)
Definition busyWorld : World :=
  mkWorld [pflag.mkFlag "port" "" "" "1" "1" false []] [] {["PORT" := "9090"]} [].

Definition portCalls : list (OptCall string) :=
  [CFlagShorthand "p"; CEnvName "APP_PORT"; CDefault "80"].

Definition persistentCalls : list (OptCall string) :=
  [CFlagIsPersistent; CDefault "80"].

Definition noFlagCalls : list (OptCall string) :=
  [CFlagName ""; CDefault "80"].

Definition sampleOpt : opt string :=
  mkOpt false "port" "" "PORT" (Some (mkFlagRef false "port"))
        (Some (mkFlagRef false "port")) "port" "" false false false
        stringEnvParse "80" (Some "").

Definition sampleBoolOpt : opt bool :=
  mkOpt false "debug" "" "DEBUG" None None "" "" false false false
        boolEnvParse false (Some false).

Definition sampleWorld (changed : bool) (env : gmap string string) : World :=
  mkWorld [pflag.mkFlag "port" "" "" "8080" "80" changed []] [] env [].

End legacy.

(** * Properties *)

(** ** Reasoning about [M] *)

Lemma bind_Ok {A B} (m : M A) (k : A -> M B) s a s' :
  m s = (Ok a, s') -> bind m k s = k a s'.
Proof. intros E. unfold bind. now rewrite E. Qed.

Lemma bind_not_Ok {A B} (m : M A) (k : A -> M B) s r s' :
  m s = (r, s') -> isOk r = false ->
  exists r', bind m k s = (r', s') /\ isOk r' = false.
Proof.
  intros E Hr. unfold bind. rewrite E.
  destruct r; [discriminate | eexists; split; [reflexivity | reflexivity] ..].
Qed.


Lemma keeps_ret {X A} (f : State -> X) (a : A) : keeps f (ret a).
Proof. intros s. reflexivity. Qed.

Lemma keeps_panic {X A} (f : State -> X) v : keeps f (@panic A v).
Proof. intros s. reflexivity. Qed.

Lemma keeps_gets {X A} (f : State -> X) (g : State -> A) : keeps f (gets g).
Proof. intros s. reflexivity. Qed.

Lemma keeps_liftRes {X A} (f : State -> X) (r : res A) : keeps f (liftRes r).
Proof. intros s. reflexivity. Qed.

Lemma keeps_bind {X A B} (f : State -> X) (m : M A) (k : A -> M B) :
  keeps f m -> (forall a, keeps f (k a)) -> keeps f (bind m k).
Proof.
  intros Hm Hk s. unfold bind. specialize (Hm s).
  destruct (m s) as [[a | v | c] s']; simpl in *; [| assumption ..].
  rewrite Hk. assumption.
Qed.

Lemma keeps_if {X A} (f : State -> X) (c : bool) (m1 m2 : M A) :
  keeps f m1 -> keeps f m2 -> keeps f (if c then m1 else m2).
Proof. destruct c; auto. Qed.

Lemma keeps_deref {X} (f : State -> X) p : keeps f (deref p).
Proof. intros s. unfold deref. destruct (heap s !! p); reflexivity. Qed.

Lemma keeps_os_LookupEnv {X} (f : State -> X) key : keeps f (os.LookupEnv key).
Proof. intros s. reflexivity. Qed.

Create HintDb keeps.
#[export] Hint Resolve @keeps_ret @keeps_panic @keeps_gets @keeps_liftRes
  @keeps_deref @keeps_os_LookupEnv : keeps.

(** Decompose a computation into the steps the hint base knows. *)
Ltac keeps_step :=
  match goal with
  | |- keeps _ (bind _ _) => apply keeps_bind; [| intros ?]
  | |- keeps _ (if _ then _ else _) => apply keeps_if
  | |- keeps _ (match ?x with (_, _) => _ end) => destruct x
  | |- keeps _ (match ?x with Some _ => _ | None => _ end) => destruct x
  | |- keeps _ _ => solve [auto with keeps]
  end.

Ltac keeps_tac := repeat keeps_step.

(** Stores, allocations and library calls keep the components they do
    not write. *)
Lemma store_keeps_pkgSet p c : keeps pkgSet (store p c).
Proof. intros s. unfold store. destruct (heap s !! p); reflexivity. Qed.
Lemma store_keeps_trace p c : keeps trace (store p c).
Proof. intros s. unfold store. destruct (heap s !! p); reflexivity. Qed.
Lemma store_keeps_CommandLine p c : keeps CommandLine (store p c).
Proof. intros s. unfold store. destruct (heap s !! p); reflexivity. Qed.
Lemma store_keeps_environ p c : keeps environ (store p c).
Proof. intros s. unfold store. destruct (heap s !! p); reflexivity. Qed.

Lemma onCommandLine_keeps_pkgSet {A} (g : pflag.FlagSet -> res A * pflag.FlagSet) :
  keeps pkgSet (onCommandLine g).
Proof. intros s. unfold onCommandLine. destruct (g (CommandLine s)); reflexivity. Qed.
Lemma onCommandLine_keeps_trace {A} (g : pflag.FlagSet -> res A * pflag.FlagSet) :
  keeps trace (onCommandLine g).
Proof. intros s. unfold onCommandLine. destruct (g (CommandLine s)); reflexivity. Qed.
Lemma onCommandLine_keeps_heap {A} (g : pflag.FlagSet -> res A * pflag.FlagSet) :
  keeps heap (onCommandLine g).
Proof. intros s. unfold onCommandLine. destruct (g (CommandLine s)); reflexivity. Qed.

#[export] Hint Resolve store_keeps_pkgSet store_keeps_trace store_keeps_CommandLine
  store_keeps_environ @onCommandLine_keeps_pkgSet @onCommandLine_keeps_trace
  @onCommandLine_keeps_heap : keeps.

(** ** Reads do not write *)

Lemma getFlag_keeps {T X} (f : State -> X) (b : Builder T) : keeps f (getFlag b).
Proof. induction b; simpl; keeps_tac. Qed.

#[export] Hint Resolve @getFlag_keeps : keeps.

Lemma lookupText_keeps {T X} (f : State -> X) (o : opt T) : keeps f (lookupText o).
Proof. unfold lookupText. keeps_tac. Qed.

#[export] Hint Resolve @lookupText_keeps : keeps.

Lemma Lookup_keeps {T} `{OptType T} {X} (f : State -> X) (o : opt T) : keeps f (Lookup o).
Proof. unfold Lookup. keeps_tac. Qed.

(** [Lookup] leaves the whole state as it found it. *)
Lemma Lookup_state {T} `{OptType T} (o : opt T) s : snd (Lookup o s) = s.
Proof. exact (Lookup_keeps (fun s => s) o s). Qed.

Lemma getFlag_state {T} (b : Builder T) s : snd (getFlag b s) = s.
Proof. exact (getFlag_keeps (fun s => s) b s). Qed.

(** ** Built chains *)

Lemma allocated_mono {T} (b : Builder T) h h' :
  (length h <= length h')%nat -> allocated h b -> allocated h' b.
Proof.
  intros Hle. induction b; simpl; auto.
  intros [Hp Hup]. split; [lia | auto].
Qed.

Lemma getFlag_allocated {T} (b : Builder T) s :
  allocated (heap s) b ->
  exists n sh ok, getFlag b s = (Ok (n, sh, ok), s).
Proof.
  induction b as [key conv | p up IH | up IH e | up IH d | up IH u]; simpl; auto.
  - intros _. exists "", "", false. reflexivity.
  - intros [Hp _]. apply lookup_lt_is_Some_2 in Hp as [c Hc].
    exists (flagName c), (flagShorthand c), true.
    unfold bind, deref. rewrite Hc. reflexivity.
Qed.

Section LookupText.
Context {T : Type}.
Variable o : opt T.
Variable s : State.

(** [lookupText], run on a chain whose flag query answers. *)
Lemma lookupText_eval n sh ok :
  getFlag (builder o) s = (Ok (n, sh, ok), s) ->
  lookupText o s =
    (Ok (match flagText s n ok with
         | Some str => (str, true)
         | None => match envText o s with
                   | Some str => (str, true)
                   | None => match defaultText o with
                             | Some str => (str, true)
                             | None => ("", false)
                             end
                   end
         end), s).
Proof.
  intros E. unfold lookupText, flagText, envText, defaultText.
  rewrite (bind_Ok _ _ _ _ _ E).
  destruct ok; simpl.
  - unfold bind at 1 2. unfold gets.
    destruct (pflag.Lookup n (CommandLine s)) as [f |]; simpl.
    + destruct (pflag.Changed f); simpl;
        [reflexivity |].
      destruct (getEnv (builder o)) as [e [|]]; simpl;
        unfold bind, ret, os.LookupEnv, gets; simpl.
      * destruct (if String.eqb e "" then None else environ s !! e); [reflexivity |].
        destruct (getDefault (builder o)) as [d [|]]; reflexivity.
      * destruct (getDefault (builder o)) as [d [|]]; reflexivity.
    + destruct (getEnv (builder o)) as [e [|]]; simpl;
        unfold bind, ret, os.LookupEnv, gets; simpl.
      * destruct (if String.eqb e "" then None else environ s !! e); [reflexivity |].
        destruct (getDefault (builder o)) as [d [|]]; reflexivity.
      * destruct (getDefault (builder o)) as [d [|]]; reflexivity.
  - unfold bind at 1. simpl.
    destruct (getEnv (builder o)) as [e [|]]; simpl;
      unfold bind, ret, os.LookupEnv, gets; simpl.
    * destruct (if String.eqb e "" then None else environ s !! e); [reflexivity |].
      destruct (getDefault (builder o)) as [d [|]]; reflexivity.
    * destruct (getDefault (builder o)) as [d [|]]; reflexivity.
Qed.

End LookupText.

Section Resolution.
Context {T : Type} `{OptType T}.
Variable o : opt T.
Variable s : State.

Lemma flagText_supplies n sh ok str :
  getFlag (builder o) s = (Ok (n, sh, ok), s) ->
  flagText s n ok = Some str <-> flagSupplies o s str.
Proof.
  intros E. unfold flagText, flagSupplies. rewrite E. simpl. split.
  - destruct ok; [| discriminate].
    destruct (pflag.Lookup n (CommandLine s)) as [f |] eqn:Ef; [| discriminate].
    destruct (pflag.Changed f) eqn:Ec; [| discriminate].
    intros [= <-]. exists n, sh, f. auto.
  - intros (n' & sh' & f & E' & Ef & Ec & Ev).
    inversion E'; subst. rewrite Ef, Ec. reflexivity.
Qed.

Lemma envText_supplies str : envText o s = Some str <-> envSupplies o s str.
Proof.
  unfold envText, envSupplies, os.LookupEnv, gets. simpl.
  destruct (getEnv (builder o)) as [e ok]. split.
  - destruct ok; [| discriminate]. intros E. exists e. rewrite E. auto.
  - intros (e' & E' & E). inversion E'; subst. now injection E.
Qed.

Lemma defaultText_supplies str : defaultText o = Some str <-> defaultSupplies o str.
Proof.
  unfold defaultText, defaultSupplies.
  destruct (getDefault (builder o)) as [d ok]. split.
  - destruct ok; [| discriminate]. now intros [= <-].
  - intros E. inversion E; subst. reflexivity.
Qed.


Lemma Lookup_eval n sh ok :
  getFlag (builder o) s = (Ok (n, sh, ok), s) ->
  Lookup o s = (match winner o s n ok with
                | Some str => converted o str
                | None => Ok (zero, false)
                end, s).
Proof.
  intros E. unfold Lookup, winner, converted, found.
  rewrite (bind_Ok _ _ _ _ _ (lookupText_eval o s n sh ok E)).
  destruct (flagText s n ok) as [str |]; simpl.
  { unfold bind, liftRes. destruct (getConvFunc (builder o) str); reflexivity. }
  destruct (envText o s) as [str |]; simpl.
  { unfold bind, liftRes. destruct (getConvFunc (builder o) str); reflexivity. }
  destruct (defaultText o) as [str |]; simpl.
  { unfold bind, liftRes. destruct (getConvFunc (builder o) str); reflexivity. }
  reflexivity.
Qed.

Lemma flagText_silent n sh ok :
  getFlag (builder o) s = (Ok (n, sh, ok), s) ->
  ~ flagSupplied o s -> flagText s n ok = None.
Proof.
  intros E Hn. destruct (flagText s n ok) as [x |] eqn:Ex; [| reflexivity].
  exfalso. apply Hn. exists x. now apply (flagText_supplies n sh ok).
Qed.

Lemma envText_silent : ~ envSupplied o s -> envText o s = None.
Proof.
  intros Hn. destruct (envText o s) as [x |] eqn:Ex; [| reflexivity].
  exfalso. apply Hn. exists x. now apply envText_supplies.
Qed.

Lemma defaultText_silent : ~ defaultSupplied o -> defaultText o = None.
Proof.
  intros Hn. destruct (defaultText o) as [x |] eqn:Ex; [| reflexivity].
  exfalso. apply Hn. exists x. now apply defaultText_supplies.
Qed.

(** Which text wins, source by source. *)
Lemma winner_flag n sh ok str :
  getFlag (builder o) s = (Ok (n, sh, ok), s) ->
  flagSupplies o s str -> winner o s n ok = Some str.
Proof.
  intros E Hs. apply (flagText_supplies n sh ok str E) in Hs.
  unfold winner. now rewrite Hs.
Qed.

Lemma winner_env n ok str :
  flagText s n ok = None -> envSupplies o s str -> winner o s n ok = Some str.
Proof.
  intros Hf Hs. apply envText_supplies in Hs. unfold winner. now rewrite Hf, Hs.
Qed.

Lemma winner_default n ok str :
  flagText s n ok = None -> ~ envSupplied o s -> defaultSupplies o str ->
  winner o s n ok = Some str.
Proof.
  intros Hf He Hs. apply defaultText_supplies in Hs. unfold winner.
  now rewrite Hf, (envText_silent He), Hs.
Qed.

Lemma winner_none n ok :
  flagText s n ok = None -> ~ envSupplied o s -> ~ defaultSupplied o ->
  winner o s n ok = None.
Proof.
  intros Hf He Hd. unfold winner.
  now rewrite Hf, (envText_silent He), (defaultText_silent Hd).
Qed.

(** C1. Precedence of [Lookup].  For an option whose chain is built (all
    its flag links address a struct): if the chain defines a flag facet
    and the flag library reports the flag as changed, [Lookup] returns
    the converted flag string; otherwise, if the chain defines an
    environment facet and the variable is present, the converted
    environment string; otherwise, if the chain defines a default facet,
    the converted default text; otherwise the zero value with
    [found = false].  The state is left as it was in every case. *)
Theorem Lookup_precedence :
  allocated (heap s) (builder o) ->
  (forall str, flagSupplies o s str -> Lookup o s = (converted o str, s)) /\
  (forall str, ~ flagSupplied o s -> envSupplies o s str ->
               Lookup o s = (converted o str, s)) /\
  (forall str, ~ flagSupplied o s -> ~ envSupplied o s -> defaultSupplies o str ->
               Lookup o s = (converted o str, s)) /\
  (~ flagSupplied o s -> ~ envSupplied o s -> ~ defaultSupplied o ->
   Lookup o s = (Ok (zero, false), s)).
Proof.
  intros Halloc.
  destruct (getFlag_allocated _ _ Halloc) as (n & sh & ok & E).
  rewrite (Lookup_eval n sh ok E).
  split; [| split; [| split]].
  - intros str Hs. now rewrite (winner_flag n sh ok str E Hs).
  - intros str Hn Hs.
    now rewrite (winner_env n ok str (flagText_silent n sh ok E Hn) Hs).
  - intros str Hn He Hs.
    now rewrite (winner_default n ok str (flagText_silent n sh ok E Hn) He Hs).
  - intros Hn He Hd.
    now rewrite (winner_none n ok (flagText_silent n sh ok E Hn) He Hd).
Qed.

End Resolution.

(** In [portState false env] the flag source is silent. *)
Lemma portState_flag_silent (o : opt Z) env :
  builder o = builder portOpt \/ builder o = builder portOptNoDefault ->
  ~ flagSupplied o (portState false env).
Proof.
  intros Hb (str & n & sh & f & E & Ef & Ec & Ev).
  assert (n = "port") as ->.
  { destruct Hb as [Hb | Hb]; rewrite Hb in E; simpl in E; now inversion E. }
  simpl in Ef. inversion Ef; subst. discriminate Ec.
Qed.

Lemma empty_env_silent (o : opt Z) s :
  environ s = ∅ -> ~ envSupplied o s.
Proof.
  intros He (str & e & _ & E). unfold os.LookupEnv, gets in E. simpl in E.
  rewrite He in E. destruct (String.eqb e ""); [discriminate |].
  rewrite lookup_empty in E. discriminate.
Qed.

Lemma Lookup_precedence_witness :
  Lookup portOpt (portState true {["PORT" := "9090"]})
    = (Ok (8080%Z, true), portState true {["PORT" := "9090"]}) /\
  Lookup portOpt (portState false {["PORT" := "9090"]})
    = (Ok (9090%Z, true), portState false {["PORT" := "9090"]}) /\
  Lookup portOpt (portState false ∅) = (Ok (80%Z, true), portState false ∅) /\
  Lookup portOptNoDefault (portState false ∅) = (Ok (0%Z, false), portState false ∅).
Proof.
  assert (Ha : forall c e (o : opt Z),
             builder o = builder portOpt \/ builder o = builder portOptNoDefault ->
             allocated (heap (portState c e)) (builder o)).
  { intros c e o [Hb | Hb]; rewrite Hb; simpl; lia. }
  split; [| split; [| split]].
  - refine (proj1 (Lookup_precedence portOpt _ (Ha _ _ _ (or_introl eq_refl))) "8080" _).
    exists "port", "", (pflag.mkFlag "port" "" "" "8080" "80" true []). now vm_compute.
  - refine (proj1 (proj2 (Lookup_precedence portOpt _ (Ha _ _ _ (or_introl eq_refl))))
              "9090" _ _).
    + apply portState_flag_silent. now left.
    + exists "PORT". now vm_compute.
  - refine (proj1 (proj2 (proj2 (Lookup_precedence portOpt _
              (Ha _ _ _ (or_introl eq_refl))))) "80" _ _ _).
    + apply portState_flag_silent. now left.
    + now apply empty_env_silent.
    + reflexivity.
  - refine (proj2 (proj2 (proj2 (Lookup_precedence portOptNoDefault _
              (Ha _ _ _ (or_intror eq_refl))))) _ _ _).
    + apply portState_flag_silent. now right.
    + now apply empty_env_silent.
    + intros (str & E). discriminate E.
Defined.

(** C2. [MustLookup] returns exactly the value [Lookup] returns when
    [Lookup] reports [found = true], and panics with the missing-option
    value, returning nothing, when [Lookup] reports [found = false]. *)
Theorem MustLookup_spec {T} `{OptType T} (o : opt T) (s : State) :
  (forall v s', Lookup o s = (Ok (v, true), s') -> MustLookup o s = (Ok v, s')) /\
  (forall v s', Lookup o s = (Ok (v, false), s') ->
                MustLookup o s = (Panic MissingOpt, s')).
Proof.
  split; intros v s' E; unfold MustLookup; now rewrite (bind_Ok _ _ _ _ _ E).
Qed.

Lemma MustLookup_spec_witness :
  MustLookup portOpt (portState false ∅) = (Ok 80%Z, portState false ∅) /\
  MustLookup portOptNoDefault (portState false ∅)
    = (Panic MissingOpt, portState false ∅).
Proof.
  split.
  - apply (proj1 (MustLookup_spec portOpt (portState false ∅)) 80%Z). reflexivity.
  - apply (proj2 (MustLookup_spec portOptNoDefault (portState false ∅)) 0%Z).
    reflexivity.
Defined.

(** ** The parse hooks and the driver *)

Lemma emit_keeps_pkgSet e : keeps pkgSet (emit e).
Proof. intros s. reflexivity. Qed.
Lemma emit_keeps_heap e : keeps heap (emit e).
Proof. intros s. reflexivity. Qed.
Lemma emit_keeps_CommandLine e : keeps CommandLine (emit e).
Proof. intros s. reflexivity. Qed.

#[export] Hint Resolve emit_keeps_pkgSet emit_keeps_heap emit_keeps_CommandLine : keeps.

Lemma registerFlag_keeps_trace {T} p (bd : Builder T) : keeps trace (registerFlag p bd).
Proof.
  unfold registerFlag, cobra.MarkFlagDirname, cobra.MarkFlagFilename,
    cobra.MarkFlagRequired.
  keeps_tac.
Qed.

Lemma registerFlag_keeps_pkgSet {T} p (bd : Builder T) : keeps pkgSet (registerFlag p bd).
Proof.
  unfold registerFlag, cobra.MarkFlagDirname, cobra.MarkFlagFilename,
    cobra.MarkFlagRequired.
  keeps_tac.
Qed.

#[export] Hint Resolve @registerFlag_keeps_trace @registerFlag_keeps_pkgSet : keeps.

Lemma beforeParse_keeps_trace {T} (b bd : Builder T) : keeps trace (beforeParse b bd).
Proof. induction b; simpl; keeps_tac; auto. Qed.

Lemma beforeParse_keeps_pkgSet {T} (b bd : Builder T) : keeps pkgSet (beforeParse b bd).
Proof. induction b; simpl; keeps_tac; auto. Qed.

(** [afterParse] does nothing at all. *)
Lemma afterParse_noop {T} (b bd : Builder T) s : afterParse b bd s = (Ok tt, s).
Proof. induction b; simpl; auto. Qed.

Lemma forRange_keeps {X A} (f : State -> X) (body : nat -> A -> M unit) l :
  (forall i o, keeps f (body i o)) -> forall i, keeps f (forRange body i l).
Proof.
  intros Hb. induction l as [| o l IH]; intros i; simpl; keeps_tac; auto.
Qed.

(** A loop whose body logs [E o] for its element [o] and then runs a
    hook that does not log: it logs [E] of the elements it reaches, in
    the order of the list, and reaches all of them if it completes. *)
Lemma forRange_trace {A} (E : A -> Event) (h : A -> M unit) :
  (forall o, keeps trace (h o)) ->
  forall l i s r s',
    forRange (fun _ o => emit (E o) ;;; h o) i l s = (r, s') ->
    exists k, (k <= length l)%nat /\
      trace s' = trace s ++ map E (take k l) /\
      (isOk r = true -> k = length l).
Proof.
  intros Hh. induction l as [| o l IH]; intros i s r s' Hrun; simpl in Hrun.
  - inversion Hrun; subst. exists 0%nat. simpl. rewrite app_nil_r. auto.
  - unfold bind at 1 2 in Hrun. unfold emit, modify in Hrun.
    set (s1 := set_trace (trace s ++ [E o]) s) in Hrun.
    pose proof (Hh o s1) as Ht.
    destruct (h o s1) as [[[] | v | c] s2]; simpl in Ht.
    + destruct (IH (S i) s2 r s' Hrun) as (k & Hk & Htr & Hok).
      exists (S k). split; [simpl; lia |]. split.
      * rewrite Htr, Ht. subst s1. simpl. now rewrite <- app_assoc.
      * intros Hc. simpl. now rewrite (Hok Hc).
    + inversion Hrun; subst r s'. exists 1%nat. simpl.
      split; [lia |]. split; [now rewrite Ht | discriminate].
    + inversion Hrun; subst r s'. exists 1%nat. simpl.
      split; [lia |]. split; [now rewrite Ht | discriminate].
Qed.

Lemma map_take_prefix {A} (E : A -> Event) k (l : list A) :
  map E (take k l) `prefix_of` map E l.
Proof.
  exists (map E (drop k l)). now rewrite <- map_app, take_drop.
Qed.

Lemma parseTrace_lookup_before set k o :
  parseTrace set !! k = Some (EvBeforeParse o) -> (k < length set)%nat.
Proof.
  unfold parseTrace. intros E.
  destruct (decide (k < length set)%nat) as [| Hge]; [assumption | exfalso].
  rewrite lookup_app_r in E by (rewrite length_map; lia).
  rewrite length_map in E.
  destruct (k - length set)%nat as [| j] eqn:Ej; simpl in E; [discriminate |].
  apply list_elem_of_lookup_2, list_elem_of_In, in_map_iff in E as (x & Hx & _).
  discriminate.
Qed.

Lemma parseTrace_lookup_parse set k :
  parseTrace set !! k = Some EvFlagParse -> k = length set.
Proof.
  unfold parseTrace. intros E.
  destruct (decide (k < length set)%nat) as [Hlt | Hge].
  - rewrite lookup_app_l in E by (rewrite length_map; lia).
    apply list_elem_of_lookup_2, list_elem_of_In, in_map_iff in E as (x & Hx & _).
    discriminate.
  - rewrite lookup_app_r in E by (rewrite length_map; lia).
    rewrite length_map in E.
    destruct (k - length set)%nat as [| j] eqn:Ej; [lia |]. simpl in E.
    apply list_elem_of_lookup_2, list_elem_of_In, in_map_iff in E as (x & Hx & _).
    discriminate.
Qed.

Lemma bind_Panic {A B} (m : M A) (k : A -> M B) s v s' :
  m s = (Panic v, s') -> bind m k s = (Panic v, s').
Proof. intros E. unfold bind. now rewrite E. Qed.

Lemma bind_Exit {A B} (m : M A) (k : A -> M B) s c s' :
  m s = (Exit c, s') -> bind m k s = (Exit c, s').
Proof. intros E. unfold bind. now rewrite E. Qed.

Lemma opt_beforeParse_keeps_trace (r : Registered) :
  keeps trace (opt_beforeParse (regOpt r)).
Proof. apply beforeParse_keeps_trace. Qed.

Lemma opt_afterParse_keeps_trace (r : Registered) :
  keeps trace (opt_afterParse (regOpt r)).
Proof. intros s. unfold opt_afterParse. now rewrite afterParse_noop. Qed.

Lemma beforeLoop_keeps_pkgSet l i :
  keeps pkgSet
    (forRange (fun _ o => emit (EvBeforeParse o) ;;; opt_beforeParse (regOpt o)) i l).
Proof.
  apply forRange_keeps. intros j o. keeps_tac. apply beforeParse_keeps_pkgSet.
Qed.

(** [Build] returns the option wrapping the chain and appends it to the
    end of [pkgSet]: the i-th registered option is the i-th one built. *)
Lemma Build_appends {T} (b : Builder T) s :
  Build b s = (Ok (mkOpt b), set_pkgSet (pkgSet s ++ [mkRegistered T (mkOpt b)]) s).
Proof. reflexivity. Qed.

(** Whatever the outcome, a run of [Parse] logs an initial segment of
    [parseTrace]; a run that completes logs all of it. *)
Lemma Parse_trace s :
  exists t,
    trace (snd (Parse s)) = trace s ++ t /\
    t `prefix_of` parseTrace (pkgSet s) /\
    (fst (Parse s) = Ok tt -> t = parseTrace (pkgSet s)).
Proof.
  unfold Parse, parseTrace. rewrite (bind_Ok (gets pkgSet) _ s (pkgSet s) s eq_refl).
  set (set := pkgSet s).
  destruct (forRange (fun _ o => emit (EvBeforeParse o) ;;; opt_beforeParse (regOpt o))
              0 set s) as [r1 s1] eqn:E1.
  destruct (forRange_trace EvBeforeParse _ opt_beforeParse_keeps_trace _ _ _ _ _ E1)
    as (k1 & Hk1 & Ht1 & Hok1).
  pose proof (beforeLoop_keeps_pkgSet set 0 s) as Hp1.
  rewrite E1 in Hp1. simpl in Hp1. fold set in Hp1.
  destruct r1 as [[] | v | c].
  2: { rewrite (bind_Panic _ _ _ _ _ E1). exists (map EvBeforeParse (take k1 set)).
       simpl. split; [assumption |]. split; [| discriminate].
       apply prefix_app_r, map_take_prefix. }
  2: { rewrite (bind_Exit _ _ _ _ _ E1). exists (map EvBeforeParse (take k1 set)).
       simpl. split; [assumption |]. split; [| discriminate].
       apply prefix_app_r, map_take_prefix. }
  rewrite (Hok1 eq_refl), firstn_all in Ht1. clear k1 Hk1 Hok1.
  rewrite (bind_Ok _ _ _ _ _ E1).
  set (s2 := set_trace (trace s1 ++ [EvFlagParse]) s1).
  rewrite (bind_Ok (emit EvFlagParse) _ s1 tt s2 eq_refl).
  rewrite (bind_Ok (gets Args) _ s2 (Args s2) s2 eq_refl).
  destruct (onCommandLine (pflag.Parse (Args s2)) s2) as [r3 s3] eqn:E3.
  pose proof (onCommandLine_keeps_trace (pflag.Parse (Args s2)) s2) as Ht3.
  pose proof (onCommandLine_keeps_pkgSet (pflag.Parse (Args s2)) s2) as Hp3.
  rewrite E3 in Ht3, Hp3. simpl in Ht3, Hp3.
  assert (Ht3' : trace s3 = trace s ++ map EvBeforeParse set ++ [EvFlagParse]).
  { rewrite Ht3, Ht1. now rewrite <- app_assoc. }
  destruct r3 as [[] | v | c].
  2: { rewrite (bind_Panic _ _ _ _ _ E3).
       exists (map EvBeforeParse set ++ [EvFlagParse]).
       simpl. split; [assumption |]. split; [| discriminate].
       apply prefix_app. eexists. reflexivity. }
  2: { rewrite (bind_Exit _ _ _ _ _ E3).
       exists (map EvBeforeParse set ++ [EvFlagParse]).
       simpl. split; [assumption |]. split; [| discriminate].
       apply prefix_app. eexists. reflexivity. }
  rewrite (bind_Ok _ _ _ _ _ E3).
  rewrite (bind_Ok (gets pkgSet) _ s3 (pkgSet s3) s3 eq_refl).
  assert (Hp : pkgSet s3 = set) by (rewrite Hp3; exact Hp1).
  rewrite Hp.
  destruct (forRange (fun _ o => emit (EvAfterParse o) ;;; opt_afterParse (regOpt o))
              0 set s3) as [r4 s4] eqn:E4.
  destruct (forRange_trace EvAfterParse _ opt_afterParse_keeps_trace _ _ _ _ _ E4)
    as (k2 & Hk2 & Ht4 & Hok4).
  exists (map EvBeforeParse set ++ [EvFlagParse] ++ map EvAfterParse (take k2 set)).
  simpl. split; [| split].
  - rewrite Ht4, Ht3'. now rewrite <- !app_assoc.
  - apply prefix_app. simpl. apply prefix_cons. apply map_take_prefix.
  - intros ->. now rewrite (Hok4 eq_refl), firstn_all.
Qed.

(** ** Construction never fails *)

Lemma callFlagOptFunc_eval f p c s :
  heap s !! p = Some c ->
  callFlagOptFunc f p s = (Ok p, set_heap (<[p := flagOptCell f c]> (heap s)) s).
Proof.
  intros Hc. unfold callFlagOptFunc, bind, deref, store. rewrite Hc. simpl.
  rewrite Hc. destruct f; reflexivity.
Qed.

Lemma applyOpts_eval optFuncs : forall p c s,
  heap s !! p = Some c ->
  applyOpts p optFuncs s
    = (Ok p, set_heap (<[p := applyOptsCell optFuncs c]> (heap s)) s).
Proof.
  induction optFuncs as [| f fs IH]; intros p c s Hc; simpl.
  - rewrite list_insert_id by assumption. now destruct s.
  - rewrite (bind_Ok _ _ _ _ _ (callFlagOptFunc_eval f p c s Hc)).
    rewrite (IH p (flagOptCell f c)).
    + simpl. now rewrite list_insert_insert_eq.
    + simpl. apply list_lookup_insert_eq. now apply lookup_lt_Some in Hc.
Qed.

(** [newFlagBuilder] allocates one struct, at the next free address, and
    returns the link that points to it. *)
Lemma newFlagBuilder_eval {T} (b : Builder T) n sh optFuncs s :
  newFlagBuilder b n sh optFuncs s
    = (Ok (bFlag (length (heap s)) b),
       set_heap (heap s ++ [applyOptsCell optFuncs (mkFlagCell n sh false false false)]) s).
Proof.
  unfold newFlagBuilder, alloc.
  set (c := mkFlagCell n sh false false false).
  set (s1 := set_heap (heap s ++ [c]) s).
  assert (Hc : heap s1 !! length (heap s) = Some c).
  { subst s1. simpl. now apply list_lookup_middle. }
  rewrite (bind_Ok _ _ s (length (heap s)) s1 eq_refl).
  rewrite (bind_Ok _ _ _ _ _ (applyOpts_eval optFuncs _ c s1 Hc)).
  unfold ret, set_heap. subst s1. simpl. f_equal. f_equal.
  replace (length (heap s)) with (length (heap s) + 0)%nat at 1 by lia.
  now rewrite insert_app_r.
Qed.

Lemma applyOptsCell_names optFuncs : forall c,
  flagName (applyOptsCell optFuncs c) = flagName c /\
  flagShorthand (applyOptsCell optFuncs c) = flagShorthand c.
Proof.
  induction optFuncs as [| f fs IH]; intros c; simpl; [auto |].
  destruct (IH (flagOptCell f c)) as [-> ->]. now destruct f.
Qed.

(** C4 as stated fails: with the empty name, [Env], [Flag] and [FlagP]
    return a link and panic nowhere. *)
Lemma empty_name_construction_counterexample :
  Env "" (bRoot "k" stringConv) initState
    = (Ok (bEnv (bRoot "k" stringConv) ""), initState) /\
  fst (Flag "" [] (bRoot "k" stringConv) initState)
    = Ok (bFlag 0 (bRoot "k" stringConv)) /\
  fst (FlagP "" "x" [] (bRoot "k" stringConv) initState)
    = Ok (bFlag 0 (bRoot "k" stringConv)) /\
  isPanic (fst (Env "" (bRoot "k" stringConv) initState)) = false /\
  isPanic (fst (Flag "" [] (bRoot "k" stringConv) initState)) = false /\
  isPanic (fst (FlagP "" "x" [] (bRoot "k" stringConv) initState)) = false.
Proof. repeat split; reflexivity. Qed.

Lemma getFlag_new_link {T} (b : Builder T) (h : list bFlagCell) c s :
  heap s = h ++ [c] ->
  getFlag (bFlag (length h) b) s = (Ok (flagName c, flagShorthand c, true), s).
Proof.
  intros Hh. simpl. unfold bind, deref. rewrite Hh.
  now rewrite list_lookup_middle.
Qed.

(** C4, amended. Constructing a flag or an environment binding does not
    fail at chain-construction time, whatever the name, the empty name
    included: [Env], [Flag] and [FlagP] return a new link on top of the
    receiver, and the link answers the name it was given, as given. *)
Theorem construction_accepts_any_name {T} (b : Builder T) (s : State)
    (name sh : string) (optFuncs : list FlagOptFunc) :
  (Env name b s = (Ok (bEnv b name), s) /\ getEnv (bEnv b name) = (name, true)) /\
  (exists s', Flag name optFuncs b s = (Ok (bFlag (length (heap s)) b), s') /\
              fst (getFlag (bFlag (length (heap s)) b) s') = Ok (name, "", true)) /\
  (exists s', FlagP name sh optFuncs b s = (Ok (bFlag (length (heap s)) b), s') /\
              fst (getFlag (bFlag (length (heap s)) b) s') = Ok (name, sh, true)).
Proof.
  split; [split; reflexivity |].
  split; eexists; (split; [apply newFlagBuilder_eval |]);
    erewrite getFlag_new_link by reflexivity; simpl;
    destruct (applyOptsCell_names optFuncs (mkFlagCell name "" false false false))
      as [E1 E2];
    destruct (applyOptsCell_names optFuncs (mkFlagCell name sh false false false))
      as [E3 E4];
    simpl in *; congruence.
Qed.

(** ** Configuration calls leave existing chains alone *)

Lemma getFlag_heap_app {T} (b : Builder T) s s' cells :
  allocated (heap s) b -> heap s' = heap s ++ cells ->
  fst (getFlag b s') = fst (getFlag b s).
Proof.
  intros Ha Hh. induction b; simpl in *; auto.
  destruct Ha as [Hp _]. unfold bind, deref.
  rewrite Hh, lookup_app_l by assumption.
  destruct (heap s !! p); reflexivity.
Qed.

Lemma facets_heap_app {T} (b : Builder T) s s' cells :
  allocated (heap s) b -> heap s' = heap s ++ cells -> facets b s' = facets b s.
Proof.
  intros Ha Hh. unfold facets. now rewrite (getFlag_heap_app b s s' cells).
Qed.

(** What one configuration call does: it returns a new link on top of
    the receiver, built (allocated) if the receiver is, that answers the
    facet the call sets and, for every other facet, what the receiver
    answers; the heap only grows. *)
Lemma configure_spec {T} (c : ConfigCall) (b : Builder T) (s : State) :
  allocated (heap s) b ->
  exists b' s' cells,
    configure c b s = (Ok b', s') /\
    upOf b' = Some b /\
    heap s' = heap s ++ cells /\
    allocated (heap s') b' /\
    facets b' s' = facetsAfter c (facets b s).
Proof.
  intros Ha.
  assert (Hfl : forall n sh fs,
    exists b' s' cells,
      newFlagBuilder b n sh fs s = (Ok b', s') /\
      upOf b' = Some b /\
      heap s' = heap s ++ cells /\
      allocated (heap s') b' /\
      facets b' s' = (getKey b, Ok (n, sh, true), getEnv b, getDefault b,
                      getUsage b, getConvFunc b)).
  { intros n sh fs. eexists _, _, _. split; [apply newFlagBuilder_eval |].
    split; [reflexivity |]. split; [reflexivity |]. split.
    - simpl. rewrite length_app. simpl. split; [lia |].
      apply (allocated_mono b (heap s)); [rewrite length_app; lia | assumption].
    - unfold facets. erewrite getFlag_new_link by reflexivity. simpl.
      destruct (applyOptsCell_names fs (mkFlagCell n sh false false false))
        as [-> ->]. reflexivity. }
  destruct c as [n fs | n sh fs | n | v | u]; simpl.
  - exact (Hfl n "" fs).
  - exact (Hfl n sh fs).
  - exists (bEnv b n), s, []. rewrite app_nil_r. repeat split; assumption.
  - exists (bDefault b v), s, []. rewrite app_nil_r. repeat split; assumption.
  - exists (bUsage b u), s, []. rewrite app_nil_r. repeat split; assumption.
Qed.



(** ** Flag links with an empty name *)

Lemma store_same p c s : heap s !! p = Some c -> store p c s = (Ok tt, s).
Proof.
  intros Hc. unfold store. rewrite Hc, list_insert_id by assumption. now destruct s.
Qed.

(** With an empty name and an empty key, the flag link does nothing. *)
Lemma registerFlag_skip {T} p (bd : Builder T) c s :
  heap s !! p = Some c -> flagName c = "" -> getKey bd = "" ->
  registerFlag p bd s = (Ok tt, s).
Proof.
  intros Hc Hn Hk. unfold registerFlag.
  assert (Hd : deref p s = (Ok c, s)) by (unfold deref; now rewrite Hc).
  rewrite (bind_Ok _ _ _ _ _ Hd). rewrite Hn, Hk. simpl.
  assert (Hs : store p (mkFlagCell "" (flagShorthand c) (isDir c) (isFile c)
                          (isRequired c)) s = (Ok tt, s)).
  { apply store_same. rewrite Hc. f_equal. destruct c; simpl in *. now subst. }
  rewrite (bind_Ok _ _ _ _ _ Hs). rewrite (bind_Ok _ _ _ _ _ Hd).
  now rewrite Hn.
Qed.

(** With an empty key no hook writes to a struct: the only store writes
    the empty key over an empty name. *)
Lemma registerFlag_heap_empty_key {T} p (bd : Builder T) s :
  getKey bd = "" -> heap (snd (registerFlag p bd s)) = heap s.
Proof.
  intros Hk. destruct (heap s !! p) as [c |] eqn:Hc.
  - destruct (String.eqb_spec (flagName c) "") as [Hn | Hn].
    + now rewrite (registerFlag_skip p bd c s Hc Hn Hk).
    + unfold registerFlag.
      assert (Hd : deref p s = (Ok c, s)) by (unfold deref; now rewrite Hc).
      rewrite (bind_Ok _ _ _ _ _ Hd).
      apply String.eqb_neq in Hn. rewrite Hn.
      rewrite (bind_Ok _ _ s tt s eq_refl). rewrite (bind_Ok _ _ _ _ _ Hd). rewrite Hn.
      destruct (getDefault bd) as [def ?], (getUsage bd) as [usage ?].
      assert (Hkeep : keeps heap
        (onCommandLine (pflag.StringP (flagName c) (flagShorthand c) def usage) ;;;
         (if isDir c then cobra.MarkFlagDirname (flagName c) else ret tt) ;;;
         (if isFile c then cobra.MarkFlagFilename (flagName c) else ret tt) ;;;
         (if isRequired c then cobra.MarkFlagRequired (flagName c) else ret tt))).
      { unfold cobra.MarkFlagDirname, cobra.MarkFlagFilename, cobra.MarkFlagRequired.
        keeps_tac. }
      apply Hkeep.
  - unfold registerFlag, bind, deref. now rewrite Hc.
Qed.

Lemma beforeParse_heap_empty_key {T} (b bd : Builder T) :
  getKey bd = "" -> forall s, heap (snd (beforeParse b bd s)) = heap s.
Proof.
  intros Hk. induction b; intros s; simpl; auto.
  unfold bind. specialize (IHb s).
  destruct (beforeParse b bd s) as [[[] | v | c] s1]; simpl in IHb; auto.
  now rewrite registerFlag_heap_empty_key.
Qed.

(** A chain without flag facet has no flag link: its hook does nothing. *)
Lemma beforeParse_no_flag {T} (b bd : Builder T) s n sh :
  fst (getFlag b s) = Ok (n, sh, false) -> beforeParse b bd s = (Ok tt, s).
Proof.
  induction b; simpl; auto.
  unfold bind, deref. destruct (heap s !! p); simpl; discriminate.
Qed.

(** The flag link that answers [getFlag], if its name and the key are
    empty, contributes nothing to the hook. *)
Lemma beforeParse_dropFlag {T} (b bd : Builder T) s sh :
  fst (getFlag b s) = Ok ("", sh, true) -> getKey bd = "" ->
  beforeParse b bd s = beforeParse (dropFlag b) bd s.
Proof.
  intros Hf Hk. induction b; simpl in *; auto.
  unfold bind, deref in Hf. destruct (heap s !! p) as [c |] eqn:Hc; [| discriminate].
  simpl in Hf. inversion Hf as [[Hn Hs]].
  pose proof (beforeParse_heap_empty_key b bd Hk s) as Hh.
  unfold bind. destruct (beforeParse b bd s) as [[[] | v | e] s1]; simpl in Hh; auto.
  apply (registerFlag_skip p bd c); [now rewrite Hh | assumption | assumption].
Qed.

(** No flag is ever registered under the empty name. *)
Lemma pflag_Lookup_app n fs f :
  pflag.Lookup n (fs ++ [f]) =
    match pflag.Lookup n fs with
    | Some x => Some x
    | None => if String.eqb (pflag.Name f) n then Some f else None
    end.
Proof.
  unfold pflag.Lookup. induction fs as [| g fs IH]; simpl; [reflexivity |].
  now destruct (String.eqb (pflag.Name g) n).
Qed.

Lemma pflag_Lookup_map_None n (g : pflag.Flag -> pflag.Flag) fs :
  (forall f, pflag.Name (g f) = pflag.Name f) ->
  pflag.Lookup n fs = None -> pflag.Lookup n (map g fs) = None.
Proof.
  intros Hg. unfold pflag.Lookup. induction fs as [| f fs IH]; simpl; [reflexivity |].
  rewrite Hg. destruct (String.eqb (pflag.Name f) n); [discriminate | exact IH].
Qed.

Lemma SetAnnotation_Lookup_None n m a fs :
  pflag.Lookup n fs = None -> pflag.Lookup n (pflag.SetAnnotation m a fs) = None.
Proof.
  apply pflag_Lookup_map_None. intros f.
  destruct (String.eqb (pflag.Name f) m); [| reflexivity].
  unfold pflag.annotate. now destruct (existsb _ _).
Qed.

Lemma Set_Lookup_None n m v fs :
  pflag.Lookup n fs = None -> pflag.Lookup n (pflag.Set_ m v fs) = None.
Proof.
  apply pflag_Lookup_map_None. intros f.
  now destruct (String.eqb (pflag.Name f) m).
Qed.

Lemma StringP_Lookup_None n name sh v u fs :
  name <> n -> pflag.Lookup n fs = None ->
  pflag.Lookup n (snd (pflag.StringP name sh v u fs)) = None.
Proof.
  intros Hne Hn. unfold pflag.StringP.
  assert (Happ : pflag.Lookup n
                   (fs ++ [pflag.mkFlag name sh u v v false []]) = None).
  { rewrite pflag_Lookup_app, Hn. simpl. apply String.eqb_neq in Hne. now rewrite Hne. }
  destruct (pflag.Lookup name fs); [assumption |].
  destruct (String.eqb sh ""); [assumption |].
  destruct (1 <? String.length sh)%nat; [assumption |].
  destruct (pflag.shorthandUsed sh fs); assumption.
Qed.

Lemma Parse_Lookup_None n args : forall fs,
  pflag.Lookup n fs = None -> pflag.Lookup n (snd (pflag.Parse args fs)) = None.
Proof.
  induction args as [| a args IH]; intros fs Hn; simpl; [assumption |].
  destruct (pflag.Lookup (pflag.argName a) fs); [| assumption].
  now apply IH, Set_Lookup_None.
Qed.

Lemma preserves_bind {A B} P (m : M A) (k : A -> M B) :
  preserves P m -> (forall a, preserves P (k a)) -> preserves P (bind m k).
Proof.
  intros Hm Hk s HP. unfold bind. specialize (Hm s HP).
  destruct (m s) as [[a | v | c] s']; simpl in *; [| assumption ..].
  now apply Hk.
Qed.

Lemma keeps_CommandLine_preserves {A} (m : M A) :
  keeps CommandLine m -> preserves noUnnamedFlag m.
Proof. intros Hm s HP. unfold noUnnamedFlag. now rewrite Hm. Qed.

Lemma mark_preserves (c : bool) name a :
  preserves noUnnamedFlag
    (if c then onCommandLine (fun fs => (Ok tt, pflag.SetAnnotation name a fs))
     else ret tt).
Proof.
  destruct c; intros s HP; [| exact HP].
  unfold noUnnamedFlag, onCommandLine. simpl. now apply SetAnnotation_Lookup_None.
Qed.

Lemma registerFlag_preserves {T} p (bd : Builder T) :
  preserves noUnnamedFlag (registerFlag p bd).
Proof.
  unfold registerFlag.
  apply preserves_bind; [apply keeps_CommandLine_preserves; auto with keeps |].
  intros c. apply preserves_bind.
  { apply keeps_CommandLine_preserves. keeps_tac. }
  intros _. apply preserves_bind; [apply keeps_CommandLine_preserves; auto with keeps |].
  intros c'. destruct (String.eqb_spec (flagName c') "") as [| Hne].
  { intros s HP. exact HP. }
  destruct (getDefault bd) as [def ?], (getUsage bd) as [usage ?].
  apply preserves_bind.
  { intros s HP. unfold noUnnamedFlag, onCommandLine in *.
    pose proof (StringP_Lookup_None "" (flagName c') (flagShorthand c') def usage
                  (CommandLine s) Hne HP) as Hs.
    destruct (pflag.StringP _ _ _ _ _); exact Hs. }
  intros _. apply preserves_bind; [apply mark_preserves |].
  intros _. apply preserves_bind; [apply mark_preserves |].
  intros _. apply mark_preserves.
Qed.

Lemma beforeParse_preserves {T} (b bd : Builder T) :
  preserves noUnnamedFlag (beforeParse b bd).
Proof.
  induction b; simpl; auto.
  - intros s HP. exact HP.
  - apply preserves_bind; [assumption |]. intros _. apply registerFlag_preserves.
Qed.

Lemma pflag_Parse_preserves args :
  preserves noUnnamedFlag (onCommandLine (pflag.Parse args)).
Proof.
  intros s HP. unfold noUnnamedFlag, onCommandLine in *.
  pose proof (Parse_Lookup_None "" args (CommandLine s) HP) as Hs.
  destruct (pflag.Parse args (CommandLine s)); exact Hs.
Qed.

Lemma getFlag_heap_eq {T} (b : Builder T) s s' :
  heap s' = heap s -> fst (getFlag b s') = fst (getFlag b s).
Proof.
  intros Hh. induction b; simpl; auto.
  unfold bind, deref. rewrite Hh. destruct (heap s !! p); reflexivity.
Qed.

Lemma effectiveFlagName_empty {T} (o : opt T) s :
  effectiveFlagName o s = Some "" ->
  getKey (builder o) = "" /\ exists sh, fst (getFlag (builder o) s) = Ok ("", sh, true).
Proof.
  unfold effectiveFlagName.
  destruct (fst (getFlag (builder o) s)) as [[[n sh] [|]] | |]; try discriminate.
  destruct (String.eqb_spec n "") as [-> | Hne]; intros [= E].
  - split; [assumption | now exists sh].
  - contradiction.
Qed.

(** The chain's flag source stays silent while its flag name is empty and
    no flag is registered under the empty name. *)
Lemma unnamed_flag_silent {T} (o : opt T) s sh :
  fst (getFlag (builder o) s) = Ok ("", sh, true) -> noUnnamedFlag s ->
  ~ flagSupplied o s.
Proof.
  intros Hf Hn (str & n & sh' & f & E & Ef & _).
  rewrite Hf in E. inversion E; subst. unfold noUnnamedFlag in Hn. congruence.
Qed.

(** C5 as stated fails: the effective flag name of the chain is empty,
    yet the before-parse hook of the option registers the flag [a] of
    the link it shadows. *)
Lemma shadowed_flag_registered_counterexample :
  fst (declareShadow initState) = Ok shadowOpt /\
  effectiveFlagName shadowOpt shadowState = Some "" /\
  CommandLine shadowState = [] /\
  fst (opt_beforeParse shadowOpt shadowState) = Ok tt /\
  map pflag.Name (CommandLine (snd (opt_beforeParse shadowOpt shadowState))) = ["a"].
Proof. repeat split; reflexivity. Qed.

(** C5, amended. During the before-parse phase, the flag link that gives
    an option its flag facet registers nothing when its effective flag
    name is empty (its flag name and the option's key are both empty):
    the hook does exactly what it does on the chain without that link,
    so nothing at all when the chain has no other flag link, while flag
    links it shadows register theirs.  If no flag is registered under the
    empty name, the flag source of the option supplies nothing after the
    hook, nor after any external parse step that follows: the option is
    resolved from environment and default only. *)
Theorem empty_effective_flag_name_skipped {T} (o : opt T) (s : State) :
  effectiveFlagName o s = Some "" ->
  opt_beforeParse o s = beforeParse (dropFlag (builder o)) (builder o) s /\
  (forall n sh, fst (getFlag (dropFlag (builder o)) s) = Ok (n, sh, false) ->
                opt_beforeParse o s = (Ok tt, s)) /\
  (noUnnamedFlag s ->
   ~ flagSupplied o (snd (opt_beforeParse o s)) /\
   forall args,
     ~ flagSupplied o (snd (onCommandLine (pflag.Parse args) (snd (opt_beforeParse o s))))).
Proof.
  intros He. destruct (effectiveFlagName_empty o s He) as (Hk & sh & Hf).
  assert (Hdrop : opt_beforeParse o s = beforeParse (dropFlag (builder o)) (builder o) s).
  { unfold opt_beforeParse. now apply (beforeParse_dropFlag _ _ _ sh). }
  split; [exact Hdrop |]. split.
  - intros n sh' Hn. rewrite Hdrop. now apply (beforeParse_no_flag _ _ _ n sh').
  - intros Hno.
    pose proof (beforeParse_heap_empty_key (builder o) (builder o) Hk s) as Hh.
    pose proof (beforeParse_preserves (builder o) (builder o) s Hno) as Hno'.
    fold (opt_beforeParse o) in Hh, Hno'.
    split.
    + apply (unnamed_flag_silent o _ sh); [| exact Hno'].
      now rewrite (getFlag_heap_eq _ s).
    + intros args. apply (unnamed_flag_silent o _ sh).
      * rewrite (getFlag_heap_eq _ s); [exact Hf |].
        now rewrite onCommandLine_keeps_heap.
      * now apply pflag_Parse_preserves.
Qed.

Lemma empty_effective_flag_name_skipped_witness :
  opt_beforeParse unnamedOpt unnamedState = (Ok tt, unnamedState) /\
  ~ flagSupplied unnamedOpt
      (snd (onCommandLine (pflag.Parse []) (snd (opt_beforeParse unnamedOpt unnamedState)))).
Proof.
  destruct (empty_effective_flag_name_skipped unnamedOpt unnamedState eq_refl)
    as (_ & Hnone & Hsilent).
  split.
  - apply (Hnone "" ""). reflexivity.
  - apply Hsilent. reflexivity.
Defined.

(** ** The converter *)

(** The converter of a chain is the one of its root. *)
Lemma getConvFunc_rootOf {T} (b : Builder T) : getConvFunc b = getConvFunc (rootOf b).
Proof. induction b; simpl; auto. Qed.

(** Configuration calls keep the root, hence the converter. *)
Lemma configure_rootOf {T} (c : ConfigCall) (b b' : Builder T) s s' :
  configure c b s = (Ok b', s') -> rootOf b' = rootOf b.
Proof.
  destruct c; simpl; unfold Flag, FlagP, Env, Default, Usage;
    try rewrite newFlagBuilder_eval; intros E; inversion E; reflexivity.
Qed.

Lemma Build_roots key s :
  BuildString key s = (Ok (bRoot key stringConv), s) /\
  BuildBool key s = (Ok (bRoot key boolConv), s) /\
  BuildInt key s = (Ok (bRoot key intConv), s).
Proof. repeat split. Qed.

(** C7. Conversion does not depend on the source.  For options of one
    type whose roots carry the same converter [conv], and any text [str]:
    whether [str] wins as the flag's string, as the environment
    variable's value or as the default text, [Lookup] returns [conv str],
    reported as found; the converter a chain applies is the one fixed at
    its root. *)
Theorem conversion_path_independent {T} `{OptType T}
    (conv : ConvFunc T) (oF oE oD : opt T) (sF sE sD : State) (str : string) :
  getConvFunc (rootOf (builder oF)) = conv ->
  getConvFunc (rootOf (builder oE)) = conv ->
  getConvFunc (rootOf (builder oD)) = conv ->
  allocated (heap sF) (builder oF) ->
  allocated (heap sE) (builder oE) ->
  allocated (heap sD) (builder oD) ->
  flagSupplies oF sF str ->
  ~ flagSupplied oE sE -> envSupplies oE sE str ->
  ~ flagSupplied oD sD -> ~ envSupplied oD sD -> defaultSupplies oD str ->
  fst (Lookup oF sF) = found (conv str) /\
  fst (Lookup oE sE) = found (conv str) /\
  fst (Lookup oD sD) = found (conv str).
Proof.
  intros CF CE CD AF AE AD HF HnE HE HnD HnD' HD.
  destruct (getFlag_allocated _ _ AF) as (nF & shF & okF & EF).
  destruct (getFlag_allocated _ _ AE) as (nE & shE & okE & EE).
  destruct (getFlag_allocated _ _ AD) as (nD & shD & okD & ED).
  rewrite (Lookup_eval oF sF nF shF okF EF), (Lookup_eval oE sE nE shE okE EE),
    (Lookup_eval oD sD nD shD okD ED).
  rewrite (winner_flag oF sF nF shF okF str EF HF).
  rewrite (winner_env oE sE nE okE str (flagText_silent oE sE nE shE okE EE HnE) HE).
  rewrite (winner_default oD sD nD okD str
             (flagText_silent oD sD nD shD okD ED HnD) HnD' HD).
  unfold converted. simpl.
  rewrite (getConvFunc_rootOf (builder oF)), (getConvFunc_rootOf (builder oE)),
    (getConvFunc_rootOf (builder oD)), CF, CE, CD.
  auto.
Qed.

Lemma conversion_path_independent_witness :
  fst (Lookup portOpt (portFlagState "80" ∅)) = Ok (80%Z, true) /\
  fst (Lookup portOpt (portState false {["PORT" := "80"]})) = Ok (80%Z, true) /\
  fst (Lookup portOpt (portState false ∅)) = Ok (80%Z, true).
Proof.
  refine (conversion_path_independent intConv portOpt portOpt portOpt
            (portFlagState "80" ∅) (portState false {["PORT" := "80"]})
            (portState false ∅) "80" eq_refl eq_refl eq_refl _ _ _ _ _ _ _ _ _).
  - simpl. lia.
  - simpl. lia.
  - simpl. lia.
  - exists "port", "", (pflag.mkFlag "port" "" "" "80" "80" true []). now vm_compute.
  - apply portState_flag_silent. now left.
  - exists "PORT". now vm_compute.
  - apply portState_flag_silent. now left.
  - now apply empty_env_silent.
  - reflexivity.
Defined.

(** ** The example of the specification *)

(** C8. The option [BuildInt("retries").Env("RETRIES").Default("3").Build()]
    has no flag facet; in any process whose environment does not have
    [RETRIES], [Lookup] returns [(3, true)], and in any process whose
    environment has [RETRIES=5], [Lookup] returns [(5, true)]. *)
Theorem retries_example (s : State) :
  fst (declareRetries s) = Ok retriesOpt /\
  fst (getFlag (builder retriesOpt) s) = Ok ("", "", false) /\
  (forall s', environ s' !! "RETRIES" = None ->
              Lookup retriesOpt s' = (Ok (3%Z, true), s')) /\
  (forall s', environ s' !! "RETRIES" = Some "5" ->
              Lookup retriesOpt s' = (Ok (5%Z, true), s')).
Proof.
  split; [reflexivity |]. split; [reflexivity |].
  split; intros s' He;
    rewrite (Lookup_eval retriesOpt s' "" "" false eq_refl);
    unfold winner, flagText, envText, defaultText; simpl getEnv; simpl getDefault;
    cbv beta iota; change ("RETRIES" =? "")%string with false; cbv beta iota;
    rewrite He; reflexivity.
Qed.

Lemma retries_example_witness :
  Lookup retriesOpt initState = (Ok (3%Z, true), initState) /\
  Lookup retriesOpt (set_environ {["RETRIES" := "5"]} initState)
    = (Ok (5%Z, true), set_environ {["RETRIES" := "5"]} initState).
Proof.
  split.
  - apply (proj1 (proj2 (proj2 (retries_example initState)))). reflexivity.
  - apply (proj2 (proj2 (proj2 (retries_example initState)))). reflexivity.
Defined.

(** ** A flag that is not registered *)

(** C9. If the chain defines a flag facet but the flag library has no
    flag under that name, as before [Parse], [Lookup] does not fail on
    the missing flag: the flag source supplies nothing and [Lookup]
    returns what the environment, and then the default, give; with
    neither, the zero value and [found = false]. *)
Theorem Lookup_unregistered_flag {T} `{OptType T} (o : opt T) (s : State)
    (n sh : string) :
  fst (getFlag (builder o) s) = Ok (n, sh, true) ->
  pflag.Lookup n (CommandLine s) = None ->
  ~ flagSupplied o s /\
  (forall str, envSupplies o s str -> Lookup o s = (converted o str, s)) /\
  (forall str, ~ envSupplied o s -> defaultSupplies o str ->
               Lookup o s = (converted o str, s)) /\
  (~ envSupplied o s -> ~ defaultSupplied o -> Lookup o s = (Ok (zero, false), s)).
Proof.
  intros Hf Hn.
  assert (E : getFlag (builder o) s = (Ok (n, sh, true), s)).
  { pose proof (getFlag_state (builder o) s) as Hs.
    destruct (getFlag (builder o) s) as [r s1]. simpl in *. now subst. }
  assert (Hsilent : flagText s n true = None) by (unfold flagText; now rewrite Hn).
  rewrite (Lookup_eval o s n sh true E).
  split; [| split; [| split]].
  - intros (str & n' & sh' & f & E' & Ef & _). rewrite Hf in E'.
    inversion E'; subst. congruence.
  - intros str Hs. now rewrite (winner_env o s n true str Hsilent Hs).
  - intros str He Hs. now rewrite (winner_default o s n true str Hsilent He Hs).
  - intros He Hd. now rewrite (winner_none o s n true Hsilent He Hd).
Qed.

Lemma Lookup_unregistered_flag_witness :
  CommandLine abcState = [] /\
  Lookup optC abcState = (Ok ("", false), abcState) /\
  Lookup optC (set_environ {["C" := "sea"]} abcState)
    = (Ok ("sea", true), set_environ {["C" := "sea"]} abcState).
Proof.
  split; [reflexivity |]. split.
  - refine (proj2 (proj2 (proj2 (Lookup_unregistered_flag optC abcState "cc" ""
              eq_refl eq_refl))) _ _).
    + intros (str & e & Hg & E). inversion Hg; subst e. vm_compute in E.
      discriminate E.
    + intros (str & E). discriminate E.
  - refine (proj1 (proj2 (Lookup_unregistered_flag optC
              (set_environ {["C" := "sea"]} abcState) "cc" "" eq_refl eq_refl)) "sea" _).
    exists "C". now vm_compute.
Defined.

(** ** String options *)

(** Chained configuration calls on a built chain succeed, and give a
    built chain with the same root. *)
Lemma configureAll_built {T} (cs : list ConfigCall) :
  forall (b : Builder T) (s : State),
    allocated (heap s) b ->
    exists b' s',
      configureAll cs b s = (Ok b', s') /\
      allocated (heap s') b' /\
      rootOf b' = rootOf b.
Proof.
  induction cs as [| c cs IH]; intros b s Ha; simpl.
  - exists b, s. repeat split; assumption.
  - destruct (configure_spec c b s Ha) as (b1 & s1 & cells & E1 & _ & _ & A1 & _).
    destruct (IH b1 s1 A1) as (b' & s' & E' & A' & R').
    exists b', s'. rewrite (bind_Ok _ _ _ _ _ E1).
    split; [exact E' |]. split; [exact A' |].
    rewrite R'. exact (configure_rootOf c b b1 s s1 E1).
Qed.

(** A declaration from a root always completes, with a built chain on
    that root. *)
Lemma declareOpt_built {T} (root : M (Builder T)) (b0 : Builder T)
    (cs : list ConfigCall) (s0 : State) :
  root s0 = (Ok b0, s0) -> rootOf b0 = b0 -> allocated (heap s0) b0 ->
  exists o s1,
    declareOpt root cs s0 = (Ok o, s1) /\
    rootOf (builder o) = b0 /\
    allocated (heap s1) (builder o).
Proof.
  intros Hroot Hb0 Ha0.
  destruct (configureAll_built cs b0 s0 Ha0) as (b & s' & E & A & R).
  exists (mkOpt b), (set_pkgSet (pkgSet s' ++ [mkRegistered T (mkOpt b)]) s').
  unfold declareOpt.
  rewrite (bind_Ok _ _ _ _ _ Hroot), (bind_Ok _ _ _ _ _ E), Build_appends.
  split; [reflexivity |]. split; [simpl; congruence | exact A].
Qed.

(** C10. For an option rooted at [BuildString] the converter is the
    identity, so [Lookup] signals no conversion failure.  Every
    declaration [BuildString(key).c1(...)...cn(...).Build()] completes
    and gives an option with a built chain whose root is the one
    [BuildString] returns.  For every option on such a root, on a built
    chain: the converter gives back its argument, [Lookup] always
    returns, and whenever a source supplies the winning text it returns
    that text unchanged with [found = true]. *)
Theorem BuildString_Lookup_total (key : string) :
  (forall (cs : list ConfigCall) (s0 : State),
      exists o s1,
        declareOpt (BuildString key) cs s0 = (Ok o, s1) /\
        BuildString key s0 = (Ok (rootOf (builder o)), s0) /\
        allocated (heap s1) (builder o)) /\
  (forall (o : opt string) (s s0 s0' : State),
      BuildString key s0 = (Ok (rootOf (builder o)), s0') ->
      allocated (heap s) (builder o) ->
      (forall in_, getConvFunc (builder o) in_ = Ok in_) /\
      (exists v ok, Lookup o s = (Ok (v, ok), s)) /\
      (forall str, flagSupplies o s str -> Lookup o s = (Ok (str, true), s)) /\
      (forall str, ~ flagSupplied o s -> envSupplies o s str ->
                   Lookup o s = (Ok (str, true), s)) /\
      (forall str, ~ flagSupplied o s -> ~ envSupplied o s -> defaultSupplies o str ->
                   Lookup o s = (Ok (str, true), s))).
Proof.
  split.
  - intros cs s0.
    destruct (declareOpt_built (BuildString key) (bRoot key stringConv) cs s0
                eq_refl eq_refl I) as (o & s1 & E & R & A).
    exists o, s1. split; [exact E |]. split; [| exact A].
    rewrite R. reflexivity.
  - intros o s s0 s0' Hbuilt Ha.
    assert (Hroot : rootOf (builder o) = bRoot key stringConv).
    { unfold BuildString, ret in Hbuilt. now inversion Hbuilt. }
    assert (Hconv : forall in_, getConvFunc (builder o) in_ = Ok in_).
    { intros in_. now rewrite getConvFunc_rootOf, Hroot. }
    assert (Hc : forall str, converted o str = Ok (str, true)).
    { intros str. unfold converted. now rewrite Hconv. }
    destruct (getFlag_allocated _ _ Ha) as (n & sh & ok & E).
    rewrite (Lookup_eval o s n sh ok E).
    split; [exact Hconv |]. split.
    + destruct (winner o s n ok) as [str |]; [rewrite Hc |]; eauto.
    + split; [| split].
      * intros str Hs. now rewrite (winner_flag o s n sh ok str E Hs), Hc.
      * intros str Hn Hs.
        now rewrite (winner_env o s n ok str (flagText_silent o s n sh ok E Hn) Hs), Hc.
      * intros str Hn He Hs.
        now rewrite (winner_default o s n ok str (flagText_silent o s n sh ok E Hn)
                       He Hs), Hc.
Qed.

Lemma BuildString_Lookup_total_witness :
  declareOpt (BuildString "c") [CallFlag "cc" []; CallEnv "C"]
      (set_environ {["C" := "not a number"]} initState)
    = (Ok (mkOpt (bEnv (bFlag 0 (bRoot "c" stringConv)) "C")),
       snd (declareOpt (BuildString "c") [CallFlag "cc" []; CallEnv "C"]
              (set_environ {["C" := "not a number"]} initState))) /\
  (let s := snd (declareOpt (BuildString "c") [CallFlag "cc" []; CallEnv "C"]
                   (set_environ {["C" := "not a number"]} initState)) in
   Lookup (mkOpt (bEnv (bFlag 0 (bRoot "c" stringConv)) "C")) s
     = (Ok ("not a number", true), s)) /\
  (exists v ok, Lookup optC abcState = (Ok (v, ok), abcState)).
Proof.
  split; [reflexivity |]. split.
  - cbv zeta.
    refine (proj1 (proj2 (proj2 (proj2 (proj2 (BuildString_Lookup_total "c")
              (mkOpt (bEnv (bFlag 0 (bRoot "c" stringConv)) "C")) _ initState initState
              eq_refl _)))) "not a number" _ _).
    + simpl. lia.
    + intros (str & n & sh & f & E & Ef & _). vm_compute in E. inversion E; subst.
      discriminate Ef.
    + exists "C". now vm_compute.
  - refine (proj1 (proj2 (proj2 (BuildString_Lookup_total "c") optC abcState
              initState initState eq_refl _))).
    simpl. lia.
Defined.

(** ** Built chains stay built *)

Lemma store_keeps_heap_length p c : keeps (fun s => length (heap s)) (store p c).
Proof.
  intros s. unfold store. destruct (heap s !! p); simpl; [| reflexivity].
  apply length_insert.
Qed.

Lemma onCommandLine_keeps_heap_length {A} (g : pflag.FlagSet -> res A * pflag.FlagSet) :
  keeps (fun s => length (heap s)) (onCommandLine g).
Proof. intros s. unfold onCommandLine. destruct (g (CommandLine s)); reflexivity. Qed.

Lemma emit_keeps_heap_length e : keeps (fun s => length (heap s)) (emit e).
Proof. intros s. reflexivity. Qed.

#[export] Hint Resolve store_keeps_heap_length @onCommandLine_keeps_heap_length
  emit_keeps_heap_length : keeps.

Lemma registerFlag_keeps_heap_length {T} p (bd : Builder T) :
  keeps (fun s => length (heap s)) (registerFlag p bd).
Proof.
  unfold registerFlag, cobra.MarkFlagDirname, cobra.MarkFlagFilename,
    cobra.MarkFlagRequired.
  keeps_tac.
Qed.

Lemma beforeParse_keeps_heap_length {T} (b bd : Builder T) :
  keeps (fun s => length (heap s)) (beforeParse b bd).
Proof.
  induction b; simpl; keeps_tac; auto. apply registerFlag_keeps_heap_length.
Qed.

Lemma afterParse_keeps {T X} (f : State -> X) (b bd : Builder T) :
  keeps f (afterParse b bd).
Proof. intros s. now rewrite afterParse_noop. Qed.

(** [Parse] frees no struct and allocates none. *)
Lemma Parse_keeps_heap_length : keeps (fun s => length (heap s)) Parse.
Proof.
  unfold Parse. keeps_tac.
  - apply forRange_keeps. intros i o. keeps_tac. apply beforeParse_keeps_heap_length.
  - apply forRange_keeps. intros i o. keeps_tac. apply afterParse_keeps.
Qed.

Lemma Parse_allocated {T} (b : Builder T) s :
  allocated (heap s) b -> allocated (heap (snd (Parse s))) b.
Proof.
  apply allocated_mono. pose proof (Parse_keeps_heap_length s) as Hl. simpl in Hl. lia.
Qed.

(** ** The model at work *)

Example Atoi_samples :
  strconv.Atoi "3" = Some 3%Z /\ strconv.Atoi "-17" = Some (-17)%Z /\
  strconv.Atoi "+5" = Some 5%Z /\ strconv.Atoi "" = None /\
  strconv.Atoi "-" = None /\ strconv.Atoi "1_000" = None /\
  strconv.Atoi "9223372036854775807" = Some 9223372036854775807%Z /\
  strconv.Atoi "9223372036854775808" = None /\
  strconv.Atoi "-9223372036854775808" = Some (-9223372036854775808)%Z.
Proof. repeat split; reflexivity. Qed.

Example ParseBool_samples :
  strconv.ParseBool "true" = Some true /\ strconv.ParseBool "F" = Some false /\
  strconv.ParseBool "yes" = None /\ strconv.ParseBool "tRUE" = None.
Proof. repeat split; reflexivity. Qed.

(** A malformed value of the winning source makes [Lookup] panic, even
    though a well-formed default exists. *)
Example retries_malformed :
  fst (Lookup retriesOpt (set_environ {["RETRIES" := "x5"]} initState))
    = Panic (ParseFailed "int" "x5").
Proof. reflexivity. Qed.

(** Registering one flag name twice panics in the flag library during
    the before-parse phase: [Parse] stops before the external parse step. *)
Example Parse_flag_redefined :
  fst (Parse (snd (declareTwice initState))) = Panic (FlagRedefined "same") /\
  trace (snd (Parse (snd (declareTwice initState))))
    = map EvBeforeParse (take 2 (pkgSet (snd (declareTwice initState)))).
Proof. split; reflexivity. Qed.

(** An empty flag name falls back on the key at [Parse]; afterwards the
    chain answers the key as its flag name. *)
Example empty_flag_name_takes_key :
  let s := snd ((let* b := BuildString "verbose" in let* b := Flag "" [] b in Build b)
                  (set_Args [pflag.mkArg "verbose" "yes"] initState)) in
  let o := mkOpt (bFlag 0 (bRoot "verbose" stringConv)) in
  fst (getFlag (builder o) s) = Ok ("", "", true) /\
  fst (getFlag (builder o) (snd (Parse s))) = Ok ("verbose", "", true) /\
  fst (Lookup o (snd (Parse s))) = Ok ("yes", true).
Proof. repeat split; reflexivity. Qed.

(** * Further properties of the builder chain *)

(** ** Lookups only read *)

Lemma MustLookup_keeps {T} `{OptType T} {X} (f : State -> X) (o : opt T) :
  keeps f (MustLookup o).
Proof. unfold MustLookup. keeps_tac. apply Lookup_keeps. Qed.

(** X1. [Lookup] and [MustLookup] write nothing: whatever they return or
    panic with, the structs, the registry, the flag set, the environment
    and the arguments are as before, so every call resolves afresh from
    the state it finds. *)
Theorem lookups_read_only {T} `{OptType T} (o : opt T) (s : State) :
  snd (Lookup o s) = s /\ snd (MustLookup o s) = s.
Proof.
  split.
  - exact (Lookup_keeps (fun s => s) o s).
  - exact (MustLookup_keeps (fun s => s) o s).
Qed.

(** ** The last call of a kind wins *)

Lemma facets_components {T} (b : Builder T) s k fl e d u cv :
  facets b s = (k, fl, e, d, u, cv) ->
  getKey b = k /\ fst (getFlag b s) = fl /\ getEnv b = e /\ getDefault b = d /\
  getUsage b = u /\ getConvFunc b = cv.
Proof. unfold facets. intros E. inversion E. repeat split. Qed.

(** X2. Chained configuration calls compose by shadowing.  After any
    sequence of calls on a built chain, each of the flag, environment,
    default and usage facets is the one set by the last call of its kind
    in the sequence, or the receiver's if there is no such call; the key
    and the converter are always the receiver's. *)
Theorem configureAll_last_wins {T} (cs : list ConfigCall) :
  forall (b : Builder T) (s : State),
    allocated (heap s) b ->
    exists b' s',
      configureAll cs b s = (Ok b', s') /\
      allocated (heap s') b' /\
      getKey b' = getKey b /\
      getConvFunc b' = getConvFunc b /\
      fst (getFlag b' s') = match lastCall flagOf cs with
                            | Some (n, sh) => Ok (n, sh, true)
                            | None => fst (getFlag b s)
                            end /\
      getEnv b' = match lastCall envOf cs with
                  | Some n => (n, true)
                  | None => getEnv b
                  end /\
      getDefault b' = match lastCall defaultOf cs with
                      | Some v => (v, true)
                      | None => getDefault b
                      end /\
      getUsage b' = match lastCall usageOf cs with
                    | Some u => (u, true)
                    | None => getUsage b
                    end.
Proof.
  induction cs as [| c cs IH]; intros b s Ha; simpl.
  - exists b, s. repeat split; assumption.
  - destruct (configure_spec c b s Ha) as (b1 & s1 & cells & E1 & _ & _ & A1 & F1).
    destruct (IH b1 s1 A1) as (b' & s' & E' & A' & K' & C' & FL' & EN' & DF' & US').
    exists b', s'. rewrite (bind_Ok _ _ _ _ _ E1).
    split; [exact E' |]. split; [exact A' |].
    assert (Hc : getKey b1 = getKey b /\ getConvFunc b1 = getConvFunc b /\
                 fst (getFlag b1 s1) = match flagOf c with
                                       | Some (n, sh) => Ok (n, sh, true)
                                       | None => fst (getFlag b s)
                                       end /\
                 getEnv b1 = match envOf c with
                             | Some n => (n, true) | None => getEnv b end /\
                 getDefault b1 = match defaultOf c with
                                 | Some v => (v, true) | None => getDefault b end /\
                 getUsage b1 = match usageOf c with
                               | Some u => (u, true) | None => getUsage b end).
    { unfold facets at 2 in F1.
      destruct c; simpl in F1;
        destruct (facets_components _ _ _ _ _ _ _ _ F1) as (? & ? & ? & ? & ? & ?);
        simpl; repeat split; assumption. }
    destruct Hc as (K1 & C1 & FL1 & EN1 & DF1 & US1).
    split; [congruence |]. split; [congruence |].
    split; [| split; [| split]].
    + rewrite FL'. destruct (lastCall flagOf cs) as [[n sh] |]; [reflexivity | exact FL1].
    + rewrite EN'. destruct (lastCall envOf cs); [reflexivity | exact EN1].
    + rewrite DF'. destruct (lastCall defaultOf cs); [reflexivity | exact DF1].
    + rewrite US'. destruct (lastCall usageOf cs); [reflexivity | exact US1].
Qed.

Lemma configureAll_last_wins_witness :
  exists b' s',
    configureAll [CallEnv "A"; CallDefault "1"; CallFlag "f" []; CallEnv "B";
                  CallFlagP "g" "g" [FlagIsRequired]; CallDefault "2"]
                 (bRoot "k" intConv) initState = (Ok b', s') /\
    getKey b' = "k" /\
    fst (getFlag b' s') = Ok ("g", "g", true) /\
    getEnv b' = ("B", true) /\ getDefault b' = ("2", true) /\ getUsage b' = ("", false).
Proof.
  destruct (configureAll_last_wins
              [CallEnv "A"; CallDefault "1"; CallFlag "f" []; CallEnv "B";
               CallFlagP "g" "g" [FlagIsRequired]; CallDefault "2"]
              (bRoot "k" intConv) initState I)
    as (b' & s' & E & _ & K & _ & FL & EN & DF & US).
  exists b', s'. repeat split; assumption.
Defined.

(** ** Flag option functions *)

Lemma flagOptCell_fields f c :
  flagName (flagOptCell f c) = flagName c /\
  flagShorthand (flagOptCell f c) = flagShorthand c /\
  isDir (flagOptCell f c) = isDir c || FlagOptFunc_eqb FlagIsDirName f /\
  isFile (flagOptCell f c) = isFile c || FlagOptFunc_eqb FlagIsFileName f /\
  isRequired (flagOptCell f c) = isRequired c || FlagOptFunc_eqb FlagIsRequired f.
Proof. destruct f; simpl; rewrite ?orb_false_r, ?orb_true_r; repeat split. Qed.

Lemma applyOptsCell_fields fs : forall c,
  applyOptsCell fs c =
    mkFlagCell (flagName c) (flagShorthand c)
               (isDir c || hasOpt FlagIsDirName fs)
               (isFile c || hasOpt FlagIsFileName fs)
               (isRequired c || hasOpt FlagIsRequired fs).
Proof.
  unfold hasOpt. induction fs as [| f fs IH]; intros c; simpl.
  - rewrite !orb_false_r. now destruct c.
  - change (fold_left (fun c f => flagOptCell f c) fs (flagOptCell f c))
      with (applyOptsCell fs (flagOptCell f c)).
    rewrite IH. destruct (flagOptCell_fields f c) as (-> & -> & -> & -> & ->).
    now rewrite <- !orb_assoc.
Qed.

(** X3. The flag option functions only raise marks, so applying them is
    idempotent and independent of their order: the struct that [Flag] or
    [FlagP] allocates carries the name and shorthand it was given and is
    marked directory, file or required exactly when the matching option
    function occurs among its arguments. *)
Theorem newFlagBuilder_marks {T} (b : Builder T) (n sh : string)
    (fs : list FlagOptFunc) (s : State) :
  newFlagBuilder b n sh fs s
    = (Ok (bFlag (length (heap s)) b),
       set_heap (heap s ++ [mkFlagCell n sh (hasOpt FlagIsDirName fs)
                                       (hasOpt FlagIsFileName fs)
                                       (hasOpt FlagIsRequired fs)]) s).
Proof.
  rewrite newFlagBuilder_eval. now rewrite applyOptsCell_fields.
Qed.

(** ** What a flag link registers *)

Lemma Lookup_None_names n fs :
  pflag.Lookup n fs = None ->
  Forall (fun f => String.eqb (pflag.Name f) n = false) fs.
Proof.
  unfold pflag.Lookup. induction fs as [| f fs IH]; simpl; intros E; constructor.
  - destruct (String.eqb (pflag.Name f) n); [discriminate | reflexivity].
  - apply IH. destruct (String.eqb (pflag.Name f) n); [discriminate | exact E].
Qed.

Lemma SetAnnotation_last n a fs f :
  pflag.Lookup n fs = None -> pflag.Name f = n ->
  pflag.SetAnnotation n a (fs ++ [f]) = fs ++ [pflag.annotate a f].
Proof.
  intros Hn Hf. unfold pflag.SetAnnotation. rewrite map_app. simpl.
  rewrite Hf, String.eqb_refl. f_equal.
  apply Lookup_None_names in Hn. induction Hn as [| g fs Hg _ IH]; simpl;
    [reflexivity |].
  now rewrite Hg, IH.
Qed.

Lemma StringP_ok n sh v u fs :
  pflag.Lookup n fs = None -> shorthandFree sh fs = true ->
  pflag.StringP n sh v u fs = (Ok tt, fs ++ [pflag.mkFlag n sh u v v false []]).
Proof.
  intros Hn Hs. unfold pflag.StringP. rewrite Hn.
  unfold shorthandFree in Hs.
  destruct (String.eqb sh ""); [reflexivity |]. simpl in Hs.
  apply andb_true_iff in Hs as [Hl Hu]. apply Nat.eqb_eq in Hl.
  rewrite Hl. simpl. apply negb_true_iff in Hu. now rewrite Hu.
Qed.

(** The registration proper: [pflag.StringP] followed by the marks. *)
Lemma register_block n sh def usage (d f r : bool) s :
  pflag.Lookup n (CommandLine s) = None ->
  shorthandFree sh (CommandLine s) = true ->
  (onCommandLine (pflag.StringP n sh def usage) ;;;
   (if d then cobra.MarkFlagDirname n else ret tt) ;;;
   (if f then cobra.MarkFlagFilename n else ret tt) ;;;
   (if r then cobra.MarkFlagRequired n else ret tt)) s
  = (Ok tt,
     set_CommandLine
       (CommandLine s ++
        [pflag.mkFlag n sh usage def def false
           (cellAnnotations (mkFlagCell n sh d f r))]) s).
Proof.
  intros Hn Hs.
  assert (E : onCommandLine (pflag.StringP n sh def usage) s
              = (Ok tt, set_CommandLine
                          (CommandLine s ++ [pflag.mkFlag n sh usage def def false []]) s)).
  { unfold onCommandLine. now rewrite (StringP_ok n sh def usage _ Hn Hs). }
  rewrite (bind_Ok _ _ _ _ _ E).
  unfold cobra.MarkFlagDirname, cobra.MarkFlagFilename, cobra.MarkFlagRequired,
    bind, onCommandLine, ret, cellAnnotations.
  destruct d, f, r; simpl;
    repeat (rewrite (SetAnnotation_last n _ (CommandLine s)) by (assumption || reflexivity);
            simpl);
    reflexivity.
Qed.

Lemma set_heap_same s : set_heap (heap s) s = s.
Proof. now destruct s. Qed.

Lemma namedCell_named {T} c (bd : Builder T) :
  flagName c <> "" -> namedCell c bd = c.
Proof.
  intros Hn. unfold namedCell, linkName. apply String.eqb_neq in Hn. rewrite Hn.
  now destruct c.
Qed.

(** The hook of a flag link whose name is free: the struct takes its
    effective name and the flag is appended to the flag set. *)
Lemma registerFlag_ok {T} p (bd : Builder T) c s :
  heap s !! p = Some c ->
  linkName c bd <> "" ->
  pflag.Lookup (linkName c bd) (CommandLine s) = None ->
  shorthandFree (flagShorthand c) (CommandLine s) = true ->
  registerFlag p bd s
    = (Ok tt,
       set_CommandLine (CommandLine s ++ [linkFlag c bd])
         (set_heap (<[p := namedCell c bd]> (heap s)) s)).
Proof.
  intros Hc Hne Hn Hs. unfold registerFlag.
  assert (Hd : deref p s = (Ok c, s)) by (unfold deref; now rewrite Hc).
  rewrite (bind_Ok _ _ _ _ _ Hd).
  set (s1 := set_heap (<[p := namedCell c bd]> (heap s)) s).
  assert (Hst : (if String.eqb (flagName c) ""
                 then store p (mkFlagCell (getKey bd) (flagShorthand c) (isDir c)
                                 (isFile c) (isRequired c))
                 else ret tt) s = (Ok tt, s1)).
  { subst s1. unfold namedCell, linkName.
    destruct (String.eqb_spec (flagName c) "") as [He | He].
    - unfold store. now rewrite Hc.
    - rewrite list_insert_id; [now rewrite set_heap_same | rewrite Hc; now destruct c]. }
  rewrite (bind_Ok _ _ _ _ _ Hst).
  assert (Hd1 : deref p s1 = (Ok (namedCell c bd), s1)).
  { unfold deref. subst s1. simpl.
    rewrite list_lookup_insert_eq; [reflexivity | now apply lookup_lt_Some in Hc]. }
  rewrite (bind_Ok _ _ _ _ _ Hd1).
  change (flagName (namedCell c bd)) with (linkName c bd).
  apply String.eqb_neq in Hne as Hne'. rewrite Hne'.
  unfold linkFlag. destruct (getDefault bd) as [def ?], (getUsage bd) as [usage ?].
  simpl fst. simpl flagShorthand. simpl isDir. simpl isFile. simpl isRequired.
  now rewrite (register_block (linkName c bd) (flagShorthand c) def usage
                 (isDir c) (isFile c) (isRequired c) s1 Hn Hs).
Qed.

(** X4. What the before-parse hook of a flag link registers.  If no
    flag is registered yet under the link's effective name (its own name,
    or the option's key when that is empty), that name is not empty and
    the shorthand is acceptable, the hook succeeds, writes the effective
    name into the struct and appends one string flag to the flag set:
    under that name and shorthand, unchanged, with the default text and
    the usage text of the whole chain being parsed (empty when the chain
    has none) and the annotations of the struct's marks. *)
Theorem registerFlag_registers {T} (p : loc) (bd : Builder T) (c : bFlagCell)
    (s : State) :
  heap s !! p = Some c ->
  linkName c bd <> "" ->
  pflag.Lookup (linkName c bd) (CommandLine s) = None ->
  shorthandFree (flagShorthand c) (CommandLine s) = true ->
  fst (registerFlag p bd s) = Ok tt /\
  heap (snd (registerFlag p bd s)) = <[p := namedCell c bd]> (heap s) /\
  CommandLine (snd (registerFlag p bd s))
    = CommandLine s ++
      [pflag.mkFlag (linkName c bd) (flagShorthand c) (fst (getUsage bd))
                    (fst (getDefault bd)) (fst (getDefault bd)) false
                    (cellAnnotations c)] /\
  pkgSet (snd (registerFlag p bd s)) = pkgSet s /\
  environ (snd (registerFlag p bd s)) = environ s.
Proof.
  intros Hc Hne Hn Hs. rewrite (registerFlag_ok p bd c s Hc Hne Hn Hs).
  repeat split.
Qed.

Lemma registerFlag_registers_witness :
  let bd := bUsage (bDefault (bFlag 0 (bRoot "verbose" stringConv)) "no") "be chatty" in
  let s := set_heap [mkFlagCell "" "v" true false true] initState in
  fst (registerFlag 0 bd s) = Ok tt /\
  heap (snd (registerFlag 0 bd s)) = [mkFlagCell "verbose" "v" true false true] /\
  CommandLine (snd (registerFlag 0 bd s))
    = [pflag.mkFlag "verbose" "v" "be chatty" "no" "no" false
         [pflag.SubdirsInDir; pflag.OneRequiredFlag]].
Proof.
  intros bd s.
  destruct (registerFlag_registers 0 bd (mkFlagCell "" "v" true false true) s
              eq_refl ltac:(discriminate) eq_refl eq_refl)
    as (H1 & H2 & H3 & _).
  split; [exact H1 |]. split; [exact H2 | exact H3].
Defined.

(** ** A chain's hook is the hooks of its flag links *)

Lemma bind_ret_tt (m : M unit) s : (m ;;; ret tt) s = m s.
Proof. unfold bind, ret. destruct (m s) as [[[] | v | c] s']; reflexivity. Qed.

Lemma bind_assoc {A B C} (m : M A) (k : A -> M B) (h : B -> M C) s :
  bind (bind m k) h s = bind m (fun a => bind (k a) h) s.
Proof. unfold bind. destruct (m s) as [[a | v | c] s']; reflexivity. Qed.

Lemma registerAll_app {T} ps qs (bd : Builder T) : forall s,
  registerAll (ps ++ qs) bd s = (registerAll ps bd ;;; registerAll qs bd) s.
Proof.
  induction ps as [| p ps IH]; intros s; simpl; [reflexivity |].
  rewrite bind_assoc.
  destruct (registerFlag p bd s) as [[[] | v | c] s'] eqn:E.
  - rewrite !(bind_Ok _ _ _ _ _ E). apply IH.
  - now rewrite !(bind_Panic _ _ _ _ _ E).
  - now rewrite !(bind_Exit _ _ _ _ _ E).
Qed.

Lemma beforeParse_registerAll {T} (b bd : Builder T) s :
  beforeParse b bd s = registerAll (flagLocs b) bd s.
Proof.
  revert s. induction b; intros s; simpl; auto.
  rewrite registerAll_app. unfold bind. rewrite IHb.
  destruct (registerAll (flagLocs b) bd s) as [[[] | v | c] s']; [| reflexivity ..].
  simpl. now rewrite bind_ret_tt.
Qed.

Lemma getFlag_last {T} (b : Builder T) ps p s :
  flagLocs b = ps ++ [p] ->
  getFlag b s = (let* c := deref p in ret (flagName c, flagShorthand c, true)) s.
Proof.
  induction b; simpl; intros E; auto.
  - now destruct ps.
  - apply app_inj_tail in E as [_ ->]. reflexivity.
Qed.

(** ** Register, parse, look up *)

Lemma Set_Lookup_Some n v fs f :
  pflag.Lookup n fs = Some f ->
  pflag.Lookup n (pflag.Set_ n v fs)
    = Some (pflag.mkFlag (pflag.Name f) (pflag.Shorthand f) (pflag.Usage f) v
              (pflag.DefValue f) true (pflag.Annotations f)).
Proof.
  unfold pflag.Lookup, pflag.Set_. induction fs as [| g fs IH]; simpl; [discriminate |].
  destruct (String.eqb (pflag.Name g) n) eqn:Eg; simpl.
  - rewrite Eg. now intros [= ->].
  - rewrite Eg. exact IH.
Qed.

(** X5. From declaration to value.  For an option whose chain has exactly
    one flag link, with a non-empty effective name [nm] that is still
    free in the flag set and an acceptable shorthand: the before-parse
    hook succeeds; after it, and before any argument is parsed, the flag
    source is silent; once the external parse step has consumed
    [--nm=v], [Lookup] returns [v] through the chain's converter,
    whatever the environment and the default are. *)
Theorem flag_round_trip {T} `{OptType T} (o : opt T) (p : loc) (c : bFlagCell)
    (v : string) (s : State) :
  flagLocs (builder o) = [p] ->
  heap s !! p = Some c ->
  linkName c (builder o) <> "" ->
  pflag.Lookup (linkName c (builder o)) (CommandLine s) = None ->
  shorthandFree (flagShorthand c) (CommandLine s) = true ->
  let s1 := snd (opt_beforeParse o s) in
  let s2 := snd (onCommandLine
                   (pflag.Parse [pflag.mkArg (linkName c (builder o)) v]) s1) in
  fst (opt_beforeParse o s) = Ok tt /\
  ~ flagSupplied o s1 /\
  fst (onCommandLine (pflag.Parse [pflag.mkArg (linkName c (builder o)) v]) s1) = Ok tt /\
  Lookup o s2 = (converted o v, s2).
Proof.
  intros Hl Hc Hne Hn Hs. set (nm := linkName c (builder o)) in *.
  assert (Hrun : opt_beforeParse o s
                 = (Ok tt, set_CommandLine (CommandLine s ++ [linkFlag c (builder o)])
                             (set_heap (<[p := namedCell c (builder o)]> (heap s)) s))).
  { unfold opt_beforeParse. rewrite beforeParse_registerAll, Hl. simpl.
    rewrite bind_ret_tt. now apply registerFlag_ok. }
  rewrite Hrun. cbv zeta. simpl snd. simpl fst.
  set (s1 := set_CommandLine _ _).
  assert (Hcell : heap s1 !! p = Some (namedCell c (builder o))).
  { subst s1. simpl. apply list_lookup_insert_eq. now apply lookup_lt_Some in Hc. }
  assert (Hfl : forall s', heap s' = heap s1 ->
                  getFlag (builder o) s' = (Ok (nm, flagShorthand c, true), s')).
  { intros s' Hh. rewrite (getFlag_last (builder o) [] p s' Hl).
    unfold bind, deref. now rewrite Hh, Hcell. }
  assert (Hreg : pflag.Lookup nm (CommandLine s1) = Some (linkFlag c (builder o))).
  { subst s1. simpl. rewrite pflag_Lookup_app, Hn. simpl.
    fold nm. now rewrite String.eqb_refl. }
  split; [reflexivity |]. split.
  { intros (str & n' & sh' & f & E & Ef & Ec & _).
    rewrite (Hfl s1 eq_refl) in E. inversion E; subst n' sh'.
    rewrite Hreg in Ef. inversion Ef; subst f. discriminate Ec. }
  unfold onCommandLine. simpl pflag.Parse. simpl pflag.argName. rewrite Hreg.
  simpl. split; [reflexivity |].
  set (s2 := set_CommandLine _ s1).
  rewrite (Lookup_eval o s2 nm (flagShorthand c) true (Hfl s2 eq_refl)).
  rewrite (winner_flag o s2 nm (flagShorthand c) true v (Hfl s2 eq_refl));
    [reflexivity |].
  exists nm, (flagShorthand c),
    (pflag.mkFlag nm (flagShorthand c) (fst (getUsage (builder o))) v
       (fst (getDefault (builder o))) true (cellAnnotations c)).
  rewrite (Hfl s2 eq_refl). subst s2. simpl.
  subst s1. simpl in Hreg. rewrite (Set_Lookup_Some nm v _ _ Hreg). repeat split.
Qed.

Lemma flag_round_trip_witness :
  let s := set_environ {["PORT" := "9090"]}
             (set_heap [mkFlagCell "" "p" false false false] initState) in
  let s1 := snd (opt_beforeParse portOpt s) in
  let s2 := snd (onCommandLine (pflag.Parse [pflag.mkArg "port" "8080"]) s1) in
  fst (Lookup portOpt s1) = Ok (9090%Z, true) /\
  Lookup portOpt s2 = (Ok (8080%Z, true), s2).
Proof.
  intros s s1 s2.
  destruct (flag_round_trip portOpt 0 (mkFlagCell "" "p" false false false) "8080" s
              eq_refl eq_refl ltac:(discriminate) eq_refl eq_refl)
    as (_ & _ & _ & HL).
  split; [reflexivity | exact HL].
Defined.

(** ** Hooks are not repeatable *)

Lemma set_CommandLine_same s : set_CommandLine (CommandLine s) s = s.
Proof. now destruct s. Qed.

Lemma SetAnnotation_Lookup_Some n m a fs :
  pflag.Lookup n fs <> None -> pflag.Lookup n (pflag.SetAnnotation m a fs) <> None.
Proof.
  unfold pflag.Lookup, pflag.SetAnnotation.
  induction fs as [| f fs IH]; simpl; [auto |].
  assert (Hname : pflag.Name (if String.eqb (pflag.Name f) m
                              then pflag.annotate a f else f) = pflag.Name f).
  { destruct (String.eqb (pflag.Name f) m); [| reflexivity].
    unfold pflag.annotate. now destruct (existsb _ _). }
  rewrite Hname. destruct (String.eqb (pflag.Name f) n); [discriminate | exact IH].
Qed.

Lemma StringP_Lookup_Some n name sh v u fs :
  pflag.Lookup n fs <> None ->
  pflag.Lookup n (snd (pflag.StringP name sh v u fs)) <> None.
Proof.
  intros Hn. unfold pflag.StringP.
  assert (Happ : pflag.Lookup n (fs ++ [pflag.mkFlag name sh u v v false []]) <> None).
  { rewrite pflag_Lookup_app. destruct (pflag.Lookup n fs); [discriminate | congruence]. }
  destruct (pflag.Lookup name fs); [assumption |].
  destruct (String.eqb sh ""); [assumption |].
  destruct (1 <? String.length sh)%nat; [assumption |].
  destruct (pflag.shorthandUsed sh fs); assumption.
Qed.

Lemma mark_preserves_registered n (c : bool) name a :
  preserves (registeredName n)
    (if c then onCommandLine (fun fs => (Ok tt, pflag.SetAnnotation name a fs))
     else ret tt).
Proof.
  destruct c; intros s HP; [| exact HP].
  unfold registeredName, onCommandLine. simpl. now apply SetAnnotation_Lookup_Some.
Qed.

Lemma keeps_CommandLine_registered {A} n (m : M A) :
  keeps CommandLine m -> preserves (registeredName n) m.
Proof. intros Hm s HP. unfold registeredName. now rewrite Hm. Qed.

(** A registered name stays registered through any hook. *)
Lemma registerFlag_preserves_registered {T} n p (bd : Builder T) :
  preserves (registeredName n) (registerFlag p bd).
Proof.
  unfold registerFlag.
  apply preserves_bind; [apply keeps_CommandLine_registered; auto with keeps |].
  intros c. apply preserves_bind.
  { apply keeps_CommandLine_registered. keeps_tac. }
  intros _. apply preserves_bind; [apply keeps_CommandLine_registered; auto with keeps |].
  intros c'. destruct (String.eqb (flagName c') "").
  { intros s HP. exact HP. }
  destruct (getDefault bd) as [def ?], (getUsage bd) as [usage ?].
  apply preserves_bind.
  { intros s HP. unfold registeredName, onCommandLine in *.
    pose proof (StringP_Lookup_Some n (flagName c') (flagShorthand c') def usage
                  (CommandLine s) HP) as Hs.
    destruct (pflag.StringP _ _ _ _ _); exact Hs. }
  intros _. apply preserves_bind; [apply mark_preserves_registered |].
  intros _. apply preserves_bind; [apply mark_preserves_registered |].
  intros _. apply mark_preserves_registered.
Qed.

(** What a hook does to the structs: nothing, or it writes the key over
    the empty name of its own struct. *)
Lemma registerFlag_heap_cases {T} p (bd : Builder T) s :
  heap (snd (registerFlag p bd s)) = heap s \/
  exists c, heap s !! p = Some c /\ flagName c = "" /\
            heap (snd (registerFlag p bd s)) = <[p := namedCell c bd]> (heap s).
Proof.
  destruct (heap s !! p) as [c |] eqn:Hc.
  2: { left. unfold registerFlag, bind, deref. now rewrite Hc. }
  assert (Hd : deref p s = (Ok c, s)) by (unfold deref; now rewrite Hc).
  assert (Hkeep : forall (c' : bFlagCell) s',
    heap (snd ((if String.eqb (flagName c') "" then ret tt
                else
                  let '(def, _) := getDefault bd in
                  let '(usage, _) := getUsage bd in
                  onCommandLine (pflag.StringP (flagName c') (flagShorthand c') def usage) ;;;
                  (if isDir c' then cobra.MarkFlagDirname (flagName c') else ret tt) ;;;
                  (if isFile c' then cobra.MarkFlagFilename (flagName c') else ret tt) ;;;
                  (if isRequired c' then cobra.MarkFlagRequired (flagName c') else ret tt))
               s')) = heap s').
  { intros c' s'.
    assert (K : keeps heap
      (if String.eqb (flagName c') "" then ret tt
       else
         let '(def, _) := getDefault bd in
         let '(usage, _) := getUsage bd in
         onCommandLine (pflag.StringP (flagName c') (flagShorthand c') def usage) ;;;
         (if isDir c' then cobra.MarkFlagDirname (flagName c') else ret tt) ;;;
         (if isFile c' then cobra.MarkFlagFilename (flagName c') else ret tt) ;;;
         (if isRequired c' then cobra.MarkFlagRequired (flagName c') else ret tt))).
    { unfold cobra.MarkFlagDirname, cobra.MarkFlagFilename, cobra.MarkFlagRequired.
      keeps_tac. }
    apply K. }
  unfold registerFlag. rewrite (bind_Ok _ _ _ _ _ Hd).
  destruct (String.eqb_spec (flagName c) "") as [He | He].
  - right. exists c. split; [reflexivity |]. split; [assumption |].
    set (s1 := set_heap (<[p := namedCell c bd]> (heap s)) s).
    assert (Hst : store p (mkFlagCell (getKey bd) (flagShorthand c) (isDir c)
                             (isFile c) (isRequired c)) s = (Ok tt, s1)).
    { unfold store. rewrite Hc. subst s1. unfold namedCell, linkName.
      apply String.eqb_eq in He. now rewrite He. }
    rewrite (bind_Ok _ _ _ _ _ Hst).
    assert (Hd1 : deref p s1 = (Ok (namedCell c bd), s1)).
    { unfold deref. subst s1. simpl.
      rewrite list_lookup_insert_eq; [reflexivity | now apply lookup_lt_Some in Hc]. }
    rewrite (bind_Ok _ _ _ _ _ Hd1). now rewrite Hkeep.
  - left. rewrite (bind_Ok _ _ s tt s eq_refl). rewrite (bind_Ok _ _ _ _ _ Hd).
    now rewrite Hkeep.
Qed.

Lemma namedCell_idem {T} c (bd : Builder T) :
  namedCell (namedCell c bd) bd = namedCell c bd.
Proof.
  unfold namedCell, linkName. simpl.
  destruct (String.eqb_spec (flagName c) "") as [He | He]; simpl.
  - destruct (String.eqb (getKey bd) ""); reflexivity.
  - apply String.eqb_neq in He. now rewrite He.
Qed.

(** A struct that has a name is never written by a hook. *)
Lemma registerFlag_keeps_named {T} p (bd : Builder T) s q c :
  heap s !! q = Some c -> flagName c <> "" ->
  heap (snd (registerFlag p bd s)) !! q = Some c.
Proof.
  intros Hq Hne.
  destruct (registerFlag_heap_cases p bd s) as [-> | (c' & Hc' & He & ->)];
    [assumption |].
  destruct (decide (p = q)) as [-> | Hpq].
  - congruence.
  - now rewrite list_lookup_insert_ne.
Qed.

Lemma registerFlag_preserves_namedRegistered {T} p (bd : Builder T) s q :
  namedRegistered s q -> namedRegistered (snd (registerFlag p bd s)) q.
Proof.
  intros (c & Hc & Hne & Hr). exists c.
  split; [now apply registerFlag_keeps_named |]. split; [assumption |].
  now apply (registerFlag_preserves_registered (flagName c) p bd s).
Qed.

(** The hook of a link whose flag is registered panics, and leaves the
    state as it is. *)
Lemma registerFlag_redefined {T} p (bd : Builder T) s c :
  heap s !! p = Some c -> flagName c <> "" ->
  pflag.Lookup (flagName c) (CommandLine s) <> None ->
  registerFlag p bd s = (Panic (FlagRedefined (flagName c)), s).
Proof.
  intros Hc Hne Hr. unfold registerFlag.
  assert (Hd : deref p s = (Ok c, s)) by (unfold deref; now rewrite Hc).
  rewrite (bind_Ok _ _ _ _ _ Hd).
  apply String.eqb_neq in Hne. rewrite Hne.
  rewrite (bind_Ok _ _ s tt s eq_refl). rewrite (bind_Ok _ _ _ _ _ Hd). rewrite Hne.
  destruct (getDefault bd) as [def ?], (getUsage bd) as [usage ?].
  apply bind_Panic. unfold onCommandLine, pflag.StringP.
  destruct (pflag.Lookup (flagName c) (CommandLine s)); [| contradiction].
  now rewrite set_CommandLine_same.
Qed.

(** [registerFlag] in two steps: the struct takes its effective name,
    then, unless that name is empty, the flag is registered. *)
Lemma registerFlag_unfold {T} p (bd : Builder T) c s :
  heap s !! p = Some c ->
  registerFlag p bd s
    = (if String.eqb (linkName c bd) "" then ret tt
       else registerBlock (linkName c bd) (flagShorthand c) (fst (getDefault bd))
              (fst (getUsage bd)) (isDir c) (isFile c) (isRequired c))
        (set_heap (<[p := namedCell c bd]> (heap s)) s).
Proof.
  intros Hc. unfold registerFlag.
  assert (Hd : deref p s = (Ok c, s)) by (unfold deref; now rewrite Hc).
  rewrite (bind_Ok _ _ _ _ _ Hd).
  set (s1 := set_heap (<[p := namedCell c bd]> (heap s)) s).
  assert (Hst : (if String.eqb (flagName c) ""
                 then store p (mkFlagCell (getKey bd) (flagShorthand c) (isDir c)
                                 (isFile c) (isRequired c))
                 else ret tt) s = (Ok tt, s1)).
  { subst s1. unfold namedCell, linkName.
    destruct (String.eqb_spec (flagName c) "") as [He | He].
    - unfold store. now rewrite Hc.
    - rewrite list_insert_id; [now rewrite set_heap_same | rewrite Hc; now destruct c]. }
  rewrite (bind_Ok _ _ _ _ _ Hst).
  assert (Hd1 : deref p s1 = (Ok (namedCell c bd), s1)).
  { unfold deref. subst s1. simpl.
    rewrite list_lookup_insert_eq; [reflexivity | now apply lookup_lt_Some in Hc]. }
  rewrite (bind_Ok _ _ _ _ _ Hd1).
  change (flagName (namedCell c bd)) with (linkName c bd).
  destruct (String.eqb (linkName c bd) ""); [reflexivity |].
  unfold registerBlock. destruct (getDefault bd) as [def ?], (getUsage bd) as [usage ?].
  reflexivity.
Qed.

Lemma registerBlock_keeps_heap n sh def usage d f r :
  keeps heap (registerBlock n sh def usage d f r).
Proof.
  unfold registerBlock, cobra.MarkFlagDirname, cobra.MarkFlagFilename,
    cobra.MarkFlagRequired.
  keeps_tac.
Qed.

(** A registration that succeeds leaves the name registered. *)
Lemma registerBlock_registers n sh def usage d f r s s' :
  registerBlock n sh def usage d f r s = (Ok tt, s') -> registeredName n s'.
Proof.
  unfold registerBlock. intros Hrun.
  destruct (onCommandLine (pflag.StringP n sh def usage) s) as [r0 s0] eqn:E0.
  assert (Hreg : r0 = Ok tt -> registeredName n s0).
  { intros ->. unfold onCommandLine, pflag.StringP in E0. unfold registeredName.
    destruct (pflag.Lookup n (CommandLine s)) eqn:El; [discriminate |].
    assert (Hs0 : CommandLine s0
                  = CommandLine s ++ [pflag.mkFlag n sh usage def def false []]).
    { destruct (String.eqb sh ""); [now inversion E0 |].
      destruct (1 <? String.length sh)%nat; [discriminate |].
      destruct (pflag.shorthandUsed sh (CommandLine s)); [discriminate |].
      now inversion E0. }
    rewrite Hs0, pflag_Lookup_app, El. simpl. now rewrite String.eqb_refl. }
  destruct r0 as [[] | v | c].
  - rewrite (bind_Ok _ _ _ _ _ E0) in Hrun.
    assert (Hp : preserves (registeredName n)
                   ((if d then cobra.MarkFlagDirname n else ret tt) ;;;
                    (if f then cobra.MarkFlagFilename n else ret tt) ;;;
                    (if r then cobra.MarkFlagRequired n else ret tt))).
    { unfold cobra.MarkFlagDirname, cobra.MarkFlagFilename, cobra.MarkFlagRequired.
      apply preserves_bind; [apply mark_preserves_registered |].
      intros _. apply preserves_bind; [apply mark_preserves_registered |].
      intros _. apply mark_preserves_registered. }
    specialize (Hp s0 (Hreg eq_refl)). now rewrite Hrun in Hp.
  - rewrite (bind_Panic _ _ _ _ _ E0) in Hrun. discriminate.
  - rewrite (bind_Exit _ _ _ _ _ E0) in Hrun. discriminate.
Qed.

Lemma linkName_empty {T} c (bd : Builder T) :
  linkName c bd = "" -> flagName c = "" /\ getKey bd = "".
Proof.
  unfold linkName. destruct (String.eqb_spec (flagName c) ""); auto.
  intros; contradiction.
Qed.

(** A hook that succeeds leaves its link settled. *)
Lemma registerFlag_settles {T} p (bd : Builder T) s s' :
  registerFlag p bd s = (Ok tt, s') ->
  namedRegistered s' p \/
  (s' = s /\ exists c, heap s !! p = Some c /\ flagName c = "" /\ getKey bd = "").
Proof.
  intros Hrun.
  destruct (heap s !! p) as [c |] eqn:Hc.
  2: { unfold registerFlag, bind, deref in Hrun. rewrite Hc in Hrun. discriminate. }
  destruct (String.eqb_spec (linkName c bd) "") as [He | He].
  - right. destruct (linkName_empty c bd He) as [Hn Hk].
    rewrite (registerFlag_skip p bd c s Hc Hn Hk) in Hrun. inversion Hrun.
    split; [reflexivity |]. now exists c.
  - left. rewrite (registerFlag_unfold p bd c s Hc) in Hrun.
    apply String.eqb_neq in He as He'. rewrite He' in Hrun.
    pose proof (registerBlock_keeps_heap (linkName c bd) (flagShorthand c)
                  (fst (getDefault bd)) (fst (getUsage bd)) (isDir c) (isFile c)
                  (isRequired c) (set_heap (<[p := namedCell c bd]> (heap s)) s)) as Hh.
    rewrite Hrun in Hh. simpl in Hh.
    exists (namedCell c bd). split; [| split].
    + rewrite Hh. apply list_lookup_insert_eq. now apply lookup_lt_Some in Hc.
    + exact He.
    + exact (registerBlock_registers _ _ _ _ _ _ _ _ _ Hrun).
Qed.

Lemma registerFlag_preserves_settled {T} p (bd : Builder T) s q :
  settled bd s q -> settled bd (snd (registerFlag p bd s)) q.
Proof.
  intros [Hr | (c & Hc & Hn & Hk)].
  - left. now apply registerFlag_preserves_namedRegistered.
  - right. exists c. rewrite (registerFlag_heap_empty_key p bd s Hk). auto.
Qed.

Lemma registerAll_preserves_settled {T} ps (bd : Builder T) q : forall s,
  settled bd s q -> settled bd (snd (registerAll ps bd s)) q.
Proof.
  induction ps as [| p ps IH]; intros s Hq; simpl; [assumption |].
  pose proof (registerFlag_preserves_settled p bd s q Hq) as Hq'.
  unfold bind. destruct (registerFlag p bd s) as [[[] | v | c] s']; simpl in *;
    [now apply IH | assumption ..].
Qed.

Lemma registerAll_preserves_namedRegistered {T} ps (bd : Builder T) q : forall s,
  namedRegistered s q -> namedRegistered (snd (registerAll ps bd s)) q.
Proof.
  induction ps as [| p ps IH]; intros s Hq; simpl; [assumption |].
  pose proof (registerFlag_preserves_namedRegistered p bd s q Hq) as Hq'.
  unfold bind. destruct (registerFlag p bd s) as [[[] | v | c] s']; simpl in *;
    [now apply IH | assumption ..].
Qed.

(** After a run of hooks that succeeds every link is settled. *)
Lemma registerAll_settles {T} ps (bd : Builder T) : forall s s',
  registerAll ps bd s = (Ok tt, s') -> Forall (settled bd s') ps.
Proof.
  induction ps as [| p ps IH]; intros s s' Hrun; simpl in Hrun; [constructor |].
  destruct (registerFlag p bd s) as [[[] | v | c] s1] eqn:E1.
  - rewrite (bind_Ok _ _ _ _ _ E1) in Hrun. constructor; [| now apply (IH s1)].
    assert (Hp : settled bd s1 p).
    { destruct (registerFlag_settles p bd s s1 E1) as [Hr | (-> & Hc)];
        [now left | now right]. }
    pose proof (registerAll_preserves_settled ps bd p s1 Hp) as Hp'.
    now rewrite Hrun in Hp'.
  - rewrite (bind_Panic _ _ _ _ _ E1) in Hrun. discriminate.
  - rewrite (bind_Exit _ _ _ _ _ E1) in Hrun. discriminate.
Qed.

(** On settled links a run of hooks either skips them all, or panics at
    the first that has a name, without having changed anything. *)
Lemma registerAll_settled {T} ps (bd : Builder T) s :
  Forall (settled bd s) ps ->
  (registerAll ps bd s = (Ok tt, s) /\
   Forall (fun p => exists c, heap s !! p = Some c /\ flagName c = "" /\
                              getKey bd = "") ps) \/
  exists nm, registerAll ps bd s = (Panic (FlagRedefined nm), s).
Proof.
  induction 1 as [| p ps Hp Hps IH]; simpl.
  - left. split; [reflexivity | constructor].
  - destruct Hp as [(c & Hc & Hn & Hr) | (c & Hc & Hn & Hk)].
    + right. exists (flagName c).
      apply bind_Panic. now apply registerFlag_redefined.
    + rewrite (bind_Ok _ _ _ _ _ (registerFlag_skip p bd c s Hc Hn Hk)).
      destruct IH as [[E Hall] | [nm E]].
      * left. split; [exact E |]. constructor; [now exists c | exact Hall].
      * right. now exists nm.
Qed.

Lemma registerAll_skip {T} ps (bd : Builder T) s :
  Forall (fun p => exists c, heap s !! p = Some c /\ flagName c = "" /\
                             getKey bd = "") ps ->
  registerAll ps bd s = (Ok tt, s).
Proof.
  induction 1 as [| p ps (c & Hc & Hn & Hk) _ IH]; simpl; [reflexivity |].
  now rewrite (bind_Ok _ _ _ _ _ (registerFlag_skip p bd c s Hc Hn Hk)).
Qed.

Lemma registerAll_heap_empty_key {T} ps (bd : Builder T) :
  getKey bd = "" -> forall s, heap (snd (registerAll ps bd s)) = heap s.
Proof.
  intros Hk. induction ps as [| p ps IH]; intros s; simpl; [reflexivity |].
  pose proof (registerFlag_heap_empty_key p bd s Hk) as Hp.
  unfold bind. destruct (registerFlag p bd s) as [[[] | v | c] s']; simpl in *;
    [now rewrite IH | assumption ..].
Qed.

(** X6. Before-parse hooks are not repeatable.  If the hook of an option
    has run to completion and changed anything (it registered a flag),
    running it again panics in the flag library with "flag redefined",
    and changes nothing more. *)
Theorem hook_not_repeatable {T} (o : opt T) (s s1 : State) :
  opt_beforeParse o s = (Ok tt, s1) ->
  s1 <> s ->
  exists nm, opt_beforeParse o s1 = (Panic (FlagRedefined nm), s1).
Proof.
  unfold opt_beforeParse. rewrite !beforeParse_registerAll.
  set (ps := flagLocs (builder o)). set (bd := builder o).
  intros Hrun Hne.
  destruct (registerAll_settled ps bd s1 (registerAll_settles ps bd s s1 Hrun))
    as [[_ Hall] | Hpanic]; [exfalso | exact Hpanic].
  apply Hne.
  destruct ps as [| p ps'] eqn:Eps.
  - simpl in Hrun. now inversion Hrun.
  - assert (Hk : getKey bd = "").
    { inversion Hall as [| ? ? (c & _ & _ & Hk) _]. exact Hk. }
    pose proof (registerAll_heap_empty_key (p :: ps') bd Hk s) as Hh.
    rewrite Hrun in Hh. simpl in Hh.
    assert (Hskip : registerAll (p :: ps') bd s = (Ok tt, s)).
    { apply registerAll_skip. rewrite <- Hh. exact Hall. }
    rewrite Hskip in Hrun. now inversion Hrun.
Qed.

Lemma hook_not_repeatable_witness :
  let s := set_heap [mkFlagCell "" "p" false false false] initState in
  exists nm,
    opt_beforeParse portOpt (snd (opt_beforeParse portOpt s))
      = (Panic (FlagRedefined nm), snd (opt_beforeParse portOpt s)).
Proof.
  intros s.
  apply (hook_not_repeatable portOpt s (snd (opt_beforeParse portOpt s))).
  - reflexivity.
  - intros E. apply (f_equal CommandLine) in E. discriminate E.
Defined.

(** ** Hooks never end the process *)

Lemma neverExits_bind {A B} (m : M A) (k : A -> M B) :
  neverExits m -> (forall a, neverExits (k a)) -> neverExits (bind m k).
Proof.
  intros Hm Hk s c. unfold bind. specialize (Hm s).
  destruct (m s) as [[a | v | c'] s']; simpl in *.
  - apply Hk.
  - discriminate.
  - exfalso. now apply (Hm c').
Qed.

Lemma neverExits_ret {A} (a : A) : neverExits (ret a).
Proof. intros s c. discriminate. Qed.

Lemma neverExits_mark (c : bool) name a :
  neverExits (if c then onCommandLine (fun fs => (Ok tt, pflag.SetAnnotation name a fs))
              else ret tt).
Proof. destruct c; intros s e; discriminate. Qed.

Lemma registerFlag_neverExits {T} p (bd : Builder T) : neverExits (registerFlag p bd).
Proof.
  unfold registerFlag.
  apply neverExits_bind.
  { intros s c. unfold deref. destruct (heap s !! p); discriminate. }
  intros c. apply neverExits_bind.
  { destruct (String.eqb (flagName c) ""); [| apply neverExits_ret].
    intros s e. unfold store. destruct (heap s !! p); discriminate. }
  intros _. apply neverExits_bind.
  { intros s e. unfold deref. destruct (heap s !! p); discriminate. }
  intros c'. destruct (String.eqb (flagName c') ""); [apply neverExits_ret |].
  destruct (getDefault bd) as [def ?], (getUsage bd) as [usage ?].
  apply neverExits_bind.
  { intros s e. unfold onCommandLine, pflag.StringP.
    destruct (pflag.Lookup _ _); [discriminate |].
    destruct (String.eqb _ ""); [discriminate |].
    destruct (1 <? _)%nat; [discriminate |].
    destruct (pflag.shorthandUsed _ _); discriminate. }
  intros _. apply neverExits_bind; [apply neverExits_mark |].
  intros _. apply neverExits_bind; [apply neverExits_mark |].
  intros _. apply neverExits_mark.
Qed.

(** ** Options that share a flag link *)

Lemma linkName_namedCell {T} c (bd bd' : Builder T) :
  linkName c bd <> "" -> linkName (namedCell c bd) bd' = linkName c bd.
Proof.
  intros Hne. unfold linkName at 1. simpl.
  apply String.eqb_neq in Hne. now rewrite Hne.
Qed.

(** A run of hooks that succeeds registers every link that has an
    effective name. *)
Lemma registerAll_registers_link {T} ps (bd : Builder T) p :
  In p ps ->
  forall s s1 c,
    heap s !! p = Some c -> linkName c bd <> "" ->
    registerAll ps bd s = (Ok tt, s1) -> namedRegistered s1 p.
Proof.
  induction ps as [| q ps IH]; intros Hin s s1 c Hc Hne Hrun; [contradiction |].
  simpl in Hrun.
  destruct (registerFlag q bd s) as [[[] | v | e] s'] eqn:Eq.
  2: { rewrite (bind_Panic _ _ _ _ _ Eq) in Hrun. discriminate. }
  2: { rewrite (bind_Exit _ _ _ _ _ Eq) in Hrun. discriminate. }
  rewrite (bind_Ok _ _ _ _ _ Eq) in Hrun.
  destruct (decide (q = p)) as [-> | Hqp].
  - assert (Hp : namedRegistered s' p).
    { destruct (registerFlag_settles p bd s s' Eq) as [Hr | (_ & c' & Hc' & Hn & Hk)];
        [exact Hr | exfalso].
      rewrite Hc in Hc'. inversion Hc'; subst c'.
      apply Hne. unfold linkName. now rewrite Hn, Hk. }
    pose proof (registerAll_preserves_namedRegistered ps bd p s' Hp) as Hp'.
    now rewrite Hrun in Hp'.
  - destruct Hin as [-> | Hin]; [contradiction |].
    apply (IH Hin s' s1 c); [| assumption | assumption].
    destruct (registerFlag_heap_cases q bd s) as [Hh | (c' & _ & _ & Hh)];
      rewrite Eq in Hh; simpl in Hh; rewrite Hh; [assumption |].
    now rewrite list_lookup_insert_ne.
Qed.

(** A run of hooks over a link whose flag is already registered panics. *)
Lemma registerAll_panics {T} ps (bd : Builder T) p :
  In p ps -> forall s, namedRegistered s p ->
  exists v, fst (registerAll ps bd s) = Panic v.
Proof.
  induction ps as [| q ps IH]; intros Hin s Hp; [contradiction |]. simpl.
  destruct (decide (q = p)) as [-> | Hqp].
  - destruct Hp as (c & Hc & Hn & Hr). exists (FlagRedefined (flagName c)).
    now rewrite (bind_Panic _ _ _ _ _ (registerFlag_redefined p bd s c Hc Hn Hr)).
  - destruct Hin as [-> | Hin]; [contradiction |].
    pose proof (registerFlag_preserves_namedRegistered q bd s p Hp) as Hp'.
    pose proof (registerFlag_neverExits q bd s) as Hex.
    destruct (registerFlag q bd s) as [[[] | v | e] s'] eqn:Eq; simpl in *.
    + rewrite (bind_Ok _ _ _ _ _ Eq). now apply IH.
    + exists v. now rewrite (bind_Panic _ _ _ _ _ Eq).
    + exfalso. now apply (Hex e).
Qed.

(** X7. Sharing a flag link.  When two options are built on a common
    prefix that contains a flag link with a non-empty effective name,
    the before-parse hook of the one that runs second panics once the
    hook of the first has succeeded: each option registers the flags of
    all links of its chain, and the shared one is registered twice. *)
Theorem shared_flag_link_panics {T} (o1 o2 : opt T) (p : loc) (c : bFlagCell)
    (s s1 : State) :
  In p (flagLocs (builder o1)) ->
  In p (flagLocs (builder o2)) ->
  heap s !! p = Some c ->
  linkName c (builder o1) <> "" ->
  opt_beforeParse o1 s = (Ok tt, s1) ->
  exists v, fst (opt_beforeParse o2 s1) = Panic v.
Proof.
  unfold opt_beforeParse. rewrite !beforeParse_registerAll.
  intros H1 H2 Hc Hne Hrun.
  apply (registerAll_panics _ _ p H2).
  exact (registerAll_registers_link _ _ p H1 s s1 c Hc Hne Hrun).
Qed.

Lemma shared_flag_link_panics_witness :
  fst (declareSiblings initState) = Ok (siblingA, siblingB) /\
  fst (opt_beforeParse siblingA siblingState) = Ok tt /\
  (exists v, fst (opt_beforeParse siblingB
                    (snd (opt_beforeParse siblingA siblingState))) = Panic v) /\
  fst (Parse siblingState) = Panic (FlagRedefined "f").
Proof.
  split; [reflexivity |]. split; [reflexivity |]. split; [| reflexivity].
  apply (shared_flag_link_panics siblingA siblingB 0
           (mkFlagCell "f" "" false false false) siblingState).
  - simpl. auto.
  - simpl. auto.
  - reflexivity.
  - discriminate.
  - reflexivity.
Defined.

(** ** What hooks do to the structs *)

(** X8. Before-parse hooks change nothing of a flag struct but an empty
    name: after the hook of any option [bd], run on any chain and
    whatever its outcome, every struct is as before or has had its empty
    flag name replaced by the key of [bd]; shorthand and marks are never
    written, and a name once set is never changed. *)
Theorem hook_writes_only_empty_names {T} (b bd : Builder T) (s : State)
    (q : loc) (c : bFlagCell) :
  heap s !! q = Some c ->
  heap (snd (beforeParse b bd s)) !! q = Some c \/
  (flagName c = "" /\
   heap (snd (beforeParse b bd s)) !! q
     = Some (mkFlagCell (getKey bd) (flagShorthand c) (isDir c) (isFile c)
               (isRequired c))).
Proof.
  rewrite beforeParse_registerAll. generalize (flagLocs b) as ps.
  assert (Hstep : forall p s0,
    (heap s0 !! q = Some c \/
     (flagName c = "" /\ heap s0 !! q = Some (namedCell c bd))) ->
    heap (snd (registerFlag p bd s0)) !! q = Some c \/
    (flagName c = "" /\ heap (snd (registerFlag p bd s0)) !! q = Some (namedCell c bd))).
  { intros p s0 Hq.
    destruct (registerFlag_heap_cases p bd s0) as [-> | (c' & Hc' & Hn' & ->)];
      [exact Hq |].
    destruct (decide (p = q)) as [-> | Hpq].
    - rewrite list_lookup_insert_eq by (now apply lookup_lt_Some in Hc').
      destruct Hq as [Hq | [Hn Hq]]; rewrite Hq in Hc'; inversion Hc'; subst c'.
      + right. split; [assumption | reflexivity].
      + right. split; [assumption |]. now rewrite namedCell_idem.
    - now rewrite list_lookup_insert_ne. }
  intros ps Hc.
  assert (Hgen : forall s0,
    (heap s0 !! q = Some c \/
     (flagName c = "" /\ heap s0 !! q = Some (namedCell c bd))) ->
    heap (snd (registerAll ps bd s0)) !! q = Some c \/
    (flagName c = "" /\ heap (snd (registerAll ps bd s0)) !! q = Some (namedCell c bd))).
  { induction ps as [| p ps IH]; intros s0 Hq; simpl; [exact Hq |].
    specialize (Hstep p s0 Hq). unfold bind.
    destruct (registerFlag p bd s0) as [[[] | v | e] s']; simpl in *;
      [now apply IH | exact Hstep ..]. }
  destruct (Hgen s (or_introl Hc)) as [H | [Hn H]]; [now left | right].
  split; [assumption |]. rewrite H. unfold namedCell, linkName.
  apply String.eqb_eq in Hn. now rewrite Hn.
Qed.

Lemma hook_writes_only_empty_names_witness :
  let s := set_heap [mkFlagCell "" "p" true false false] initState in
  heap (snd (beforeParse (builder portOpt) (builder portOpt) s)) !! 0%nat
    = Some (mkFlagCell "port" "p" true false false).
Proof.
  intros s.
  destruct (hook_writes_only_empty_names (builder portOpt) (builder portOpt) s 0
              (mkFlagCell "" "p" true false false) eq_refl) as [H | [_ H]].
  - vm_compute in H. discriminate H.
  - exact H.
Defined.

(** ** What [Parse] leaves alone *)

Section Frame.
Context {X : Type} (f : State -> X).
Hypothesis f_heap : forall h s, f (set_heap h s) = f s.
Hypothesis f_CommandLine : forall fs s, f (set_CommandLine fs s) = f s.
Hypothesis f_trace : forall t s, f (set_trace t s) = f s.

Lemma store_keeps_frame p c : keeps f (store p c).
Proof. intros s. unfold store. destruct (heap s !! p); simpl; auto. Qed.

Lemma onCommandLine_keeps_frame {A} (g : pflag.FlagSet -> res A * pflag.FlagSet) :
  keeps f (onCommandLine g).
Proof. intros s. unfold onCommandLine. destruct (g (CommandLine s)); simpl; auto. Qed.

Lemma emit_keeps_frame e : keeps f (emit e).
Proof. intros s. unfold emit, modify. simpl. auto. Qed.

Lemma registerFlag_keeps_frame {T} p (bd : Builder T) : keeps f (registerFlag p bd).
Proof.
  pose proof store_keeps_frame. pose proof (@onCommandLine_keeps_frame).
  unfold registerFlag, cobra.MarkFlagDirname, cobra.MarkFlagFilename,
    cobra.MarkFlagRequired.
  keeps_tac; auto.
Qed.

Lemma beforeParse_keeps_frame {T} (b bd : Builder T) : keeps f (beforeParse b bd).
Proof.
  induction b; simpl; keeps_tac; auto. apply registerFlag_keeps_frame.
Qed.

Lemma Parse_keeps_frame : keeps f Parse.
Proof.
  pose proof emit_keeps_frame. pose proof (@onCommandLine_keeps_frame).
  unfold Parse. keeps_tac; auto.
  - apply forRange_keeps. intros i o. keeps_tac; auto. apply beforeParse_keeps_frame.
  - apply forRange_keeps. intros i o. keeps_tac; auto. apply afterParse_keeps.
Qed.

End Frame.

Lemma Set_Lookup_Some_any n m v fs :
  pflag.Lookup n fs <> None -> pflag.Lookup n (pflag.Set_ m v fs) <> None.
Proof.
  unfold pflag.Lookup, pflag.Set_. induction fs as [| f fs IH]; simpl; [auto |].
  assert (Hname : pflag.Name (if String.eqb (pflag.Name f) m
                              then pflag.mkFlag (pflag.Name f) (pflag.Shorthand f)
                                     (pflag.Usage f) v (pflag.DefValue f) true
                                     (pflag.Annotations f)
                              else f) = pflag.Name f)
    by (now destruct (String.eqb (pflag.Name f) m)).
  rewrite Hname. destruct (String.eqb (pflag.Name f) n); [discriminate | exact IH].
Qed.

Lemma pflag_Parse_Lookup_Some n args : forall fs,
  pflag.Lookup n fs <> None -> pflag.Lookup n (snd (pflag.Parse args fs)) <> None.
Proof.
  induction args as [| a args IH]; intros fs Hn; simpl; [assumption |].
  destruct (pflag.Lookup (pflag.argName a) fs); [| assumption].
  now apply IH, Set_Lookup_Some_any.
Qed.

Lemma registerAll_preserves_registered {T} n ps (bd : Builder T) :
  preserves (registeredName n) (registerAll ps bd).
Proof.
  induction ps as [| p ps IH]; simpl; [intros s HP; exact HP |].
  apply preserves_bind; [apply registerFlag_preserves_registered | intros _; exact IH].
Qed.

Lemma forRange_preserves {A} P (body : nat -> A -> M unit) l :
  (forall i o, preserves P (body i o)) -> forall i, preserves P (forRange body i l).
Proof.
  intros Hb. induction l as [| o l IH]; intros i; simpl; [intros s HP; exact HP |].
  apply preserves_bind; [apply Hb | intros _; apply IH].
Qed.

Lemma Parse_preserves_registered n : preserves (registeredName n) Parse.
Proof.
  unfold Parse.
  apply preserves_bind; [apply keeps_CommandLine_registered; auto with keeps |].
  intros set. apply preserves_bind.
  { apply forRange_preserves. intros i o.
    apply preserves_bind; [apply keeps_CommandLine_registered; auto with keeps |].
    intros _ s HP. unfold opt_beforeParse. rewrite beforeParse_registerAll.
    now apply registerAll_preserves_registered. }
  intros _. apply preserves_bind; [apply keeps_CommandLine_registered; auto with keeps |].
  intros _. apply preserves_bind; [apply keeps_CommandLine_registered; auto with keeps |].
  intros args. apply preserves_bind.
  { intros s HP. unfold registeredName, onCommandLine in *.
    pose proof (pflag_Parse_Lookup_Some n args (CommandLine s) HP) as Hs.
    destruct (pflag.Parse args (CommandLine s)); exact Hs. }
  intros _. apply preserves_bind; [apply keeps_CommandLine_registered; auto with keeps |].
  intros set'. apply forRange_preserves. intros i o.
  apply preserves_bind; [apply keeps_CommandLine_registered; auto with keeps |].
  intros _ s HP. unfold opt_afterParse. now rewrite afterParse_noop.
Qed.

(** X9. What [Parse] never does.  Whatever its outcome, [Parse] leaves
    the registry of options, the environment and the arguments as they
    were, allocates and frees no flag struct, and unregisters no flag:
    a name registered before is registered after. *)
Theorem Parse_frame (s : State) :
  pkgSet (snd (Parse s)) = pkgSet s /\
  environ (snd (Parse s)) = environ s /\
  Args (snd (Parse s)) = Args s /\
  length (heap (snd (Parse s))) = length (heap s) /\
  (forall n, pflag.Lookup n (CommandLine s) <> None ->
             pflag.Lookup n (CommandLine (snd (Parse s))) <> None).
Proof.
  split; [| split; [| split; [| split]]].
  - apply (Parse_keeps_frame pkgSet); reflexivity.
  - apply (Parse_keeps_frame environ); reflexivity.
  - apply (Parse_keeps_frame Args); reflexivity.
  - apply Parse_keeps_heap_length.
  - intros n. apply (Parse_preserves_registered n s).
Qed.

(** ** Conversion failures are fatal *)

Lemma winner_wins {T} (o : opt T) s n sh ok str :
  getFlag (builder o) s = (Ok (n, sh, ok), s) ->
  wins o s str -> winner o s n ok = Some str.
Proof.
  intros E [Hf | [[Hn He] | (Hn & Hne & Hd)]].
  - now apply (winner_flag o s n sh ok).
  - apply winner_env; [now apply (flagText_silent o s n sh ok) | exact He].
  - apply winner_default; [now apply (flagText_silent o s n sh ok) | exact Hne | exact Hd].
Qed.

Lemma Lookup_wins {T} `{OptType T} (o : opt T) (s : State) (str : string) :
  allocated (heap s) (builder o) -> wins o s str ->
  Lookup o s = (found (getConvFunc (rootOf (builder o)) str), s).
Proof.
  intros Ha Hw. destruct (getFlag_allocated _ _ Ha) as (n & sh & ok & E).
  rewrite (Lookup_eval o s n sh ok E), (winner_wins o s n sh ok str E Hw).
  unfold converted. now rewrite (getConvFunc_rootOf (builder o)).
Qed.

(** X10. The winning text is converted, or the lookup dies.  On a built
    chain, when the text [str] wins the resolution, [Lookup] returns what
    the root's converter makes of [str], reported as found, and
    [MustLookup] returns that same value; if the converter panics on
    [str], both panic with the converter's panic: no lower-precedence
    source is tried, and [MustLookup] does not report a missing option. *)
Theorem winning_text_converted_or_fatal {T} `{OptType T} (o : opt T) (s : State)
    (str : string) :
  allocated (heap s) (builder o) ->
  wins o s str ->
  Lookup o s = (found (getConvFunc (rootOf (builder o)) str), s) /\
  MustLookup o s = (getConvFunc (rootOf (builder o)) str, s) /\
  (forall pv, getConvFunc (rootOf (builder o)) str = Panic pv ->
              fst (Lookup o s) = Panic pv /\ fst (MustLookup o s) = Panic pv).
Proof.
  intros Ha Hw. pose proof (Lookup_wins o s str Ha Hw) as HL.
  assert (HM : MustLookup o s = (getConvFunc (rootOf (builder o)) str, s)).
  { unfold MustLookup.
    destruct (getConvFunc (rootOf (builder o)) str) as [v | pv | c]; simpl in HL.
    - now rewrite (bind_Ok _ _ _ _ _ HL).
    - now rewrite (bind_Panic _ _ _ _ _ HL).
    - now rewrite (bind_Exit _ _ _ _ _ HL). }
  split; [exact HL |]. split; [exact HM |].
  intros pv Hpv. rewrite HL, HM, Hpv. split; reflexivity.
Qed.

Lemma winning_text_converted_or_fatal_witness :
  fst (Lookup portOpt (portState false {["PORT" := "eighty"]}))
    = Panic (ParseFailed "int" "eighty") /\
  fst (MustLookup portOpt (portState false {["PORT" := "eighty"]}))
    = Panic (ParseFailed "int" "eighty").
Proof.
  refine (proj2 (proj2 (winning_text_converted_or_fatal portOpt
            (portState false {["PORT" := "eighty"]}) "eighty" _ _)) _ eq_refl).
  - simpl. lia.
  - right. left. split.
    + apply portState_flag_silent. now left.
    + exists "PORT". now vm_compute.
Defined.

(** X11. Typed roots.  Declarations from [BuildInt] and [BuildBool]
    complete and give options with a built chain on the root these
    functions return.  For an option on the root [BuildInt] returns, the
    winning text [str] gives [(i, true)] when [strconv.Atoi] reads it as
    [i] and the panic "failed to parse [str] into int" otherwise; on the
    root [BuildBool] returns it gives [(b, true)] when
    [strconv.ParseBool] reads it as [b] and the panic "failed to parse
    [str] into bool" otherwise. *)
Theorem typed_roots_parse (key str : string) (s s0 s0' : State) :
  (forall cs, exists o s1,
      declareOpt (BuildInt key) cs s0 = (Ok o, s1) /\
      BuildInt key s0 = (Ok (rootOf (builder o)), s0) /\
      allocated (heap s1) (builder o)) /\
  (forall cs, exists o s1,
      declareOpt (BuildBool key) cs s0 = (Ok o, s1) /\
      BuildBool key s0 = (Ok (rootOf (builder o)), s0) /\
      allocated (heap s1) (builder o)) /\
  (forall o : opt Z,
      BuildInt key s0 = (Ok (rootOf (builder o)), s0') ->
      allocated (heap s) (builder o) -> wins o s str ->
      fst (Lookup o s) = match strconv.Atoi str with
                         | Some i => Ok (i, true)
                         | None => Panic (ParseFailed "int" str)
                         end) /\
  (forall o : opt bool,
      BuildBool key s0 = (Ok (rootOf (builder o)), s0') ->
      allocated (heap s) (builder o) -> wins o s str ->
      fst (Lookup o s) = match strconv.ParseBool str with
                         | Some b => Ok (b, true)
                         | None => Panic (ParseFailed "bool" str)
                         end).
Proof.
  split; [| split; [| split]].
  - intros cs.
    destruct (declareOpt_built (BuildInt key) (bRoot key intConv) cs s0
                eq_refl eq_refl I) as (o & s1 & E & R & A).
    exists o, s1. split; [exact E |]. split; [| exact A]. rewrite R. reflexivity.
  - intros cs.
    destruct (declareOpt_built (BuildBool key) (bRoot key boolConv) cs s0
                eq_refl eq_refl I) as (o & s1 & E & R & A).
    exists o, s1. split; [exact E |]. split; [| exact A]. rewrite R. reflexivity.
  - intros o Hbuilt Ha Hw.
    assert (Hroot : rootOf (builder o) = bRoot key intConv).
    { unfold BuildInt, ret in Hbuilt. now inversion Hbuilt. }
    rewrite (Lookup_wins o s str Ha Hw), Hroot. simpl.
    unfold intConv. now destruct (strconv.Atoi str).
  - intros o Hbuilt Ha Hw.
    assert (Hroot : rootOf (builder o) = bRoot key boolConv).
    { unfold BuildBool, ret in Hbuilt. now inversion Hbuilt. }
    rewrite (Lookup_wins o s str Ha Hw), Hroot. simpl.
    unfold boolConv. now destruct (strconv.ParseBool str).
Qed.

Lemma typed_roots_parse_witness :
  fst (declareOpt (BuildBool "debug") [CallDefault "T"] initState)
    = Ok (mkOpt (bDefault (bRoot "debug" boolConv) "T")) /\
  fst (Lookup (mkOpt (bDefault (bRoot "debug" boolConv) "T")) initState)
    = Ok (true, true) /\
  fst (Lookup (mkOpt (bDefault (bRoot "debug" boolConv) "yes")) initState)
    = Panic (ParseFailed "bool" "yes") /\
  fst (Lookup (mkOpt (bDefault (bRoot "n" intConv) "12")) initState)
    = Ok (12%Z, true).
Proof.
  split; [reflexivity |]. split; [| split].
  - refine (proj2 (proj2 (proj2 (typed_roots_parse "debug" "T" initState initState
                                   initState)))
              (mkOpt (bDefault (bRoot "debug" boolConv) "T")) eq_refl I _).
    right. right. split; [| split; [| reflexivity]].
    + intros (x & n & sh & f & E & _). discriminate E.
    + intros (x & e & E & _). discriminate E.
  - refine (proj2 (proj2 (proj2 (typed_roots_parse "debug" "yes" initState initState
                                   initState)))
              (mkOpt (bDefault (bRoot "debug" boolConv) "yes")) eq_refl I _).
    right. right. split; [| split; [| reflexivity]].
    + intros (x & e & n & f & E & _). discriminate E.
    + intros (x & e & E & _). discriminate E.
  - refine (proj1 (proj2 (proj2 (typed_roots_parse "n" "12" initState initState
                                   initState)))
              (mkOpt (bDefault (bRoot "n" intConv) "12")) eq_refl I _).
    right. right. split; [| split; [| reflexivity]].
    + intros (x & e & n & f & E & _). discriminate E.
    + intros (x & e & E & _). discriminate E.
Defined.

(** ** Sources that are not configured *)

Lemma getFlag_no_link {T} (b : Builder T) s :
  flagLocs b = [] -> getFlag b s = (Ok ("", "", false), s).
Proof.
  induction b; simpl; intros E; auto.
  now destruct (flagLocs b).
Qed.

(** X12. Disabled sources.  An option whose chain has no flag link
    registers nothing (its before-parse hook changes nothing) and its
    value does not depend on the flag set; an option whose chain has no
    environment facet has a value that does not depend on the
    environment. *)
Theorem unconfigured_sources_ignored {T} `{OptType T} (o : opt T) (s : State) :
  (flagLocs (builder o) = [] ->
   opt_beforeParse o s = (Ok tt, s) /\
   forall fs, fst (Lookup o (set_CommandLine fs s)) = fst (Lookup o s)) /\
  (snd (getEnv (builder o)) = false ->
   allocated (heap s) (builder o) ->
   forall env, fst (Lookup o (set_environ env s)) = fst (Lookup o s)).
Proof.
  split.
  - intros Hl. split.
    + unfold opt_beforeParse. now rewrite beforeParse_registerAll, Hl.
    + intros fs.
      rewrite (Lookup_eval o _ "" "" false (getFlag_no_link _ _ Hl)).
      rewrite (Lookup_eval o s "" "" false (getFlag_no_link _ _ Hl)).
      reflexivity.
  - intros He Ha env.
    destruct (getFlag_allocated _ _ Ha) as (n & sh & ok & E).
    assert (E' : getFlag (builder o) (set_environ env s)
                 = (Ok (n, sh, ok), set_environ env s)).
    { pose proof (getFlag_heap_eq (builder o) s (set_environ env s) eq_refl) as Hf.
      pose proof (getFlag_state (builder o) (set_environ env s)) as Hs.
      destruct (getFlag (builder o) (set_environ env s)) as [r s'].
      simpl in *. rewrite E in Hf. simpl in Hf. now subst. }
    rewrite (Lookup_eval o _ n sh ok E'), (Lookup_eval o s n sh ok E).
    unfold winner, flagText, envText. simpl.
    destruct (getEnv (builder o)) as [e okE]. simpl in He. subst okE. reflexivity.
Qed.

Lemma unconfigured_sources_ignored_witness :
  opt_beforeParse retriesOpt (portState true ∅) = (Ok tt, portState true ∅) /\
  fst (Lookup (mkOpt (bDefault (bRoot "n" intConv) "7"))
         (set_environ {["N" := "8"]} initState)) = Ok (7%Z, true).
Proof.
  split.
  - exact (proj1 (proj1 (unconfigured_sources_ignored retriesOpt (portState true ∅))
                    eq_refl)).
  - rewrite (proj2 (unconfigured_sources_ignored
                      (mkOpt (bDefault (bRoot "n" intConv) "7")) initState)
               eq_refl I {["N" := "8"]}).
    reflexivity.
Defined.

Lemma Parse_frame_witness :
  pflag.Lookup "a" (CommandLine (snd (Parse (snd (Parse abcState))))) <> None /\
  pkgSet (snd (Parse abcState)) = pkgSet abcState.
Proof.
  split.
  - apply (proj2 (proj2 (proj2 (proj2 (Parse_frame (snd (Parse abcState))))))).
    discriminate.
  - exact (proj1 (Parse_frame abcState)).
Defined.

(** ** [Parse] is for one use *)

Lemma settled_mono {T} (bd : Builder T) p s s' :
  heap s' = heap s ->
  (forall n, registeredName n s -> registeredName n s') ->
  settled bd s p -> settled bd s' p.
Proof.
  intros Hh Hr [(c & Hc & Hn & Hreg) | (c & Hc & Hn & Hk)].
  - left. exists c. rewrite Hh. split; [assumption |]. split; [assumption |].
    now apply Hr.
  - right. exists c. rewrite Hh. auto.
Qed.

Lemma namedRegistered_mono p s s' :
  heap s' = heap s ->
  (forall n, registeredName n s -> registeredName n s') ->
  namedRegistered s p -> namedRegistered s' p.
Proof.
  intros Hh Hr (c & Hc & Hn & Hreg). exists c. rewrite Hh.
  split; [assumption |]. split; [assumption |]. now apply Hr.
Qed.

(** A hook that succeeds keeps the links of every option settled, also
    those of options with another key that share its struct. *)
Lemma registerFlag_Ok_preserves_settled {T T'} (bd : Builder T) (bd' : Builder T')
    p q s s' :
  registerFlag q bd' s = (Ok tt, s') -> settled bd s p -> settled bd s' p.
Proof.
  intros Hrun [Hr | (c & Hc & Hn & Hk)].
  - left. pose proof (registerFlag_preserves_namedRegistered q bd' s p Hr) as H.
    now rewrite Hrun in H.
  - destruct (registerFlag_heap_cases q bd' s) as [Hh | (c' & Hc' & Hn' & Hh)];
      rewrite Hrun in Hh; simpl in Hh.
    + right. exists c. rewrite Hh. auto.
    + destruct (decide (q = p)) as [-> | Hqp].
      * destruct (registerFlag_settles p bd' s s' Hrun) as [Hr | (-> & _)].
        -- now left.
        -- right. now exists c.
      * right. exists c. rewrite Hh, list_lookup_insert_ne by assumption. auto.
Qed.

Lemma registerAll_Ok_preserves_settled {T T'} (bd : Builder T) (bd' : Builder T')
    p ps : forall s s',
  registerAll ps bd' s = (Ok tt, s') -> settled bd s p -> settled bd s' p.
Proof.
  induction ps as [| q ps IH]; intros s s' Hrun Hp; simpl in Hrun.
  - unfold ret in Hrun. inversion Hrun; subst. exact Hp.
  - destruct (registerFlag q bd' s) as [[[] | v | e] s0] eqn:Eq.
    + rewrite (bind_Ok _ _ _ _ _ Eq) in Hrun.
      apply (IH s0 s' Hrun). exact (registerFlag_Ok_preserves_settled bd bd' p q s s0 Eq Hp).
    + rewrite (bind_Panic _ _ _ _ _ Eq) in Hrun. discriminate.
    + rewrite (bind_Exit _ _ _ _ _ Eq) in Hrun. discriminate.
Qed.

Lemma emit_settled {T} (bd : Builder T) p e s :
  settled bd s p -> settled bd (snd (emit e s)) p.
Proof. apply settled_mono; [reflexivity | auto]. Qed.

(** One turn of the first loop, when it succeeds. *)
Lemma beforeBody_Ok i r s s' :
  beforeBody i r s = (Ok tt, s') ->
  registerAll (flagLocs (builder (regOpt r))) (builder (regOpt r))
    (set_trace (trace s ++ [EvBeforeParse r]) s) = (Ok tt, s').
Proof.
  unfold beforeBody, opt_beforeParse. intros Hrun.
  rewrite (bind_Ok (emit (EvBeforeParse r)) _ s tt
             (set_trace (trace s ++ [EvBeforeParse r]) s) eq_refl) in Hrun.
  now rewrite beforeParse_registerAll in Hrun.
Qed.

Lemma beforeLoop_Ok_preserves_settled {T} (bd : Builder T) p l : forall i s s',
  forRange beforeBody i l s = (Ok tt, s') -> settled bd s p -> settled bd s' p.
Proof.
  induction l as [| r l IH]; intros i s s' Hrun Hp; simpl in Hrun.
  - unfold ret in Hrun. inversion Hrun; subst. exact Hp.
  - destruct (beforeBody i r s) as [[[] | v | e] s0] eqn:Er.
    + rewrite (bind_Ok _ _ _ _ _ Er) in Hrun. apply (IH (S i) s0 s' Hrun).
      apply beforeBody_Ok in Er.
      apply (registerAll_Ok_preserves_settled bd _ p _ _ _ Er).
      now apply (emit_settled bd p (EvBeforeParse r) s).
    + rewrite (bind_Panic _ _ _ _ _ Er) in Hrun. discriminate.
    + rewrite (bind_Exit _ _ _ _ _ Er) in Hrun. discriminate.
Qed.

(** After a first loop that succeeds, every link of every option is
    settled. *)
Lemma beforeLoop_settles l : forall i s s',
  forRange beforeBody i l s = (Ok tt, s') -> allSettled l s'.
Proof.
  induction l as [| r l IH]; intros i s s' Hrun; simpl in Hrun; [constructor |].
  destruct (beforeBody i r s) as [[[] | v | e] s0] eqn:Er.
  - rewrite (bind_Ok _ _ _ _ _ Er) in Hrun. constructor; [| now apply (IH (S i) s0)].
    apply beforeBody_Ok in Er. apply registerAll_settles in Er.
    apply Forall_forall. intros p Hp.
    apply (beforeLoop_Ok_preserves_settled _ p l (S i) s0 s' Hrun).
    now apply (proj1 (Forall_forall _ _) Er).
  - rewrite (bind_Panic _ _ _ _ _ Er) in Hrun. discriminate.
  - rewrite (bind_Exit _ _ _ _ _ Er) in Hrun. discriminate.
Qed.

Lemma allSettled_mono l s s' :
  heap s' = heap s ->
  (forall n, registeredName n s -> registeredName n s') ->
  allSettled l s -> allSettled l s'.
Proof.
  intros Hh Hr Hall. unfold allSettled in *.
  eapply Forall_impl; [exact Hall |]. intros r Hl.
  eapply Forall_impl; [exact Hl |]. intros p. now apply settled_mono.
Qed.

(** The first loop on settled links: it stops with "flag redefined" at
    the first option that has a registered link. *)
Lemma beforeLoop_settled_panics l : forall i s,
  allSettled l s ->
  (exists r p, In r l /\ In p (flagLocs (builder (regOpt r))) /\ namedRegistered s p) ->
  exists nm s', forRange beforeBody i l s = (Panic (FlagRedefined nm), s').
Proof.
  induction l as [| r l IH]; intros i s Hall (r0 & p & Hin & Hp & Hnr);
    [contradiction |].
  inversion Hall as [| ? ? Hr Hl]; subst. simpl.
  set (se := set_trace (trace s ++ [EvBeforeParse r]) s).
  assert (Hmono : forall n, registeredName n s -> registeredName n se) by auto.
  assert (Ebody : beforeBody i r s
                  = registerAll (flagLocs (builder (regOpt r))) (builder (regOpt r)) se).
  { unfold beforeBody, opt_beforeParse.
    rewrite (bind_Ok (emit (EvBeforeParse r)) _ s tt se eq_refl).
    apply beforeParse_registerAll. }
  assert (Hr' : Forall (settled (builder (regOpt r)) se) (flagLocs (builder (regOpt r)))).
  { eapply Forall_impl; [exact Hr |]. intros q. now apply settled_mono. }
  destruct (registerAll_settled _ _ se Hr') as [[Eok Hempty] | [nm Epanic]].
  - assert (Eb : beforeBody i r s = (Ok tt, se)) by (now rewrite Ebody).
    rewrite (bind_Ok _ _ _ _ _ Eb).
    apply IH; [now apply (allSettled_mono l s) |].
    destruct Hin as [<- | Hin].
    + exfalso. apply (proj1 (List.Forall_forall _ _) Hempty) in Hp as (c & Hc & Hn & _).
      destruct Hnr as (c' & Hc' & Hn' & _). simpl in Hc. congruence.
    + exists r0, p. split; [assumption |]. split; [assumption |].
      now apply (namedRegistered_mono p s se).
  - exists nm, se. apply bind_Panic. now rewrite Ebody.
Qed.

Lemma keeps_heap_lookup {A} p c (m : M A) :
  keeps heap m -> preserves (fun s => heap s !! p = Some c) m.
Proof. intros Hm s HP. now rewrite Hm. Qed.

Lemma registerAll_keeps_named {T} ps (bd : Builder T) p c :
  flagName c <> "" -> preserves (fun s => heap s !! p = Some c) (registerAll ps bd).
Proof.
  intros Hn. induction ps as [| q ps IH]; simpl; [intros s HP; exact HP |].
  apply preserves_bind; [| intros _; exact IH].
  intros s HP. now apply registerFlag_keeps_named.
Qed.

(** A struct that has a name goes through [Parse] unchanged. *)
Lemma Parse_keeps_named p c :
  flagName c <> "" -> preserves (fun s => heap s !! p = Some c) Parse.
Proof.
  intros Hn. unfold Parse.
  apply preserves_bind; [apply keeps_heap_lookup; auto with keeps |].
  intros set. apply preserves_bind.
  { apply forRange_preserves. intros i o.
    apply preserves_bind; [apply keeps_heap_lookup; auto with keeps |].
    intros _ s HP. unfold opt_beforeParse. rewrite beforeParse_registerAll.
    now apply registerAll_keeps_named. }
  intros _. apply preserves_bind; [apply keeps_heap_lookup; auto with keeps |].
  intros _. apply preserves_bind; [apply keeps_heap_lookup; auto with keeps |].
  intros args. apply preserves_bind; [apply keeps_heap_lookup; auto with keeps |].
  intros _. apply preserves_bind; [apply keeps_heap_lookup; auto with keeps |].
  intros set'. apply forRange_preserves. intros i o.
  apply preserves_bind; [apply keeps_heap_lookup; auto with keeps |].
  intros _. apply keeps_heap_lookup. apply afterParse_keeps.
Qed.

(** The stages of a [Parse] that succeeds. *)
Lemma Parse_Ok_inv s s1 :
  Parse s = (Ok tt, s1) ->
  exists sa,
    forRange beforeBody 0 (pkgSet s) s = (Ok tt, sa) /\
    heap s1 = heap sa /\
    (forall n, registeredName n sa -> registeredName n s1) /\
    pkgSet s1 = pkgSet s.
Proof.
  intros Hrun.
  assert (Hpk : pkgSet s1 = pkgSet s).
  { pose proof (Parse_keeps_frame pkgSet (fun _ _ => eq_refl) (fun _ _ => eq_refl)
                  (fun _ _ => eq_refl) s) as H. now rewrite Hrun in H. }
  unfold Parse in Hrun. rewrite (bind_Ok (gets pkgSet) _ s (pkgSet s) s eq_refl) in Hrun.
  change (fun _ o => emit (EvBeforeParse o) ;;; opt_beforeParse (regOpt o))
    with beforeBody in Hrun.
  destruct (forRange beforeBody 0 (pkgSet s) s) as [[[] | v | e] sa] eqn:E1.
  2: { rewrite (bind_Panic _ _ _ _ _ E1) in Hrun. discriminate. }
  2: { rewrite (bind_Exit _ _ _ _ _ E1) in Hrun. discriminate. }
  rewrite (bind_Ok _ _ _ _ _ E1) in Hrun.
  exists sa. split; [reflexivity |].
  set (s2 := set_trace (trace sa ++ [EvFlagParse]) sa) in *.
  rewrite (bind_Ok (emit EvFlagParse) _ sa tt s2 eq_refl) in Hrun.
  rewrite (bind_Ok (gets Args) _ s2 (Args s2) s2 eq_refl) in Hrun.
  destruct (onCommandLine (pflag.Parse (Args s2)) s2) as [[[] | v | e] s3] eqn:E3.
  2: { rewrite (bind_Panic _ _ _ _ _ E3) in Hrun. discriminate. }
  2: { rewrite (bind_Exit _ _ _ _ _ E3) in Hrun. discriminate. }
  rewrite (bind_Ok _ _ _ _ _ E3) in Hrun.
  rewrite (bind_Ok (gets pkgSet) _ s3 (pkgSet s3) s3 eq_refl) in Hrun.
  assert (Hafter : forall (f : State -> pflag.FlagSet + list bFlagCell),
             (forall t s, f (set_trace t s) = f s) ->
             f s1 = f s3).
  { intros f Hf.
    assert (K : keeps f (forRange (fun _ o => emit (EvAfterParse o) ;;;
                                              opt_afterParse (regOpt o)) 0 (pkgSet s3))).
    { apply forRange_keeps. intros i o. apply keeps_bind.
      - intros s0. unfold emit, modify. simpl. apply Hf.
      - intros _. apply afterParse_keeps. }
    specialize (K s3). now rewrite Hrun in K. }
  pose proof (Hafter (fun s => inr (heap s)) (fun _ _ => eq_refl)) as Hh.
  pose proof (Hafter (fun s => inl (CommandLine s)) (fun _ _ => eq_refl)) as Hc.
  simpl in Hh, Hc. inversion Hh as [Hh']. inversion Hc as [Hc'].
  pose proof (onCommandLine_keeps_heap (pflag.Parse (Args s2)) s2) as Hh3.
  rewrite E3 in Hh3. simpl in Hh3.
  split; [| split; [| exact Hpk]].
  - now rewrite Hh', Hh3.
  - intros n Hn. unfold registeredName in *. rewrite Hc'.
    unfold onCommandLine in E3.
    pose proof (pflag_Parse_Lookup_Some n (Args s2) (CommandLine s2) Hn) as Hs.
    destruct (pflag.Parse (Args s2) (CommandLine s2)) as [r fs]. inversion E3; subst.
    exact Hs.
Qed.

(** X13. [Parse] may be called once.  If [Parse] has completed and some
    registered option has a flag link with a non-empty effective name,
    a second call of [Parse] panics in the flag library with "flag
    redefined", during the before-parse phase. *)
Theorem Parse_not_repeatable (s s1 : State) :
  Parse s = (Ok tt, s1) ->
  (exists r p c, In r (pkgSet s) /\ In p (flagLocs (builder (regOpt r))) /\
                 heap s !! p = Some c /\ linkName c (builder (regOpt r)) <> "") ->
  exists nm, fst (Parse s1) = Panic (FlagRedefined nm).
Proof.
  intros Hrun (r & p & c & Hr & Hp & Hc & Hne).
  destruct (Parse_Ok_inv s s1 Hrun) as (sa & Eloop & Hh & Hreg & Hpk).
  assert (Hall : allSettled (pkgSet s) s1).
  { apply (allSettled_mono _ sa); [assumption | assumption |].
    now apply (beforeLoop_settles _ 0 s). }
  assert (Hnr : namedRegistered s1 p).
  { pose proof (proj1 (List.Forall_forall _ _) Hall r Hr) as Hlinks.
    destruct (proj1 (List.Forall_forall _ _) Hlinks p Hp)
      as [Hnr | (c1 & Hc1 & Hn1 & Hk)]; [exact Hnr | exfalso].
    assert (Hn : flagName c <> "").
    { intros Hn. apply Hne. unfold linkName. now rewrite Hn, Hk. }
    pose proof (Parse_keeps_named p c Hn s Hc) as Hkeep.
    rewrite Hrun in Hkeep. simpl in Hkeep. congruence. }
  destruct (beforeLoop_settled_panics (pkgSet s) 0 s1 Hall)
    as (nm & s' & Epanic); [now exists r, p |].
  exists nm. unfold Parse.
  rewrite (bind_Ok (gets pkgSet) _ s1 (pkgSet s1) s1 eq_refl). rewrite Hpk.
  change (fun _ o => emit (EvBeforeParse o) ;;; opt_beforeParse (regOpt o))
    with beforeBody.
  now rewrite (bind_Panic _ _ _ _ _ Epanic).
Qed.

Lemma Parse_not_repeatable_witness :
  exists nm, fst (Parse (snd (Parse abcState))) = Panic (FlagRedefined nm).
Proof.
  apply (Parse_not_repeatable abcState (snd (Parse abcState))).
  - reflexivity.
  - exists (mkRegistered string optC), 2%nat, (mkFlagCell "cc" "" false false false).
    split; [| split; [| split]].
    + simpl. auto.
    + simpl. auto.
    + reflexivity.
    + discriminate.
Defined.

(** ** [Parse] with a shared flag link *)

Lemma registerAll_neverExits {T} ps (bd : Builder T) : neverExits (registerAll ps bd).
Proof.
  induction ps as [| p ps IH]; simpl; [apply neverExits_ret |].
  apply neverExits_bind; [apply registerFlag_neverExits | intros _; exact IH].
Qed.

Lemma registerFlag_preserves_linkNamed {T T'} (bd : Builder T) (bd' : Builder T')
    p q s :
  linkNamed bd p s -> linkNamed bd p (snd (registerFlag q bd' s)).
Proof.
  intros (c & Hc & Hne). unfold linkNamed.
  destruct (registerFlag_heap_cases q bd' s) as [-> | (c' & Hc' & Hn' & ->)];
    [now exists c |].
  destruct (decide (q = p)) as [-> | Hqp].
  - rewrite list_lookup_insert_eq by (now apply lookup_lt_Some in Hc').
    rewrite Hc in Hc'. inversion Hc'; subst c'.
    exists (namedCell c bd'). split; [reflexivity |].
    unfold linkName in Hne. rewrite Hn' in Hne. simpl in Hne.
    unfold linkName at 1. simpl.
    destruct (String.eqb_spec (linkName c bd') ""); assumption.
  - exists c. now rewrite list_lookup_insert_ne.
Qed.

Lemma registerAll_preserves_linkNamed {T T'} (bd : Builder T) (bd' : Builder T')
    p ps : forall s,
  linkNamed bd p s -> linkNamed bd p (snd (registerAll ps bd' s)).
Proof.
  induction ps as [| q ps IH]; intros s Hp; simpl; [assumption |].
  pose proof (registerFlag_preserves_linkNamed bd bd' p q s Hp) as Hp'.
  unfold bind. destruct (registerFlag q bd' s) as [[[] | v | e] s']; simpl in *;
    [now apply IH | assumption ..].
Qed.

Lemma beforeBody_eq i r s :
  beforeBody i r s
    = registerAll (flagLocs (builder (regOpt r))) (builder (regOpt r))
        (set_trace (trace s ++ [EvBeforeParse r]) s).
Proof.
  unfold beforeBody, opt_beforeParse.
  rewrite (bind_Ok (emit (EvBeforeParse r)) _ s tt
             (set_trace (trace s ++ [EvBeforeParse r]) s) eq_refl).
  apply beforeParse_registerAll.
Qed.

(** Once the shared flag is registered, the loop panics at the next
    option that holds the link, if not before. *)
Lemma beforeLoop_registered_panics p l : forall i s,
  namedRegistered s p ->
  (exists r, In r l /\ In p (flagLocs (builder (regOpt r)))) ->
  exists v s', forRange beforeBody i l s = (Panic v, s').
Proof.
  induction l as [| r l IH]; intros i s Hnr (r2 & Hin & Hp); [contradiction |].
  simpl.
  set (se := set_trace (trace s ++ [EvBeforeParse r]) s).
  assert (Hnr' : namedRegistered se p) by (apply (namedRegistered_mono p s); auto).
  pose proof (beforeBody_eq i r s) as Eb. fold se in Eb.
  destruct Hin as [<- | Hin].
  - destruct (registerAll_panics _ (builder (regOpt r)) p Hp se Hnr') as (v & Hv).
    destruct (registerAll (flagLocs (builder (regOpt r))) (builder (regOpt r)) se)
      as [r0 s0] eqn:E0. simpl in Hv. subst r0.
    exists v, s0. apply bind_Panic. now rewrite Eb.
  - pose proof (registerAll_preserves_namedRegistered
                  (flagLocs (builder (regOpt r))) (builder (regOpt r)) p se Hnr') as Hnr0.
    pose proof (registerAll_neverExits (flagLocs (builder (regOpt r)))
                  (builder (regOpt r)) se) as Hex.
    destruct (registerAll (flagLocs (builder (regOpt r))) (builder (regOpt r)) se)
      as [[[] | v | e] s0] eqn:E0; simpl in *.
    + rewrite (bind_Ok _ _ _ _ _ Eb). apply IH; [assumption | now exists r2].
    + exists v, s0. now apply bind_Panic.
    + exfalso. now apply (Hex e).
Qed.

(** Before the first holder of the link has run, the link keeps a
    non-empty effective name for it. *)
Lemma beforeLoop_shared_panics (r1 : Registered) p l1 : forall l2 i s,
  In p (flagLocs (builder (regOpt r1))) ->
  linkNamed (builder (regOpt r1)) p s ->
  (exists r2, In r2 l2 /\ In p (flagLocs (builder (regOpt r2)))) ->
  exists v s', forRange beforeBody i (l1 ++ r1 :: l2) s = (Panic v, s').
Proof.
  induction l1 as [| r l1 IH]; intros l2 i s Hp1 Hln H2; simpl.
  - set (se := set_trace (trace s ++ [EvBeforeParse r1]) s).
    assert (Hln' : linkNamed (builder (regOpt r1)) p se) by exact Hln.
    pose proof (beforeBody_eq i r1 s) as Eb. fold se in Eb.
    pose proof (registerAll_neverExits (flagLocs (builder (regOpt r1)))
                  (builder (regOpt r1)) se) as Hex.
    destruct (registerAll (flagLocs (builder (regOpt r1))) (builder (regOpt r1)) se)
      as [[[] | v | e] s0] eqn:E0; simpl in *.
    + rewrite (bind_Ok _ _ _ _ _ Eb).
      apply (beforeLoop_registered_panics p); [| exact H2].
      destruct Hln' as (c & Hc & Hne).
      exact (registerAll_registers_link _ _ p Hp1 se s0 c Hc Hne E0).
    + exists v, s0. now apply bind_Panic.
    + exfalso. now apply (Hex e).
  - set (se := set_trace (trace s ++ [EvBeforeParse r]) s).
    assert (Hln' : linkNamed (builder (regOpt r1)) p se) by exact Hln.
    pose proof (beforeBody_eq i r s) as Eb. fold se in Eb.
    pose proof (registerAll_preserves_linkNamed (builder (regOpt r1))
                  (builder (regOpt r)) p (flagLocs (builder (regOpt r))) se Hln') as Hln0.
    pose proof (registerAll_neverExits (flagLocs (builder (regOpt r)))
                  (builder (regOpt r)) se) as Hex.
    destruct (registerAll (flagLocs (builder (regOpt r))) (builder (regOpt r)) se)
      as [[[] | v | e] s0] eqn:E0; simpl in *.
    + rewrite (bind_Ok _ _ _ _ _ Eb). now apply IH.
    + exists v, s0. now apply bind_Panic.
    + exfalso. now apply (Hex e).
Qed.

(** X14. [Parse] and shared flag links.  If two registered options hold
    the same flag link (they were built on a common prefix that contains
    it) and the link has a non-empty effective name for the first of
    them, [Parse] panics during its before-parse phase: it never reaches
    the external parse step. *)
Theorem Parse_shared_flag_link_panics (s : State) (i j : nat) (r1 r2 : Registered)
    (p : loc) :
  (i < j)%nat ->
  pkgSet s !! i = Some r1 ->
  pkgSet s !! j = Some r2 ->
  In p (flagLocs (builder (regOpt r1))) ->
  In p (flagLocs (builder (regOpt r2))) ->
  linkNamed (builder (regOpt r1)) p s ->
  (exists v, fst (Parse s) = Panic v) /\
  ~ In EvFlagParse (skipn (length (trace s)) (trace (snd (Parse s)))).
Proof.
  intros Hij Hi Hj Hp1 Hp2 Hln.
  assert (Hsplit : pkgSet s = take i (pkgSet s) ++ r1 :: drop (S i) (pkgSet s)).
  { symmetry. now apply take_drop_middle. }
  assert (H2 : exists r, In r (drop (S i) (pkgSet s)) /\
                         In p (flagLocs (builder (regOpt r)))).
  { exists r2. split; [| assumption]. apply list_elem_of_In.
    apply (list_elem_of_lookup_2 _ (j - S i)).
    rewrite lookup_drop. replace (S i + (j - S i))%nat with j by lia. exact Hj. }
  destruct (beforeLoop_shared_panics r1 p (take i (pkgSet s)) (drop (S i) (pkgSet s))
              0 s Hp1 Hln H2) as (v & s' & Epanic).
  rewrite <- Hsplit in Epanic.
  assert (HP : Parse s = (Panic v, s')).
  { unfold Parse. rewrite (bind_Ok (gets pkgSet) _ s (pkgSet s) s eq_refl).
    change (fun _ o => emit (EvBeforeParse o) ;;; opt_beforeParse (regOpt o))
      with beforeBody.
    now rewrite (bind_Panic _ _ _ _ _ Epanic). }
  split; [exists v; now rewrite HP |].
  rewrite HP. simpl.
  destruct (forRange_trace EvBeforeParse _ opt_beforeParse_keeps_trace
              (pkgSet s) 0 s (Panic v) s' Epanic) as (k & _ & Ht & _).
  rewrite Ht, drop_app_length. intros Hin.
  apply in_map_iff in Hin as (x & Hx & _). discriminate.
Qed.

Lemma Parse_shared_flag_link_panics_witness :
  exists v, fst (Parse siblingState) = Panic v.
Proof.
  refine (proj1 (Parse_shared_flag_link_panics siblingState 0 1
                   (mkRegistered string siblingA) (mkRegistered string siblingB) 0
                   _ eq_refl eq_refl _ _ _)).
  - lia.
  - simpl. auto.
  - simpl. auto.
  - exists (mkFlagCell "f" "" false false false). split; [reflexivity | discriminate].
Defined.

(** * Registration order *)

Lemma StringP_Ok_inv n sh d u fs fs' :
  pflag.StringP n sh d u fs = (Ok tt, fs') ->
  pflag.Lookup n fs = None /\ fs' = fs ++ [pflag.mkFlag n sh u d d false []].
Proof.
  unfold pflag.StringP. destruct (pflag.Lookup n fs); [discriminate |].
  destruct (String.eqb sh ""); [now inversion 1 |].
  destruct (1 <? String.length sh)%nat; [discriminate |].
  destruct (pflag.shorthandUsed sh fs); [discriminate | now inversion 1].
Qed.

Lemma SetAnnotation_names n a fs :
  map pflag.Name (pflag.SetAnnotation n a fs) = map pflag.Name fs.
Proof.
  unfold pflag.SetAnnotation. rewrite map_map. apply map_ext. intros f.
  destruct (String.eqb (pflag.Name f) n); [| reflexivity].
  unfold pflag.annotate. now destruct (existsb _ _).
Qed.

Lemma Set_names n v fs : map pflag.Name (pflag.Set_ n v fs) = map pflag.Name fs.
Proof.
  unfold pflag.Set_. rewrite map_map. apply map_ext. intros f.
  now destruct (String.eqb (pflag.Name f) n).
Qed.

Lemma pflag_Parse_names args : forall fs,
  map pflag.Name (snd (pflag.Parse args fs)) = map pflag.Name fs.
Proof.
  induction args as [| a args IH]; intros fs; simpl; [reflexivity |].
  destruct (pflag.Lookup (pflag.argName a) fs); [| reflexivity].
  now rewrite IH, Set_names.
Qed.

Lemma mark_Ok_names (c : bool) (n : string) (a : pflag.Annotation) (m : string -> M unit)
    s :
  m = (fun n => onCommandLine (fun fs => (Ok tt, pflag.SetAnnotation n a fs))) ->
  exists s', (if c then m n else ret tt) s = (Ok tt, s') /\
             map pflag.Name (CommandLine s') = map pflag.Name (CommandLine s).
Proof.
  intros ->. destruct c.
  - eexists. split; [reflexivity |]. simpl. apply SetAnnotation_names.
  - exists s. split; reflexivity.
Qed.

(** A registration that completes has added the name at the end. *)
Lemma registerBlock_Ok_names n sh def usage d f r s s' :
  registerBlock n sh def usage d f r s = (Ok tt, s') ->
  map pflag.Name (CommandLine s') = map pflag.Name (CommandLine s) ++ [n].
Proof.
  unfold registerBlock. intros Hrun.
  destruct (onCommandLine (pflag.StringP n sh def usage) s) as [[[] | v | e] s1] eqn:E1.
  2: { rewrite (bind_Panic _ _ _ _ _ E1) in Hrun. discriminate. }
  2: { rewrite (bind_Exit _ _ _ _ _ E1) in Hrun. discriminate. }
  rewrite (bind_Ok _ _ _ _ _ E1) in Hrun.
  assert (H1 : map pflag.Name (CommandLine s1) = map pflag.Name (CommandLine s) ++ [n]).
  { unfold onCommandLine in E1.
    destruct (pflag.StringP n sh def usage (CommandLine s)) as [r1 fs1] eqn:EP.
    inversion E1; subst. simpl.
    destruct (StringP_Ok_inv _ _ _ _ _ _ EP) as [_ ->]. now rewrite map_app. }
  destruct (mark_Ok_names d n pflag.SubdirsInDir cobra.MarkFlagDirname s1 eq_refl)
    as (s2 & E2 & H2).
  rewrite (bind_Ok _ _ _ _ _ E2) in Hrun.
  destruct (mark_Ok_names f n pflag.FilenameExt cobra.MarkFlagFilename s2 eq_refl)
    as (s3 & E3 & H3).
  rewrite (bind_Ok _ _ _ _ _ E3) in Hrun.
  destruct (mark_Ok_names r n pflag.OneRequiredFlag cobra.MarkFlagRequired s3 eq_refl)
    as (s4 & E4 & H4).
  rewrite E4 in Hrun. inversion Hrun; subst s4.
  now rewrite H4, H3, H2, H1.
Qed.

(** The hook of one flag link, run on a struct no hook has written:
    when it completes it has added the effective name of the link, if
    there is one, and it has written no struct but its own, which then
    has a registered name. *)
Lemma registerFlag_Ok_names {T} p (bd : Builder T) h s s' :
  untouched h s ->
  registerFlag p bd s = (Ok tt, s') ->
  untouched h s' /\
  map pflag.Name (CommandLine s')
    = map pflag.Name (CommandLine s) ++ hookNames h bd [p].
Proof.
  intros Hinv Hrun.
  destruct (heap s !! p) as [c |] eqn:Hc.
  2: { unfold registerFlag, bind, deref in Hrun. rewrite Hc in Hrun. discriminate. }
  assert (Hh : h !! p = Some c).
  { destruct (Hinv p) as [Heq | (c' & Hc' & Hn & Hreg)]; [congruence |].
    rewrite (registerFlag_redefined p bd s c' Hc' Hn Hreg) in Hrun. discriminate. }
  split.
  - intros q. destruct (Hinv q) as [Heq | Hnr].
    + destruct (decide (q = p)) as [-> | Hqp].
      * destruct (registerFlag_settles p bd s s' Hrun) as [Hs | [-> _]];
          [now right | now left].
      * left. rewrite <- Heq.
        pose proof (registerFlag_heap_cases p bd s) as Hcases. rewrite Hrun in Hcases.
        simpl in Hcases. destruct Hcases as [-> | (c' & _ & _ & ->)]; [reflexivity |].
        now apply list_lookup_insert_ne.
    + right. pose proof (registerFlag_preserves_namedRegistered p bd s q Hnr) as Hp.
      now rewrite Hrun in Hp.
  - unfold hookNames. simpl. rewrite Hh, app_nil_r.
    rewrite (registerFlag_unfold p bd c s Hc) in Hrun.
    destruct (String.eqb (linkName c bd) "") eqn:En.
    + unfold ret in Hrun. inversion Hrun; subst. simpl. now rewrite app_nil_r.
    + apply registerBlock_Ok_names in Hrun. exact Hrun.
Qed.

Lemma registerAll_Ok_names {T} (bd : Builder T) h ps : forall s s',
  untouched h s ->
  registerAll ps bd s = (Ok tt, s') ->
  untouched h s' /\
  map pflag.Name (CommandLine s')
    = map pflag.Name (CommandLine s) ++ hookNames h bd ps.
Proof.
  induction ps as [| p ps IH]; intros s s' Hinv Hrun; simpl in Hrun.
  - unfold ret in Hrun. inversion Hrun; subst. split; [exact Hinv |].
    unfold hookNames. simpl. now rewrite app_nil_r.
  - destruct (registerFlag p bd s) as [[[] | v | e] s1] eqn:E1.
    2: { rewrite (bind_Panic _ _ _ _ _ E1) in Hrun. discriminate. }
    2: { rewrite (bind_Exit _ _ _ _ _ E1) in Hrun. discriminate. }
    rewrite (bind_Ok _ _ _ _ _ E1) in Hrun.
    destruct (registerFlag_Ok_names p bd h s s1 Hinv E1) as [Hinv1 Hn1].
    destruct (IH s1 s' Hinv1 Hrun) as [Hinv' Hn'].
    split; [exact Hinv' |]. rewrite Hn', Hn1, <- app_assoc. f_equal.
    unfold hookNames. simpl. now rewrite app_nil_r.
Qed.

(** The first loop of [Parse]: when it completes, the options have
    registered their flags one option after the other, in the order of
    the registry. *)
Lemma beforeLoop_Ok_names h l : forall i s s',
  untouched h s ->
  forRange beforeBody i l s = (Ok tt, s') ->
  untouched h s' /\
  map pflag.Name (CommandLine s')
    = map pflag.Name (CommandLine s) ++ flat_map (optFlagNames h) l.
Proof.
  induction l as [| r l IH]; intros i s s' Hinv Hrun; simpl in Hrun.
  - unfold ret in Hrun. inversion Hrun; subst. split; [exact Hinv |].
    simpl. now rewrite app_nil_r.
  - destruct (beforeBody i r s) as [[[] | v | e] s1] eqn:E1.
    2: { rewrite (bind_Panic _ _ _ _ _ E1) in Hrun. discriminate. }
    2: { rewrite (bind_Exit _ _ _ _ _ E1) in Hrun. discriminate. }
    rewrite (bind_Ok _ _ _ _ _ E1) in Hrun.
    apply beforeBody_Ok in E1.
    assert (Hinv0 : untouched h (set_trace (trace s ++ [EvBeforeParse r]) s))
      by exact Hinv.
    destruct (registerAll_Ok_names _ h _ _ _ Hinv0 E1) as [Hinv1 Hn1].
    destruct (IH (S i) s1 s' Hinv1 Hrun) as [Hinv' Hn'].
    split; [exact Hinv' |]. simpl. rewrite Hn', Hn1. simpl. now rewrite <- app_assoc.
Qed.

(** A run of [Parse] that completes: the first loop completes, the
    external parse step is applied to the flag set the loop leaves, and
    its result is the final flag set. *)
Lemma Parse_Ok_phases s s1 :
  Parse s = (Ok tt, s1) ->
  exists sa,
    forRange beforeBody 0 (pkgSet s) s = (Ok tt, sa) /\
    pflag.Parse (Args s) (CommandLine sa) = (Ok tt, CommandLine s1).
Proof.
  intros Hrun.
  unfold Parse in Hrun. rewrite (bind_Ok (gets pkgSet) _ s (pkgSet s) s eq_refl) in Hrun.
  change (fun _ o => emit (EvBeforeParse o) ;;; opt_beforeParse (regOpt o))
    with beforeBody in Hrun.
  destruct (forRange beforeBody 0 (pkgSet s) s) as [[[] | v | e] sa] eqn:E1.
  2: { rewrite (bind_Panic _ _ _ _ _ E1) in Hrun. discriminate. }
  2: { rewrite (bind_Exit _ _ _ _ _ E1) in Hrun. discriminate. }
  rewrite (bind_Ok _ _ _ _ _ E1) in Hrun.
  exists sa. split; [reflexivity |].
  assert (HA : Args sa = Args s).
  { assert (K : keeps Args (forRange beforeBody 0 (pkgSet s))).
    { apply forRange_keeps. intros i o. unfold beforeBody. apply keeps_bind.
      - apply (emit_keeps_frame Args). intros; reflexivity.
      - intros _. apply (beforeParse_keeps_frame Args); intros; reflexivity. }
    specialize (K s). now rewrite E1 in K. }
  set (s2 := set_trace (trace sa ++ [EvFlagParse]) sa) in *.
  rewrite (bind_Ok (emit EvFlagParse) _ sa tt s2 eq_refl) in Hrun.
  rewrite (bind_Ok (gets Args) _ s2 (Args s2) s2 eq_refl) in Hrun.
  destruct (onCommandLine (pflag.Parse (Args s2)) s2) as [[[] | v | e] s3] eqn:E3.
  2: { rewrite (bind_Panic _ _ _ _ _ E3) in Hrun. discriminate. }
  2: { rewrite (bind_Exit _ _ _ _ _ E3) in Hrun. discriminate. }
  rewrite (bind_Ok _ _ _ _ _ E3) in Hrun.
  rewrite (bind_Ok (gets pkgSet) _ s3 (pkgSet s3) s3 eq_refl) in Hrun.
  assert (Hc : CommandLine s1 = CommandLine s3).
  { assert (K : keeps CommandLine
                  (forRange (fun _ o => emit (EvAfterParse o) ;;;
                                        opt_afterParse (regOpt o)) 0 (pkgSet s3))).
    { apply forRange_keeps. intros i o. apply keeps_bind.
      - intros s0. reflexivity.
      - intros _. apply afterParse_keeps. }
    specialize (K s3). now rewrite Hrun in K. }
  rewrite Hc. unfold onCommandLine in E3.
  change (Args s2) with (Args sa) in E3. change (CommandLine s2) with (CommandLine sa) in E3.
  rewrite HA in E3.
  destruct (pflag.Parse (Args s) (CommandLine sa)) as [r fs]. now inversion E3.
Qed.



(** * Properties of the callback generation *)

Section LegacyInit.
Context {T : Type} `{legacy.OptType T}.

Lemma legacy_assign_ok (x x0 : T) (o : legacy.opt T) :
  legacy.v o = Some x0 ->
  legacy.assign x o = (legacy.Done tt, legacy.set_v x o).
Proof. unfold legacy.assign. now intros ->. Qed.

Lemma legacy_initBody_once (o : legacy.opt T) (w : legacy.World) :
  legacy.once o = true ->
  legacy.once (snd (legacy.initBody o w)) = true.
Proof.
  intros Ho.
  assert (Ha : forall x, legacy.once (snd (legacy.assign x o)) = true).
  { intros x. unfold legacy.assign. destruct (legacy.v o); simpl; exact Ho. }
  assert (He : legacy.once (snd (legacy.initFromEnv o w)) = true).
  { unfold legacy.initFromEnv.
    destruct (negb (String.eqb (legacy.envName o) "")); [| apply Ha].
    destruct (legacy.LookupEnv (legacy.envName o) w) as [strV|]; [| apply Ha].
    destruct (legacy.envParseFunc o strV) as [[fn input]|envV]; [exact Ho | apply Ha]. }
  unfold legacy.initBody.
  destruct (negb (String.eqb (legacy.flagName o) "")); [| exact He].
  destruct (legacy.derefFlag o w) as [f|]; [| exact Ho].
  destruct (pflag.Changed f); [apply Ha | exact He].
Qed.

Lemma legacy_init_once_set (o : legacy.opt T) (w : legacy.World) :
  legacy.once (snd (legacy.init o w)) = true.
Proof.
  unfold legacy.init. destruct (legacy.once o) eqn:Ho; [exact Ho |].
  now apply legacy_initBody_once.
Qed.

(** X15.  [init] settles the option from exactly one source, in the
    order flag, environment, default.  For an option that has not been
    initialised, whose variable is not nil and whose flag can be read:
    a changed flag gives the flag's value; otherwise an environment
    variable that is set gives its parsed text, and a text that does not
    parse panics with the error, with no fallback to the default and the
    variable left as it was; otherwise the default is assigned.  In all
    cases the call counts as made and nothing else of the option
    changes. *)
Theorem init_precedence (o : legacy.opt T) (w : legacy.World) (x0 : T) :
  legacy.once o = false ->
  legacy.v o = Some x0 ->
  legacy.flagReadable o w ->
  let o1 := legacy.set_once true o in
  (legacy.flagGiven o w = true ->
   legacy.init o w = (legacy.Done tt, legacy.set_v (legacy.readFlagV o w) o1)) /\
  (legacy.flagGiven o w = false ->
   forall strV, legacy.envGiven o w = Some strV ->
     (forall envV, legacy.envParseFunc o strV = inr envV ->
        legacy.init o w = (legacy.Done tt, legacy.set_v envV o1)) /\
     (forall fn input, legacy.envParseFunc o strV = inl (fn, input) ->
        legacy.init o w = (legacy.Panicked (legacy.EnvError fn input), o1))) /\
  (legacy.flagGiven o w = false ->
   legacy.envGiven o w = None ->
   legacy.init o w = (legacy.Done tt, legacy.set_v (legacy.defaultValue o) o1)).
Proof.
  intros Honce Hv Hread o1.
  assert (Hv1 : legacy.v o1 = Some x0) by exact Hv.
  assert (Hinit : legacy.init o w = legacy.initBody o1 w).
  { unfold legacy.init. now rewrite Honce. }
  assert (Henv : legacy.flagGiven o w = false ->
                 legacy.initBody o1 w = legacy.initFromEnv o1 w).
  { unfold legacy.flagGiven, legacy.initBody. simpl.
    change (legacy.derefFlag o1 w) with (legacy.derefFlag o w).
    destruct (String.eqb_spec (legacy.flagName o) "") as [|Hne]; simpl; [reflexivity |].
    destruct (legacy.derefFlag o w) as [f|] eqn:Hf.
    - now intros ->.
    - now destruct (Hread Hne). }
  split; [| split].
  - unfold legacy.flagGiven. intros Hg.
    apply andb_true_iff in Hg as [Hn Hc].
    rewrite Hinit. unfold legacy.initBody. simpl.
    change (legacy.derefFlag o1 w) with (legacy.derefFlag o w).
    rewrite Hn. destruct (legacy.derefFlag o w) as [f|]; [| discriminate].
    rewrite Hc. apply (legacy_assign_ok _ x0 o1 Hv1).
  - intros Hg strV Hs. rewrite Hinit, (Henv Hg).
    unfold legacy.envGiven in Hs. unfold legacy.initFromEnv. simpl.
    destruct (String.eqb (legacy.envName o) ""); [discriminate |]. simpl.
    rewrite Hs. split.
    + intros envV ->. apply (legacy_assign_ok _ x0 o1 Hv1).
    + now intros fn input ->.
  - intros Hg Hs. rewrite Hinit, (Henv Hg).
    unfold legacy.envGiven in Hs. unfold legacy.initFromEnv. simpl.
    destruct (String.eqb (legacy.envName o) ""); simpl.
    + apply (legacy_assign_ok _ x0 o1 Hv1).
    + rewrite Hs. apply (legacy_assign_ok _ x0 o1 Hv1).
Qed.

(** X16.  [init] runs once.  After a first call, whatever it did and
    even if it panicked, a later call changes nothing and returns, in
    any world: the option's value is frozen at its first resolution. *)
Theorem init_frozen (o : legacy.opt T) (w w' : legacy.World) :
  legacy.init (snd (legacy.init o w)) w' = (legacy.Done tt, snd (legacy.init o w)).
Proof.
  pose proof (legacy_init_once_set o w) as Hdone.
  destruct (legacy.init o w) as [r o1]. simpl in *.
  unfold legacy.init. now rewrite Hdone.
Qed.

End LegacyInit.

Section LegacyOptFuncs.
Context {T : Type}.

Lemma legacy_optFunc_fields (c : legacy.OptCall T) (o : legacy.opt T) :
  let pick {A} (p : legacy.OptCall T -> option A) (d : A) :=
    match p c with Some a => a | None => d end in
  legacy.flagName (legacy.optFunc c o) = pick legacy.pickFlagName (legacy.flagName o) /\
  legacy.flagShorthand (legacy.optFunc c o)
    = pick legacy.pickFlagShorthand (legacy.flagShorthand o) /\
  legacy.envName (legacy.optFunc c o) = pick legacy.pickEnvName (legacy.envName o) /\
  legacy.defaultValue (legacy.optFunc c o)
    = pick legacy.pickDefault (legacy.defaultValue o) /\
  legacy.flagIsPersistent (legacy.optFunc c o)
    = pick legacy.pickPersistent (legacy.flagIsPersistent o) /\
  legacy.flagIsDir (legacy.optFunc c o) = pick legacy.pickDir (legacy.flagIsDir o) /\
  legacy.flagIsFile (legacy.optFunc c o) = pick legacy.pickFile (legacy.flagIsFile o).
Proof. revert o. destruct c; intros o; simpl; repeat split; reflexivity. Qed.

Lemma legacy_optFunc_frame (c : legacy.OptCall T) (o : legacy.opt T) :
  legacy.once (legacy.optFunc c o) = legacy.once o /\
  legacy.name (legacy.optFunc c o) = legacy.name o /\
  legacy.usage (legacy.optFunc c o) = legacy.usage o /\
  legacy.flag (legacy.optFunc c o) = legacy.flag o /\
  legacy.flagV (legacy.optFunc c o) = legacy.flagV o /\
  legacy.envParseFunc (legacy.optFunc c o) = legacy.envParseFunc o /\
  legacy.v (legacy.optFunc c o) = legacy.v o.
Proof. revert o. destruct c; intros o; simpl; repeat split; reflexivity. Qed.

Lemma legacy_applyOptFuncs_fields (cs : list (legacy.OptCall T)) (o : legacy.opt T) :
  let o' := legacy.applyOptFuncs (map legacy.optFunc cs) o in
  legacy.flagName o' = legacy.lastOf legacy.pickFlagName (legacy.flagName o) cs /\
  legacy.flagShorthand o'
    = legacy.lastOf legacy.pickFlagShorthand (legacy.flagShorthand o) cs /\
  legacy.envName o' = legacy.lastOf legacy.pickEnvName (legacy.envName o) cs /\
  legacy.defaultValue o' = legacy.lastOf legacy.pickDefault (legacy.defaultValue o) cs /\
  legacy.flagIsPersistent o'
    = legacy.lastOf legacy.pickPersistent (legacy.flagIsPersistent o) cs /\
  legacy.flagIsDir o' = legacy.lastOf legacy.pickDir (legacy.flagIsDir o) cs /\
  legacy.flagIsFile o' = legacy.lastOf legacy.pickFile (legacy.flagIsFile o) cs.
Proof.
  revert o. induction cs as [|c cs IH]; intros o.
  - simpl. repeat split; reflexivity.
  - destruct (legacy_optFunc_fields c o) as (E1 & E2 & E3 & E4 & E5 & E6 & E7).
    destruct (IH (legacy.optFunc c o)) as (F1 & F2 & F3 & F4 & F5 & F6 & F7).
    cbv zeta in *. unfold legacy.lastOf in *. simpl.
    rewrite <- E1, <- E2, <- E3, <- E4, <- E5, <- E6, <- E7.
    split; [exact F1 |]. split; [exact F2 |]. split; [exact F3 |].
    split; [exact F4 |]. split; [exact F5 |]. split; [exact F6 | exact F7].
Qed.

Lemma legacy_applyOptFuncs_frame (cs : list (legacy.OptCall T)) (o : legacy.opt T) :
  let o' := legacy.applyOptFuncs (map legacy.optFunc cs) o in
  legacy.once o' = legacy.once o /\
  legacy.name o' = legacy.name o /\
  legacy.usage o' = legacy.usage o /\
  legacy.flag o' = legacy.flag o /\
  legacy.flagV o' = legacy.flagV o /\
  legacy.envParseFunc o' = legacy.envParseFunc o /\
  legacy.v o' = legacy.v o.
Proof.
  revert o. induction cs as [|c cs IH]; intros o.
  - simpl. repeat split; reflexivity.
  - destruct (legacy_optFunc_frame c o) as (E1 & E2 & E3 & E4 & E5 & E6 & E7).
    destruct (IH (legacy.optFunc c o)) as (F1 & F2 & F3 & F4 & F5 & F6 & F7).
    cbv zeta in *. simpl.
    rewrite <- E1, <- E2, <- E3, <- E4, <- E5, <- E6, <- E7.
    split; [exact F1 |]. split; [exact F2 |]. split; [exact F3 |].
    split; [exact F4 |]. split; [exact F5 |]. split; [exact F6 | exact F7].
Qed.

End LegacyOptFuncs.

Section LegacyAssembly.
Context {T : Type} `{legacy.OptType T}.
Variable ToUpper : string -> string.

(** X17.  What [doVar] assembles before it touches the command.  For
    each setting the last option function of its kind decides, whatever
    stands between, and without one the struct literal does: the flag
    name is the option's name, the environment name its upper-cased
    name, the shorthand empty, the default the zero value, and the flag
    neither persistent nor a directory or file name.  No option function
    sets the usage, which stays empty, or touches the variable. *)
Theorem assembled_last_wins (v' : option T) (name' : string)
    (cs : list (legacy.OptCall T)) (e : string -> (string * string) + T) :
  let o := legacy.assembled ToUpper v' name' cs e in
  legacy.flagName o = legacy.lastOf legacy.pickFlagName name' cs /\
  legacy.flagShorthand o = legacy.lastOf legacy.pickFlagShorthand "" cs /\
  legacy.envName o = legacy.lastOf legacy.pickEnvName (ToUpper name') cs /\
  legacy.defaultValue o = legacy.lastOf legacy.pickDefault legacy.zero cs /\
  legacy.flagIsPersistent o = legacy.lastOf legacy.pickPersistent false cs /\
  legacy.flagIsDir o = legacy.lastOf legacy.pickDir false cs /\
  legacy.flagIsFile o = legacy.lastOf legacy.pickFile false cs /\
  legacy.usage o = "" /\
  legacy.name o = name' /\
  legacy.v o = v' /\
  legacy.once o = false.
Proof.
  intros o.
  destruct (legacy_applyOptFuncs_fields cs (legacy.newOpt ToUpper v' name' e))
    as (F1 & F2 & F3 & F4 & F5 & F6 & F7).
  destruct (legacy_applyOptFuncs_frame cs (legacy.newOpt ToUpper v' name' e))
    as (G1 & G2 & G3 & _ & _ & _ & G7).
  split; [exact F1 |]. split; [exact F2 |]. split; [exact F3 |].
  split; [exact F4 |]. split; [exact F5 |]. split; [exact F6 |].
  split; [exact F7 |]. split; [exact G3 |]. split; [exact G2 |].
  split; [exact G7 | exact G1].
Qed.

End LegacyAssembly.

Section LegacyDeclare.
Context {T : Type} `{legacy.OptType T}.
Variable ToUpper : string -> string.

Lemma legacy_set_flagSet_same p w : legacy.set_flagSet p (legacy.flagSetOf p w) w = w.
Proof. now destruct w, p. Qed.

Lemma legacy_flagSetOf_set p fs w : legacy.flagSetOf p (legacy.set_flagSet p fs w) = fs.
Proof. now destruct p. Qed.

Lemma legacy_flagSetOf_set_other p fs w :
  legacy.flagSetOf (negb p) (legacy.set_flagSet p fs w) = legacy.flagSetOf (negb p) w.
Proof. now destruct p. Qed.

Lemma legacy_set_flagSet_twice p fs fs' w :
  legacy.set_flagSet p fs' (legacy.set_flagSet p fs w) = legacy.set_flagSet p fs' w.
Proof. now destruct p. Qed.

Lemma legacy_mark (c : bool) (p : bool) (n : string) (a : pflag.Annotation)
    (f : pflag.Flag) (fs : pflag.FlagSet) (w : legacy.World)
    (m : bool -> string -> legacy.W unit) :
  m = (fun p n => legacy.onFlagSet p (fun fs => (Ok tt, pflag.SetAnnotation n a fs))) ->
  pflag.Lookup n fs = None -> pflag.Name f = n ->
  (if c then m p n else legacy.retW tt) (legacy.set_flagSet p (fs ++ [f]) w)
    = (legacy.Done tt,
       legacy.set_flagSet p (fs ++ [if c then pflag.annotate a f else f]) w).
Proof.
  intros -> Hfree Hn. destruct c; [| reflexivity].
  unfold legacy.onFlagSet. rewrite legacy_flagSetOf_set.
  rewrite (SetAnnotation_last n a fs f Hfree Hn).
  now rewrite legacy_set_flagSet_twice.
Qed.

Lemma legacy_cmd_Flag_declared (o : legacy.opt T) (f : pflag.Flag) (w : legacy.World) :
  let p := legacy.flagIsPersistent o in
  pflag.Name f = legacy.flagName o ->
  pflag.Lookup (legacy.flagName o) (legacy.flagSetOf p w) = None ->
  legacy.cmd_Flag (legacy.flagName o)
      (legacy.set_flagSet p (legacy.flagSetOf p w ++ [f]) w)
    = (legacy.Done (legacy.flag (legacy.declared o w)),
       legacy.set_flagSet p (legacy.flagSetOf p w ++ [f]) w).
Proof.
  intros p Hn Hfree. unfold legacy.cmd_Flag, legacy.declared, legacy.hasFlag. simpl.
  fold p. destruct p eqn:Hp; simpl in *.
  - destruct (pflag.Lookup (legacy.flagName o) (legacy.Flags w)); [reflexivity |].
    rewrite pflag_Lookup_app, Hfree, Hn, String.eqb_refl. reflexivity.
  - rewrite pflag_Lookup_app, Hfree, Hn, String.eqb_refl. reflexivity.
Qed.

Lemma legacy_doVar_ok (x0 : T) (name' : string) (cs : list (legacy.OptCall T))
    (e : string -> (string * string) + T) (w : legacy.World) :
  let o := legacy.assembled ToUpper (Some x0) name' cs e in
  let p := legacy.flagIsPersistent o in
  legacy.flagName o <> "" ->
  pflag.Lookup (legacy.flagName o) (legacy.flagSetOf p w) = None ->
  shorthandFree (legacy.flagShorthand o) (legacy.flagSetOf p w) = true ->
  legacy.declare ToUpper (Some x0) name' cs e w
    = legacy.OnInitialize (legacy.declared o w)
        (legacy.set_flagSet p (legacy.flagSetOf p w ++ [legacy.declaredFlag o]) w).
Proof.
  intros o p Hne Hfree Hsh. subst p.
  unfold legacy.declare, legacy.doVar.
  change (legacy.applyOptFuncs (map legacy.optFunc cs)
            (legacy.newOpt ToUpper (Some x0) name' e)) with o.
  apply String.eqb_neq in Hne. rewrite Hne. simpl negb. cbv iota.
  unfold legacy.bindW at 1 2. unfold legacy.createFlag.
  unfold legacy.bindW at 1. unfold legacy.onFlagSet at 1.
  rewrite (StringP_ok _ _ _ _ _ Hfree Hsh).
  unfold legacy.retW at 1.
  cbn [legacy.flagName legacy.set_flagV legacy.set_flag legacy.flagIsDir legacy.flagIsFile].
  set (f0 := pflag.mkFlag _ _ _ _ _ _ _).
  unfold legacy.bindW at 1.
  rewrite (legacy_cmd_Flag_declared o f0 w eq_refl Hfree).
  unfold legacy.bindW at 1.
  rewrite (legacy_mark (legacy.flagIsDir o) _ (legacy.flagName o) pflag.SubdirsInDir f0
             _ w legacy.MarkFlagDirname eq_refl Hfree eq_refl).
  unfold legacy.bindW at 1.
  rewrite (legacy_mark (legacy.flagIsFile o) _ (legacy.flagName o) pflag.FilenameExt _
             _ w legacy.MarkFlagFilename eq_refl Hfree).
  2: { now destruct (legacy.flagIsDir o). }
  unfold legacy.retW.
  replace (if legacy.flagIsFile o then _ else _) with (legacy.declaredFlag o).
  2: { unfold legacy.declaredFlag, f0.
       now destruct (legacy.flagIsDir o), (legacy.flagIsFile o). }
  reflexivity.
Qed.

Lemma legacy_mark_total (c : bool) (p : bool) (n : string) (a : pflag.Annotation)
    (w : legacy.World) (m : bool -> string -> legacy.W unit) :
  m = (fun p n => legacy.onFlagSet p (fun fs => (Ok tt, pflag.SetAnnotation n a fs))) ->
  exists fs, (if c then m p n else legacy.retW tt) w
             = (legacy.Done tt, legacy.set_flagSet p fs w) /\
             length fs = length (legacy.flagSetOf p w).
Proof.
  intros ->. destruct c.
  - eexists. split; [reflexivity |]. unfold pflag.SetAnnotation. now rewrite length_map.
  - exists (legacy.flagSetOf p w). now rewrite legacy_set_flagSet_same.
Qed.

Lemma legacy_init_flag (o : legacy.opt T) (w : legacy.World) (x0 : T) (f : pflag.Flag) :
  legacy.once o = false -> legacy.v o = Some x0 ->
  legacy.flagName o <> "" ->
  legacy.derefFlag o w = Some f -> pflag.Changed f = true ->
  legacy.init o w
    = (legacy.Done tt, legacy.set_v (legacy.readFlagV o w) (legacy.set_once true o)).
Proof.
  intros Ho Hv Hne Hf Hc. unfold legacy.init. rewrite Ho.
  unfold legacy.initBody. simpl.
  change (legacy.derefFlag (legacy.set_once true o) w) with (legacy.derefFlag o w).
  apply String.eqb_neq in Hne. rewrite Hne, Hf, Hc. simpl.
  unfold legacy.assign. simpl. now rewrite Hv.
Qed.

Lemma legacy_init_flag_silent (o : legacy.opt T) (w : legacy.World) (f : pflag.Flag) :
  legacy.once o = false ->
  legacy.derefFlag o w = Some f -> pflag.Changed f = false ->
  legacy.init o w = legacy.initFromEnv (legacy.set_once true o) w.
Proof.
  intros Ho Hf Hc. unfold legacy.init. rewrite Ho.
  unfold legacy.initBody. simpl.
  change (legacy.derefFlag (legacy.set_once true o) w) with (legacy.derefFlag o w).
  rewrite Hf, Hc. now destruct (negb _).
Qed.

Lemma legacy_initFromEnv_environ (o : legacy.opt T) (w1 w2 : legacy.World) :
  legacy.environ w1 = legacy.environ w2 ->
  legacy.initFromEnv o w1 = legacy.initFromEnv o w2.
Proof.
  intros He. unfold legacy.initFromEnv, legacy.LookupEnv. now rewrite He.
Qed.

Lemma legacy_resolve_setFlag (r : legacy.FlagRef) (x : T) (w : legacy.World)
    (f : pflag.Flag) :
  legacy.resolve r w = Some f ->
  legacy.resolve r (legacy.setFlag r x w)
    = Some (pflag.mkFlag (pflag.Name f) (pflag.Shorthand f) (pflag.Usage f)
              (legacy.format x) (pflag.DefValue f) true (pflag.Annotations f)).
Proof.
  unfold legacy.resolve, legacy.setFlag. intros Hf.
  rewrite legacy_flagSetOf_set. now apply Set_Lookup_Some.
Qed.

Lemma legacy_resolve_setFlag_other (r r' : legacy.FlagRef) (x : T) (w : legacy.World) :
  legacy.refPersistent r' = negb (legacy.refPersistent r) ->
  legacy.resolve r' (legacy.setFlag r x w) = legacy.resolve r' w.
Proof.
  unfold legacy.resolve, legacy.setFlag. intros ->.
  now rewrite legacy_flagSetOf_set_other.
Qed.

Lemma legacy_declared_own_flag (o : legacy.opt T) (w : legacy.World) :
  let p := legacy.flagIsPersistent o in
  pflag.Lookup (legacy.flagName o) (legacy.flagSetOf p w) = None ->
  legacy.resolve (legacy.mkFlagRef p (legacy.flagName o))
      (legacy.set_flagSet p (legacy.flagSetOf p w ++ [legacy.declaredFlag o]) w)
    = Some (legacy.declaredFlag o).
Proof.
  intros p Hfree. unfold legacy.resolve. simpl.
  rewrite legacy_flagSetOf_set, pflag_Lookup_app, Hfree. simpl.
  now rewrite String.eqb_refl.
Qed.

Lemma legacy_assembled_start (v' : option T) (name' : string)
    (cs : list (legacy.OptCall T)) (e : string -> (string * string) + T) :
  let o := legacy.assembled ToUpper v' name' cs e in
  legacy.once o = false /\ legacy.v o = v' /\ legacy.usage o = "".
Proof.
  destruct (legacy_applyOptFuncs_frame cs (legacy.newOpt ToUpper v' name' e))
    as (G1 & _ & G3 & _ & _ & _ & G7).
  split; [exact G1 |]. split; [exact G7 | exact G3].
Qed.

Lemma legacy_StringP_Ok_free n sh d u fs fs' :
  pflag.StringP n sh d u fs = (Ok tt, fs') -> shorthandFree sh fs = true.
Proof.
  unfold pflag.StringP, shorthandFree.
  destruct (pflag.Lookup n fs); [discriminate |].
  destruct (String.eqb_spec sh "") as [|Hne]; [reflexivity |]. simpl.
  destruct (Nat.ltb_spec 1 (String.length sh)) as [|Hle]; [discriminate |].
  destruct (pflag.shorthandUsed sh fs); [discriminate |]. intros _.
  rewrite andb_true_r. apply Nat.eqb_eq.
  destruct sh as [|c r]; [congruence |]. simpl in *. lia.
Qed.

Lemma legacy_resolve_OnInitialize (r : legacy.FlagRef) (o : legacy.opt T)
    (w : legacy.World) :
  legacy.resolve r (snd (legacy.OnInitialize o w)) = legacy.resolve r w.
Proof. unfold legacy.resolve, legacy.flagSetOf. now destruct (legacy.refPersistent r). Qed.

Lemma legacy_declare_unnamed (x0 : T) (name' : string) (cs : list (legacy.OptCall T))
    (e : string -> (string * string) + T) (w : legacy.World) :
  let o := legacy.assembled ToUpper (Some x0) name' cs e in
  legacy.flagName o = "" ->
  legacy.declare ToUpper (Some x0) name' cs e w = legacy.OnInitialize o w.
Proof.
  intros o Hn. unfold legacy.declare, legacy.doVar.
  change (legacy.applyOptFuncs (map legacy.optFunc cs)
            (legacy.newOpt ToUpper (Some x0) name' e)) with o.
  now rewrite Hn.
Qed.

(** What [doVar] leaves behind when the flag library has refused the
    flag, or accepted it. *)
Lemma legacy_declare_cases (x0 : T) (name' : string) (cs : list (legacy.OptCall T))
    (e : string -> (string * string) + T) (w : legacy.World) :
  let o := legacy.assembled ToUpper (Some x0) name' cs e in
  let p := legacy.flagIsPersistent o in
  legacy.flagName o <> "" ->
  (pflag.Lookup (legacy.flagName o) (legacy.flagSetOf p w) = None /\
   shorthandFree (legacy.flagShorthand o) (legacy.flagSetOf p w) = true) \/
  (exists pv fs,
     pflag.StringP (legacy.flagName o) (legacy.flagShorthand o)
       (legacy.format (legacy.defaultValue o)) (legacy.usage o) (legacy.flagSetOf p w)
       = (Panic pv, fs) /\
     legacy.declare ToUpper (Some x0) name' cs e w
       = (legacy.Panicked (legacy.Library pv), legacy.set_flagSet p fs w)).
Proof.
  intros o p Hne.
  destruct (pflag.StringP (legacy.flagName o) (legacy.flagShorthand o)
              (legacy.format (legacy.defaultValue o)) (legacy.usage o)
              (legacy.flagSetOf p w)) as [[[]|pv|z] fs] eqn:E.
  - left. split.
    + exact (proj1 (StringP_Ok_inv _ _ _ _ _ _ E)).
    + exact (legacy_StringP_Ok_free _ _ _ _ _ _ E).
  - right. exists pv, fs. split; [reflexivity |].
    unfold legacy.declare, legacy.doVar.
    change (legacy.applyOptFuncs (map legacy.optFunc cs)
              (legacy.newOpt ToUpper (Some x0) name' e)) with o.
    apply String.eqb_neq in Hne. rewrite Hne. simpl negb. cbv iota.
    unfold legacy.bindW at 1 2. unfold legacy.createFlag.
    unfold legacy.bindW at 1. unfold legacy.onFlagSet at 1.
    fold p. now rewrite E.
  - exfalso. revert E. unfold pflag.StringP.
    destruct (pflag.Lookup _ _); [discriminate |].
    destruct (String.eqb _ ""); [discriminate |].
    destruct (1 <? _)%nat; [discriminate |].
    destruct (pflag.shorthandUsed _ _); discriminate.
Qed.

(** X18.  What a declaration does to the command.  When the assembled
    option has a flag name that is free in the flag set it goes to, the
    persistent one if [FlagIsPersistent] was given and the normal one
    otherwise, and a shorthand the library accepts, [doVar] returns and
    has added one flag at the end of that set: under the flag name and
    shorthand, unchanged, with the default as its value, an empty usage,
    and the directory and file marks asked for.  The other flag set and
    the environment are as before, one initializer has been added, for
    an option whose flag pointer can be read and whose flag variable
    holds the default. *)
Theorem declaration_registers (x0 : T) (name' : string) (cs : list (legacy.OptCall T))
    (e : string -> (string * string) + T) (w : legacy.World) :
  let o := legacy.assembled ToUpper (Some x0) name' cs e in
  let p := legacy.flagIsPersistent o in
  legacy.flagName o <> "" ->
  pflag.Lookup (legacy.flagName o) (legacy.flagSetOf p w) = None ->
  shorthandFree (legacy.flagShorthand o) (legacy.flagSetOf p w) = true ->
  let w' := snd (legacy.declare ToUpper (Some x0) name' cs e w) in
  fst (legacy.declare ToUpper (Some x0) name' cs e w) = legacy.Done tt /\
  legacy.flagSetOf p w' = legacy.flagSetOf p w ++ [legacy.declaredFlag o] /\
  pflag.Usage (legacy.declaredFlag o) = "" /\
  legacy.flagSetOf (negb p) w' = legacy.flagSetOf (negb p) w /\
  legacy.environ w' = legacy.environ w /\
  legacy.initializers w'
    = legacy.initializers w ++ [legacy.mkInitializer T _ (legacy.declared o w)] /\
  legacy.flagReadable (legacy.declared o w) w' /\
  legacy.readFlagV (legacy.declared o w) w' = legacy.defaultValue o.
Proof.
  intros o p Hne Hfree Hsh w'.
  pose proof (legacy_doVar_ok x0 name' cs e w Hne Hfree Hsh) as Hrun.
  pose proof (legacy_declared_own_flag o w Hfree) as Hown.
  fold o p in Hrun, Hown. subst w'. rewrite Hrun.
  set (w1 := legacy.set_flagSet p _ w) in *.
  split; [reflexivity |].
  split; [subst w1; now destruct p |].
  split; [exact (proj2 (proj2 (legacy_assembled_start (Some x0) name' cs e))) |].
  split; [subst w1; now destruct p |].
  split; [subst w1; now destruct p |].
  split; [subst w1; now destruct p |].
  split.
  - intros _. unfold legacy.derefFlag.
    change (legacy.flag (legacy.declared o w))
      with (Some (legacy.mkFlagRef
                    (p && negb (legacy.hasFlag (legacy.flagName o) (legacy.Flags w)))
                    (legacy.flagName o))).
    cbv beta iota. rewrite legacy_resolve_OnInitialize. unfold legacy.hasFlag.
    destruct (pflag.Lookup (legacy.flagName o) (legacy.Flags w)) as [f|] eqn:Hl.
    + rewrite andb_false_r. unfold legacy.resolve, w1. simpl.
      destruct p eqn:Hp; simpl.
      * now rewrite Hl.
      * simpl in Hfree. congruence.
    + rewrite andb_true_r, Hown. discriminate.
  - unfold legacy.readFlagV.
    change (legacy.flagV (legacy.declared o w))
      with (Some (legacy.mkFlagRef p (legacy.flagName o))).
    cbv beta iota. rewrite legacy_resolve_OnInitialize, Hown.
    apply legacy.read_format.
Qed.

(** X19.  A declaration that does not complete hands cobra nothing.  A
    nil variable panics before the command is touched, and a flag name
    that is taken in the flag set it goes to panics in the flag library,
    which leaves the command as it was.  In general, whenever [doVar]
    does not return, the initializers, the environment and the other
    flag set are what they were. *)
Theorem failed_declaration_hands_over_nothing (v' : option T) (name' : string)
    (cs : list (legacy.OptCall T)) (e : string -> (string * string) + T)
    (w : legacy.World) :
  let o := legacy.assembled ToUpper v' name' cs e in
  let p := legacy.flagIsPersistent o in
  let run := legacy.declare ToUpper v' name' cs e w in
  (v' = None -> run = (legacy.Panicked (legacy.Message "opt: v cannot be nil"), w)) /\
  (v' <> None -> legacy.flagName o <> "" ->
   pflag.Lookup (legacy.flagName o) (legacy.flagSetOf p w) <> None ->
   run = (legacy.Panicked (legacy.Library (FlagRedefined (legacy.flagName o))), w)) /\
  (fst run <> legacy.Done tt ->
   legacy.initializers (snd run) = legacy.initializers w /\
   legacy.environ (snd run) = legacy.environ w /\
   legacy.flagSetOf (negb p) (snd run) = legacy.flagSetOf (negb p) w).
Proof.
  intros o p run. split; [| split].
  - intros ->. reflexivity.
  - intros Hv Hne Htaken. destruct v' as [x0|]; [| congruence].
    destruct (legacy_declare_cases x0 name' cs e w Hne) as [[Hfree _] | (pv & fs & E & Hrun)].
    + now destruct Htaken.
    + subst run. rewrite Hrun. fold o p in E. revert E. unfold pflag.StringP.
      destruct (pflag.Lookup _ _) as [f|]; [| now destruct Htaken].
      inversion 1; subst. now rewrite legacy_set_flagSet_same.
  - intros Hfail. destruct v' as [x0|]; [| now subst run].
    destruct (String.eqb_spec (legacy.flagName o) "") as [Hn | Hne].
    + subst run. rewrite (legacy_declare_unnamed x0 name' cs e w Hn) in Hfail.
      now destruct Hfail.
    + destruct (legacy_declare_cases x0 name' cs e w Hne)
        as [[Hfree Hsh] | (pv & fs & _ & Hrun)].
      * subst run. rewrite (legacy_doVar_ok x0 name' cs e w Hne Hfree Hsh) in Hfail.
        now destruct Hfail.
      * subst run. rewrite Hrun. subst p. unfold o.
        destruct (legacy.flagIsPersistent _); simpl; repeat split; reflexivity.
Qed.

(** X20.  From declaration to value.  After a declaration as in X18
    whose flag name is not also the name of a normal flag of the command
    when the flag is persistent, the option's flag pointer is the flag
    created for it: once the command line has given that flag the value
    [x], [init] assigns [x] whatever the environment holds, and while
    the flag is unchanged [init] decides by environment and default. *)
Theorem declared_flag_round_trip (x0 x : T) (name' : string)
    (cs : list (legacy.OptCall T)) (e : string -> (string * string) + T)
    (w : legacy.World) :
  let o := legacy.assembled ToUpper (Some x0) name' cs e in
  let p := legacy.flagIsPersistent o in
  legacy.flagName o <> "" ->
  pflag.Lookup (legacy.flagName o) (legacy.flagSetOf p w) = None ->
  shorthandFree (legacy.flagShorthand o) (legacy.flagSetOf p w) = true ->
  (p = true -> legacy.hasFlag (legacy.flagName o) (legacy.Flags w) = false) ->
  let w' := snd (legacy.declare ToUpper (Some x0) name' cs e w) in
  let o' := legacy.declared o w in
  legacy.init o' (legacy.setFlag (legacy.mkFlagRef p (legacy.flagName o)) x w')
    = (legacy.Done tt, legacy.set_v x (legacy.set_once true o')) /\
  legacy.init o' w' = legacy.initFromEnv (legacy.set_once true o') w'.
Proof.
  intros o p Hne Hfree Hsh Hlocal w' o'.
  pose proof (legacy_doVar_ok x0 name' cs e w Hne Hfree Hsh) as Hrun.
  pose proof (legacy_declared_own_flag o w Hfree) as Hown.
  destruct (legacy_assembled_start (Some x0) name' cs e) as (Honce & Hv & _).
  fold o p in Hrun, Hown, Honce, Hv. fold o' in Hrun. subst w'. rewrite Hrun.
  set (w1 := legacy.set_flagSet p _ w) in *.
  set (r := legacy.mkFlagRef p (legacy.flagName o)) in *.
  assert (Hflag : legacy.flag o' = Some r).
  { unfold o', legacy.declared, r. simpl. fold p. do 2 f_equal.
    destruct p; [| reflexivity]. now rewrite (Hlocal eq_refl). }
  assert (Hres : legacy.resolve r (snd (legacy.OnInitialize o' w1))
                 = Some (legacy.declaredFlag o)).
  { now rewrite legacy_resolve_OnInitialize. }
  split.
  - pose proof (legacy_resolve_setFlag r x _ _ Hres) as Hset.
    rewrite (legacy_init_flag o' _ x0 _ Honce Hv Hne
               ltac:(unfold legacy.derefFlag; rewrite Hflag; exact Hset) eq_refl).
    f_equal. f_equal. unfold legacy.readFlagV.
    change (legacy.flagV o') with (Some r). cbv beta iota. rewrite Hset. simpl.
    apply legacy.read_format.
  - apply (legacy_init_flag_silent o' _ (legacy.declaredFlag o) Honce); [| reflexivity].
    unfold legacy.derefFlag. now rewrite Hflag.
Qed.

(** X21.  A persistent flag under the name of a normal one.  When the
    command already has a normal flag under the flag name and the option
    is declared persistent, the declaration succeeds, but the flag
    pointer of the option is the normal flag while its flag variable
    belongs to the new persistent flag.  So once the normal flag has
    been given a value [init] assigns the option's default, whatever
    that value and the environment are; and while the normal flag is
    unchanged, giving the option's own flag a value changes nothing of
    what [init] does. *)
Theorem shadowed_persistent_flag (x0 : T) (name' : string)
    (cs : list (legacy.OptCall T)) (e : string -> (string * string) + T)
    (w : legacy.World) (f : pflag.Flag) :
  let o := legacy.assembled ToUpper (Some x0) name' cs e in
  legacy.flagName o <> "" ->
  legacy.flagIsPersistent o = true ->
  pflag.Lookup (legacy.flagName o) (legacy.PersistentFlags w) = None ->
  shorthandFree (legacy.flagShorthand o) (legacy.PersistentFlags w) = true ->
  pflag.Lookup (legacy.flagName o) (legacy.Flags w) = Some f ->
  let w' := snd (legacy.declare ToUpper (Some x0) name' cs e w) in
  let o' := legacy.declared o w in
  fst (legacy.declare ToUpper (Some x0) name' cs e w) = legacy.Done tt /\
  (forall y : T,
     legacy.init o' (legacy.setFlag (legacy.mkFlagRef false (legacy.flagName o)) y w')
       = (legacy.Done tt,
          legacy.set_v (legacy.defaultValue o) (legacy.set_once true o'))) /\
  (pflag.Changed f = false ->
   forall x : T,
     legacy.init o' (legacy.setFlag (legacy.mkFlagRef true (legacy.flagName o)) x w')
       = legacy.init o' w').
Proof.
  intros o Hne Hp Hfree Hsh Hlocal w' o'.
  assert (Hfree' : pflag.Lookup (legacy.flagName o)
                     (legacy.flagSetOf (legacy.flagIsPersistent o) w) = None)
    by now rewrite Hp.
  assert (Hsh' : shorthandFree (legacy.flagShorthand o)
                   (legacy.flagSetOf (legacy.flagIsPersistent o) w) = true)
    by now rewrite Hp.
  pose proof (legacy_doVar_ok x0 name' cs e w Hne Hfree' Hsh') as Hrun.
  pose proof (legacy_declared_own_flag o w Hfree') as Hown.
  destruct (legacy_assembled_start (Some x0) name' cs e) as (Honce & Hv & _).
  fold o in Hrun, Hown, Honce, Hv. fold o' in Hrun. subst w'. rewrite Hrun.
  rewrite Hp in Hrun, Hown |- *.
  set (w1 := legacy.set_flagSet true _ w) in *.
  set (rl := legacy.mkFlagRef false (legacy.flagName o)).
  set (rp := legacy.mkFlagRef true (legacy.flagName o)) in *.
  assert (Hflag : legacy.flag o' = Some rl).
  { unfold o', legacy.declared, legacy.hasFlag, rl. simpl. now rewrite Hp, Hlocal. }
  assert (HflagV : legacy.flagV o' = Some rp).
  { unfold o', legacy.declared, rp. simpl. now rewrite Hp. }
  assert (Hresl : legacy.resolve rl (snd (legacy.OnInitialize o' w1)) = Some f).
  { rewrite legacy_resolve_OnInitialize. exact Hlocal. }
  assert (Hresp : legacy.resolve rp (snd (legacy.OnInitialize o' w1))
                  = Some (legacy.declaredFlag o)).
  { now rewrite legacy_resolve_OnInitialize. }
  split; [reflexivity |]. split.
  - intros y.
    pose proof (legacy_resolve_setFlag rl y _ _ Hresl) as Hset.
    rewrite (legacy_init_flag o' _ x0 _ Honce Hv Hne
               ltac:(unfold legacy.derefFlag; rewrite Hflag; exact Hset) eq_refl).
    f_equal. f_equal. unfold legacy.readFlagV. rewrite HflagV.
    cbv beta iota.
    rewrite (legacy_resolve_setFlag_other rl rp y _ eq_refl), Hresp. simpl.
    apply legacy.read_format.
  - intros Hc x.
    rewrite (legacy_init_flag_silent o' _ f Honce
               ltac:(unfold legacy.derefFlag; rewrite Hflag;
                     rewrite (legacy_resolve_setFlag_other rp rl x
                                (snd (legacy.OnInitialize o' w1)) eq_refl);
                     exact Hresl) Hc).
    rewrite (legacy_init_flag_silent o' _ f Honce
               ltac:(unfold legacy.derefFlag; rewrite Hflag; exact Hresl) Hc).
    apply legacy_initFromEnv_environ. unfold legacy.setFlag. now simpl.
Qed.

Lemma legacy_lastOf_strict_flagName (cs : list (legacy.OptCall T)) (d : string) :
  Forall (fun c => legacy.strictOptFunc c = legacy.Done (legacy.optFunc c)) cs ->
  d <> "" -> legacy.lastOf legacy.pickFlagName d cs <> "".
Proof.
  unfold legacy.lastOf. intros Hcs. revert d.
  induction Hcs as [|c cs Hc _ IH]; intros d Hd; [exact Hd |].
  simpl. apply IH. revert Hc. clear -Hd.
  destruct c; simpl; try (intros _; exact Hd).
  unfold legacy.strictFlagName. now destruct (String.eqb_spec s "").
Qed.

Lemma legacy_lastOf_strict_envName (cs : list (legacy.OptCall T)) (d : string) :
  Forall (fun c => legacy.strictOptFunc c = legacy.Done (legacy.optFunc c)) cs ->
  d <> "" -> legacy.lastOf legacy.pickEnvName d cs <> "".
Proof.
  unfold legacy.lastOf. intros Hcs. revert d.
  induction Hcs as [|c cs Hc _ IH]; intros d Hd; [exact Hd |].
  simpl. apply IH. revert Hc. clear -Hd.
  destruct c; simpl; try (intros _; exact Hd).
  unfold legacy.strictEnvName. now destruct (String.eqb_spec s "").
Qed.

(** X22.  In the listing of [part_000], where [FlagName], [FlagShorthand]
    and [EnvName] panic on an empty argument, no option function can
    switch the flag or the environment off: for option functions those
    constructors return, an option with a non-empty name has a non-empty
    flag name, and a non-empty environment name if its upper-cased name
    is not empty; so every declaration that completes has added its
    flag to the command. *)
Theorem listing_declaration_adds_flag (x0 : T) (name' : string)
    (cs : list (legacy.OptCall T)) (e : string -> (string * string) + T)
    (w : legacy.World) :
  let o := legacy.assembled ToUpper (Some x0) name' cs e in
  let p := legacy.flagIsPersistent o in
  Forall (fun c => legacy.strictOptFunc c = legacy.Done (legacy.optFunc c)) cs ->
  name' <> "" ->
  legacy.flagName o <> "" /\
  (ToUpper name' <> "" -> legacy.envName o <> "") /\
  (fst (legacy.declare ToUpper (Some x0) name' cs e w) = legacy.Done tt ->
   legacy.flagSetOf p (snd (legacy.declare ToUpper (Some x0) name' cs e w))
     = legacy.flagSetOf p w ++ [legacy.declaredFlag o]).
Proof.
  intros o p Hcs Hname.
  destruct (legacy_applyOptFuncs_fields cs (legacy.newOpt ToUpper (Some x0) name' e))
    as (F1 & _ & F3 & _).
  assert (Hne : legacy.flagName o <> "").
  { unfold o, legacy.assembled. rewrite F1.
    now apply legacy_lastOf_strict_flagName. }
  split; [exact Hne |]. split.
  - intros Hup. unfold o, legacy.assembled. rewrite F3.
    now apply legacy_lastOf_strict_envName.
  - intros Hdone.
    destruct (legacy_declare_cases x0 name' cs e w Hne)
      as [[Hfree Hsh] | (pv & fs & _ & Hrun)].
    + rewrite (legacy_doVar_ok x0 name' cs e w Hne Hfree Hsh).
      fold o p. simpl. now destruct p.
    + rewrite Hrun in Hdone. discriminate Hdone.
Qed.

(** X23.  In [src/opt.go], where [FlagName] takes any argument, an empty
    flag name switches the flag off.  When the last [FlagName] among the
    option functions is empty, or the option's name is and there is no
    [FlagName], the declaration touches no flag set, cannot fail, and
    only hands the assembled option to cobra; and [init] on that option
    never looks at a flag: it does the same in any two worlds with the
    same environment. *)
Theorem empty_flag_name_disables (x0 : T) (name' : string)
    (cs : list (legacy.OptCall T)) (e : string -> (string * string) + T)
    (w : legacy.World) :
  let o := legacy.assembled ToUpper (Some x0) name' cs e in
  legacy.lastOf legacy.pickFlagName name' cs = "" ->
  legacy.declare ToUpper (Some x0) name' cs e w
    = (legacy.Done tt,
       legacy.mkWorld (legacy.Flags w) (legacy.PersistentFlags w) (legacy.environ w)
         (legacy.initializers w ++ [legacy.mkInitializer T _ o])) /\
  (forall w1 w2, legacy.environ w1 = legacy.environ w2 ->
     legacy.init o w1 = legacy.init o w2).
Proof.
  intros o Hlast.
  destruct (legacy_applyOptFuncs_fields cs (legacy.newOpt ToUpper (Some x0) name' e))
    as (F1 & _).
  assert (Hn : legacy.flagName o = "").
  { unfold o, legacy.assembled. now rewrite F1. }
  split.
  - now rewrite (legacy_declare_unnamed x0 name' cs e w Hn).
  - intros w1 w2 He. unfold legacy.init.
    destruct (legacy.once o); [reflexivity |].
    unfold legacy.initBody. simpl. rewrite Hn. simpl.
    now apply legacy_initFromEnv_environ.
Qed.

End LegacyDeclare.

Lemma init_precedence_witness :
  legacy.init legacy.sampleOpt (legacy.sampleWorld true {["PORT" := "9090"]})
    = (legacy.Done tt, legacy.set_v "8080" (legacy.set_once true legacy.sampleOpt)) /\
  legacy.init legacy.sampleOpt (legacy.sampleWorld false {["PORT" := "9090"]})
    = (legacy.Done tt, legacy.set_v "9090" (legacy.set_once true legacy.sampleOpt)) /\
  legacy.init legacy.sampleBoolOpt (legacy.sampleWorld false {["DEBUG" := "maybe"]})
    = (legacy.Panicked (legacy.EnvError "ParseBool" "maybe"),
       legacy.set_once true legacy.sampleBoolOpt) /\
  legacy.init legacy.sampleOpt (legacy.sampleWorld false ∅)
    = (legacy.Done tt, legacy.set_v "80" (legacy.set_once true legacy.sampleOpt)).
Proof.
  assert (Hr : forall c env,
             legacy.flagReadable legacy.sampleOpt (legacy.sampleWorld c env)).
  { intros c env _. discriminate. }
  split; [| split; [| split]].
  - exact (proj1 (init_precedence legacy.sampleOpt
                    (legacy.sampleWorld true {["PORT" := "9090"]}) "" eq_refl eq_refl
                    (Hr _ _)) eq_refl).
  - exact (proj1 (proj1 (proj2 (init_precedence legacy.sampleOpt
                                  (legacy.sampleWorld false {["PORT" := "9090"]}) ""
                                  eq_refl eq_refl (Hr _ _))) eq_refl "9090" eq_refl)
             "9090" eq_refl).
  - refine (proj2 (proj1 (proj2 (init_precedence legacy.sampleBoolOpt
                                   (legacy.sampleWorld false {["DEBUG" := "maybe"]})
                                   false eq_refl eq_refl _)) eq_refl "maybe" eq_refl)
              "ParseBool" "maybe" eq_refl).
    intros Hn. now destruct Hn.
  - exact (proj2 (proj2 (init_precedence legacy.sampleOpt (legacy.sampleWorld false ∅) ""
                           eq_refl eq_refl (Hr _ _))) eq_refl eq_refl).
Defined.

Lemma declaration_registers_witness :
  legacy.String legacy.sampleToUpper (Some "") "port" (map legacy.optFunc legacy.portCalls)
      legacy.emptyWorld
    = (legacy.Done tt,
       legacy.mkWorld [pflag.mkFlag "port" "p" "" "80" "80" false []] [] ∅
         [legacy.mkInitializer string _
            (legacy.declared
               (legacy.assembled legacy.sampleToUpper (Some "") "port" legacy.portCalls
                  legacy.stringEnvParse) legacy.emptyWorld)]).
Proof.
  pose proof (declaration_registers legacy.sampleToUpper "" "port" legacy.portCalls
                legacy.stringEnvParse legacy.emptyWorld
                ltac:(discriminate) eq_refl eq_refl)
    as (Hdone & Hflags & _ & Hother & Henv & Hinit & _).
  change (legacy.String legacy.sampleToUpper (Some "") "port"
            (map legacy.optFunc legacy.portCalls))
    with (legacy.declare legacy.sampleToUpper (Some "") "port" legacy.portCalls
            legacy.stringEnvParse).
  destruct (legacy.declare legacy.sampleToUpper (Some "") "port" legacy.portCalls
              legacy.stringEnvParse legacy.emptyWorld) as [r [F P E I]].
  simpl in Hdone, Hflags, Hother, Henv, Hinit. now subst.
Defined.

Lemma failed_declaration_hands_over_nothing_witness :
  legacy.String legacy.sampleToUpper None "port" (map legacy.optFunc legacy.portCalls)
      legacy.emptyWorld
    = (legacy.Panicked (legacy.Message "opt: v cannot be nil"), legacy.emptyWorld) /\
  legacy.String legacy.sampleToUpper (Some "") "port"
      (map legacy.optFunc legacy.portCalls) legacy.busyWorld
    = (legacy.Panicked (legacy.Library (FlagRedefined "port")), legacy.busyWorld) /\
  legacy.initializers
    (snd (legacy.Bool legacy.sampleToUpper (Some false) "debug"
            [legacy.FlagShorthand "dbg"] legacy.emptyWorld)) = [].
Proof.
  split; [| split].
  - exact (proj1 (failed_declaration_hands_over_nothing legacy.sampleToUpper None "port"
                    legacy.portCalls legacy.stringEnvParse legacy.emptyWorld) eq_refl).
  - refine (proj1 (proj2 (failed_declaration_hands_over_nothing legacy.sampleToUpper
                            (Some "") "port" legacy.portCalls legacy.stringEnvParse
                            legacy.busyWorld)) _ _ _); discriminate.
  - refine (proj1 (proj2 (proj2 (failed_declaration_hands_over_nothing
                                   legacy.sampleToUpper (Some false) "debug"
                                   [legacy.CFlagShorthand "dbg"] legacy.boolEnvParse
                                   legacy.emptyWorld)) _)).
    discriminate.
Defined.

Lemma declared_flag_round_trip_witness :
  let o := legacy.declared
             (legacy.assembled legacy.sampleToUpper (Some "") "port" legacy.portCalls
                legacy.stringEnvParse) legacy.envWorld in
  let w := snd (legacy.String legacy.sampleToUpper (Some "") "port"
                  (map legacy.optFunc legacy.portCalls) legacy.envWorld) in
  legacy.init o (legacy.setFlag (legacy.mkFlagRef false "port") "8080" w)
    = (legacy.Done tt, legacy.set_v "8080" (legacy.set_once true o)) /\
  legacy.init o w = (legacy.Done tt, legacy.set_v "9090" (legacy.set_once true o)).
Proof.
  destruct (declared_flag_round_trip legacy.sampleToUpper "" "8080" "port"
              legacy.portCalls legacy.stringEnvParse legacy.envWorld
              ltac:(discriminate) eq_refl eq_refl ltac:(discriminate)) as [Hflag Henv].
  split; [exact Hflag |]. cbv zeta. etransitivity; [exact Henv | reflexivity].
Defined.

Lemma shadowed_persistent_flag_witness :
  let o := legacy.declared
             (legacy.assembled legacy.sampleToUpper (Some "") "port"
                legacy.persistentCalls legacy.stringEnvParse) legacy.busyWorld in
  let w := snd (legacy.String legacy.sampleToUpper (Some "") "port"
                  (map legacy.optFunc legacy.persistentCalls) legacy.busyWorld) in
  legacy.PersistentFlags w = [pflag.mkFlag "port" "" "" "80" "80" false []] /\
  legacy.init o (legacy.setFlag (legacy.mkFlagRef false "port") "1234" w)
    = (legacy.Done tt, legacy.set_v "80" (legacy.set_once true o)) /\
  legacy.init o (legacy.setFlag (legacy.mkFlagRef true "port") "1234" w)
    = (legacy.Done tt, legacy.set_v "9090" (legacy.set_once true o)).
Proof.
  destruct (shadowed_persistent_flag legacy.sampleToUpper "" "port"
              legacy.persistentCalls legacy.stringEnvParse legacy.busyWorld
              (pflag.mkFlag "port" "" "" "1" "1" false [])
              ltac:(discriminate) eq_refl eq_refl eq_refl eq_refl)
    as (_ & Hnormal & Hown).
  split; [reflexivity |]. split; [exact (Hnormal "1234") |].
  cbv zeta. etransitivity; [exact (Hown eq_refl "1234") | reflexivity].
Defined.

Lemma listing_declaration_adds_flag_witness :
  legacy.Flags (snd (legacy.String legacy.sampleToUpper (Some "") "port"
                       (map legacy.optFunc legacy.portCalls) legacy.emptyWorld))
    = [pflag.mkFlag "port" "p" "" "80" "80" false []].
Proof.
  refine (proj2 (proj2 (listing_declaration_adds_flag legacy.sampleToUpper "" "port"
                          legacy.portCalls legacy.stringEnvParse legacy.emptyWorld _ _))
            eq_refl).
  - repeat constructor.
  - discriminate.
Defined.

Lemma empty_flag_name_disables_witness :
  legacy.String legacy.sampleToUpper (Some "") "port"
      (map legacy.optFunc legacy.noFlagCalls) legacy.busyWorld
    = (legacy.Done tt,
       legacy.mkWorld (legacy.Flags legacy.busyWorld) [] {["PORT" := "9090"]}
         [legacy.mkInitializer string _
            (legacy.assembled legacy.sampleToUpper (Some "") "port" legacy.noFlagCalls
               legacy.stringEnvParse)]).
Proof.
  exact (proj1 (empty_flag_name_disables legacy.sampleToUpper "" "port"
                  legacy.noFlagCalls legacy.stringEnvParse legacy.busyWorld eq_refl)).
Defined.
